(** * mem-cache: a trie-shaped memory cache with compound keys

    A shallow embedding of [MemCache.ts], [CachePartial.ts] and [util.ts]
    and a verification of the properties its specification states.

    Modelling conventions.

    - A node is a JavaScript array of length 3 (a leaf: value, access time,
      size) or of length 4 (a branch: child map, access time, aggregate size,
      aggregate leaf count).  [isLeaf] and [isBranch] test the length; here
      the two shapes are the two constructors of [Node].
    - A JavaScript [Map] keeps its entries in insertion order and compares
      keys with SameValueZero.  It is an association list; [mapSet] keeps the
      position of an existing key and appends a new one, as [Map.set] does.
    - Nodes are mutated in place.  Every function that mutates a node returns
      the node as it is after the call, and a parent stores the returned
      child back under the same key.
    - The casts [as Branch] and [as Leaf] are unchecked.  Calling [.get] on
      the first slot of a leaf calls a method of the stored value; stored
      values are plain data without such a method, so the call raises a
      [TypeError].  Results are [Completion]s; the node returned next to a
      [Throw] is the node as the exception leaves it.
    - [new Date()] reads the clock.  Calls are synchronous, and all the reads
      made inside one public call are given the same instant [now], as under
      the fake timers of the repository's tests.  Dates are millisecond
      counts in [Z].
    - Sizes are byte counts in [Z].  The size estimator ([object-sizeof]) is
      a parameter [sizeof]. *)

From Stdlib Require Import List ZArith Bool String Lia Permutation Sorted.
Import ListNotations.
Local Open Scope Z_scope.
Set Warnings "-register-all".

(** ** Key components and JavaScript maps *)

Inductive Primitive : Type :=
| PString (s : string)
| PNumber (n : Z)
| PBoolean (b : bool).

(** The key comparison of [Map]. *)
Definition sameValueZero (a b : Primitive) : bool :=
  match a, b with
  | PString s, PString t => String.eqb s t
  | PNumber n, PNumber m => Z.eqb n m
  | PBoolean x, PBoolean y => Bool.eqb x y
  | _, _ => false
  end.

Definition Date := Z.

Inductive JsError : Type := TypeError.

Inductive Completion (A : Type) : Type :=
| Normal (a : A)
| Throw (e : JsError).
Arguments Normal {A} a.
Arguments Throw {A} e.

Section JsMap.
Context {A : Type}.

Definition JsMap := list (Primitive * A).

(** [Map.prototype.get] *)
Fixpoint mapGet (m : JsMap) (k : Primitive) : option A :=
  match m with
  | [] => None
  | (k', v) :: m' => if sameValueZero k k' then Some v else mapGet m' k
  end.

(** [Map.prototype.set] *)
Fixpoint mapSet (m : JsMap) (k : Primitive) (v : A) : JsMap :=
  match m with
  | [] => [(k, v)]
  | (k', v') :: m' =>
      if sameValueZero k k' then (k', v) :: m' else (k', v') :: mapSet m' k v
  end.

(** [Map.prototype.delete] *)
Definition mapDelete (m : JsMap) (k : Primitive) : JsMap :=
  filter (fun e => negb (sameValueZero k (fst e))) m.

Definition mapKeys (m : JsMap) : list Primitive := map fst m.

(** Sums over the values of a map. *)
Definition sumOver (f : A -> Z) : JsMap -> Z :=
  fix go (m : JsMap) : Z :=
    match m with
    | [] => 0
    | e :: m' => f (snd e) + go m'
    end.

(** No key occurs twice: what a [Map] guarantees by construction. *)
Fixpoint distinctKeys (l : list Primitive) : bool :=
  match l with
  | [] => true
  | k :: l' => negb (existsb (sameValueZero k) l') && distinctKeys l'
  end.

Definition valueAt (f : A -> Z) (o : option A) : Z :=
  match o with Some v => f v | None => 0 end.
End JsMap.
Arguments JsMap A : clear implicits.

Definition isSome {A : Type} (o : option A) : bool :=
  match o with Some _ => true | None => false end.

(** ** Nodes *)

Section Trie.
Context {V : Type}.
(** The byte-size estimator. *)
Variable sizeof : V -> Z.
(** Whether a stored value is [null] or [undefined]. *)
Variable nullish : V -> bool.

(** Modelled from the spec: the declarations of [Node], [Branch] and [Leaf]
    in the current types.ts are not among the sources.  A branch holds its
    child map, an access time, an aggregate size and an aggregate leaf
    count; a leaf holds a value, an access time and a size.  The code reads
    them as [node[0]] to [node[3]], and util.ts tells a leaf from a branch by
    the length, 3 or 4. *)
Inductive Node : Type :=
| Leaf (value : V) (atime : Date) (size : Z)
| Branch (children : list (Primitive * Node)) (atime : Date) (size : Z) (count : Z).

(** util.ts *)
Definition isLeaf (node : Node) : bool :=
  match node with Leaf _ _ _ => true | Branch _ _ _ _ => false end.

Definition isBranch (node : Node) : bool :=
  match node with Leaf _ _ _ => false | Branch _ _ _ _ => true end.

(** [node[1]], [node[2]] and, on a branch, [node[3]] *)
Definition nodeAtime (node : Node) : Date :=
  match node with Leaf _ a _ => a | Branch _ a _ _ => a end.

Definition nodeSize (node : Node) : Z :=
  match node with Leaf _ _ s => s | Branch _ _ s _ => s end.

Definition nodeCount (node : Node) : Z :=
  match node with Leaf _ _ _ => 1 | Branch _ _ _ c => c end.

(** [node[1] = date] *)
Definition setAtime (node : Node) (date : Date) : Node :=
  match node with
  | Leaf v _ s => Leaf v date s
  | Branch m _ s c => Branch m date s c
  end.

(** *** CachePartial.ts: traversal *)

Fixpoint getImpl (node : Node) (key : list Primitive) (updateAccessTime : bool)
    (now : Date) : Completion (option Node) * Node :=
  let node := if updateAccessTime then setAtime node now else node in
  match key with
  | [] => (Normal (Some node), node)
  | head :: tail =>
      match node with
      | Leaf _ _ _ => (Throw TypeError, node)
      | Branch children a s c =>
          match mapGet children head with
          | None => (Normal None, node)
          | Some child =>
              let (r, child') := getImpl child tail updateAccessTime now in
              (r, Branch (mapSet children head child') a s c)
          end
      end
  end.

(** [CachePartial.node] *)
Fixpoint node (n : Node) (key : list Primitive) : Completion (option Node) :=
  match key with
  | [] => Normal (Some n)
  | head :: tail =>
      match n with
      | Leaf _ _ _ => Throw TypeError
      | Branch children _ _ _ =>
          match mapGet children head with
          | None => Normal None
          | Some child => node child tail
          end
      end
  end.

(** *** MemCache.ts: insertion and deletion *)

Fixpoint insertImpl (branch : Node) (key : list Primitive) (value : V)
    (date : Date) (replace : bool)
  : Completion (option Z * Z * bool) * Node :=
  match key with
  | [] => (Normal (None, 0, false), branch)
  | head :: tail =>
      match branch with
      | Leaf _ _ _ => (Throw TypeError, branch)
      | Branch children atime size count =>
          match tail with
          | [] =>
              let existing := mapGet children head in
              if negb replace && isSome existing
              then (Normal (None, 0, false), branch)
              else
                let sz := sizeof value in
                let diff :=
                  sz - match existing with Some e => nodeSize e | None => 0 end in
                let inserted := negb (isSome existing) in
                (Normal (Some sz, diff, inserted),
                 Branch (mapSet children head (Leaf value date sz)) date
                   (size + diff) (count + if inserted then 1 else 0))
          | _ :: _ =>
              let (child, children1) :=
                match mapGet children head with
                | Some c => (c, children)
                | None =>
                    let c := Branch [] date 0 0 in (c, mapSet children head c)
                end in
              match insertImpl child tail value date replace with
              | (Throw e, child') =>
                  (Throw e, Branch (mapSet children1 head child') atime size count)
              | (Normal (sz, diff, inserted), child') =>
                  (Normal (sz, diff, inserted),
                   Branch (mapSet children1 head child') date
                     (size + diff) (count + if inserted then 1 else 0))
              end
          end
      end
  end.

Fixpoint deleteImpl (branch : Node) (key : list Primitive)
  : Completion (option Node) * Node :=
  match key with
  | [] => (Normal None, branch)
  | head :: tail =>
      match branch with
      | Leaf _ _ _ => (Throw TypeError, branch)
      | Branch children atime size count =>
          match tail with
          | [] =>
              match mapGet children head with
              | None => (Normal None, branch)
              | Some entry =>
                  (Normal (Some entry),
                   Branch (mapDelete children head) atime
                     (size - nodeSize entry) (count - nodeCount entry))
              end
          | _ :: _ =>
              match mapGet children head with
              | None => (Normal None, branch)
              | Some child =>
                  match deleteImpl child tail with
                  | (Throw e, child') =>
                      (Throw e, Branch (mapSet children head child') atime size count)
                  | (Normal None, child') =>
                      (Normal None, Branch (mapSet children head child') atime size count)
                  | (Normal (Some deleted), child') =>
                      (Normal (Some deleted),
                       Branch (mapSet children head child') atime
                         (size - nodeSize deleted) (count - nodeCount deleted))
                  end
              end
          end
      end
  end.

(** *** MemCache.ts: the cache *)

Record MemCacheOptions : Type := {
  capacity : option Z;           (* already parsed by [byteSize] *)
  autoPrune : bool;              (* default [true] *)
  autoPruneInterval : option Z;
  pruneDepth : option nat        (* [None] is [Infinity] *)
}.

Record MemCache : Type := {
  options : MemCacheOptions;
  root : Node;
  lastPruneAt : Date
}.

Definition withRoot (c : MemCache) (r : Node) : MemCache :=
  {| options := options c; root := r; lastPruneAt := lastPruneAt c |}.

(** [get size() { return this.root[2] }] *)
Definition size (c : MemCache) : Z := nodeSize (root c).

(** *** CachePartial.ts: the view

    The field [cache] of a view refers to the owning cache; the write
    methods below take the owner as an argument instead. *)

Record CachePartial : Type := {
  partialPrefix : list Primitive;
  partialRoot : Node
}.

Definition CachePartial_get (p : CachePartial) (key : list Primitive)
    (updateAccessTime : bool) (now : Date) : Completion (option V) * Node :=
  let (r, root') := getImpl (partialRoot p) key updateAccessTime now in
  (match r with
   | Throw e => Throw e
   | Normal (Some (Leaf v _ _)) => Normal (Some v)
   | Normal _ => Normal None
   end, root').

Definition CachePartial_sizeof (p : CachePartial) (key : list Primitive)
  : Completion (option Z) :=
  match node (partialRoot p) (partialPrefix p ++ key) with
  | Throw e => Throw e
  | Normal None => Normal None
  | Normal (Some n) => Normal (Some (nodeSize n))
  end.

Definition CachePartial_atime (p : CachePartial) (key : list Primitive)
  : Completion (option Date) :=
  match node (partialRoot p) (partialPrefix p ++ key) with
  | Throw e => Throw e
  | Normal None => Normal None
  | Normal (Some n) => Normal (Some (nodeAtime n))
  end.

(** [get count() { return this.root[3] }]; the root of a view is a branch. *)
Definition CachePartial_count (p : CachePartial) : Z := nodeCount (partialRoot p).

(** [iterNode] inside [nodes()] *)
Fixpoint iterNode (nd : Node) (prefix : list Primitive)
  : list (list Primitive * Node) :=
  match nd with
  | Leaf _ _ _ => [(prefix, nd)]
  | Branch children _ _ _ =>
      flat_map (fun child => iterNode (snd child) (prefix ++ [fst child])) children
  end.

Definition CachePartial_nodes (p : CachePartial) : list (list Primitive * Node) :=
  iterNode (partialRoot p) [].

(** *** MemCache.ts: retrieval *)

(** [private rootPartial = new CachePartial(this, [], this.root)]; [this.root]
    is never reassigned, so the view's root is the cache's root throughout. *)
Definition rootPartial (c : MemCache) : CachePartial :=
  {| partialPrefix := []; partialRoot := root c |}.

Definition count (c : MemCache) : Z := CachePartial_count (rootPartial c).

Definition get (c : MemCache) (key : list Primitive) (updateAccessTime : bool)
    (now : Date) : Completion (option V) * MemCache :=
  let (r, root') := CachePartial_get (rootPartial c) key updateAccessTime now in
  (r, withRoot c root').

Definition MemCache_sizeof (c : MemCache) (key : list Primitive) :=
  CachePartial_sizeof (rootPartial c) key.

Definition atime (c : MemCache) (key : list Primitive) :=
  CachePartial_atime (rootPartial c) key.

Definition partial (c : MemCache) (key : list Primitive)
  : Completion (option CachePartial) :=
  match node (root c) key with
  | Throw e => Throw e
  | Normal None => Normal None
  | Normal (Some n) =>
      if isLeaf n then Normal None
      else Normal (Some {| partialPrefix := key; partialRoot := n |})
  end.

Definition entries (c : MemCache) : list (list Primitive * V) :=
  flat_map (fun kn => match snd kn with
                      | Leaf v _ _ => [(fst kn, v)]
                      | Branch _ _ _ _ => []
                      end)
           (CachePartial_nodes (rootPartial c)).

Definition keys (c : MemCache) : list (list Primitive) := map fst (entries c).

(** *** MemCache.ts: pruning *)

(** The first slot of a node as [flatten] reads it through the cast
    [node as Leaf<V>]: the value of a leaf, the child map of a branch. *)
Inductive Slot : Type :=
| SlotValue (v : V)
| SlotMap (m : list (Primitive * Node)).

Definition slot0 (nd : Node) : Slot :=
  match nd with Leaf v _ _ => SlotValue v | Branch m _ _ _ => SlotMap m end.

(** An element of [flattened]: key or key prefix, first slot, access time, size. *)
Definition Unit : Type := (list Primitive * Slot * Date * Z)%type.

Definition unitKey (u : Unit) : list Primitive := fst (fst (fst u)).
Definition unitAtime (u : Unit) : Date := snd (fst u).
Definition unitSize (u : Unit) : Z := snd u.

(** [prefix.length >= pruneDepth] *)
Definition depthReached (pruneDepth : option nat) (prefix : list Primitive) : bool :=
  match pruneDepth with
  | None => false
  | Some d => Nat.leb d (List.length prefix)
  end.

Fixpoint flatten (pruneDepth : option nat) (nd : Node) (prefix : list Primitive)
  : list Unit :=
  if depthReached pruneDepth prefix || isLeaf nd
  then [(prefix, slot0 nd, nodeAtime nd, nodeSize nd)]
  else
    match nd with
    | Branch children _ _ _ =>
        flat_map (fun child => flatten pruneDepth (snd child) (prefix ++ [fst child]))
                 children
    | Leaf _ _ _ => []
    end.

(** [flattened.sort((a, b) => a[2].getTime() - b[2].getTime())]: the sort of
    an array is stable; a stable sort is determined by its key, and here it
    is an insertion sort. *)
Fixpoint insertByAtime (u : Unit) (l : list Unit) : list Unit :=
  match l with
  | [] => [u]
  | x :: l' =>
      if unitAtime u <=? unitAtime x then u :: l else x :: insertByAtime u l'
  end.

Definition sortByAtime (l : list Unit) : list Unit :=
  fold_right insertByAtime [] l.

(** The loop of [prune]; its value is the array [pruned] as a registered
    callback receives it. *)
Fixpoint pruneLoop (cap : Z) (rt : Node) (flattened : list Unit)
  : Completion (list (list Primitive * Slot * Z)) * Node :=
  match flattened with
  | [] => (Normal [], rt)
  | (key, value, _, sz) :: rest =>
      if nodeSize rt <=? cap then (Normal [], rt)
      else
        match deleteImpl rt key with
        | (Throw e, rt') => (Throw e, rt')
        | (Normal _, rt') =>
            match pruneLoop cap rt' rest with
            | (Throw e, rt'') => (Throw e, rt'')
            | (Normal pruned, rt'') => (Normal ((key, value, sz) :: pruned), rt'')
            end
        end
  end.

Definition prune (c : MemCache) (now : Date)
  : Completion (list (list Primitive * Slot * Z)) * MemCache :=
  let c := {| options := options c; root := root c; lastPruneAt := now |} in
  match capacity (options c) with
  | None => (Normal [], c)
  | Some cap =>
      if size c <=? cap then (Normal [], c)
      else
        let flattened := sortByAtime (flatten (pruneDepth (options c)) (root c) []) in
        let (r, root') := pruneLoop cap (root c) flattened in
        (r, withRoot c root')
  end.

Definition shouldAutoPrune (c : MemCache) (now : Date) : bool :=
  if negb (autoPrune (options c)) then false
  else
    match capacity (options c) with
    | None => false
    | Some cap =>
        if size c <=? cap then false
        else
          match autoPruneInterval (options c) with
          | None => true
          | Some interval => interval <=? now - lastPruneAt c
          end
    end.

(** [if (this.shouldAutoPrune()) { this.prune() }] *)
Definition autoPruneStep (c : MemCache) (now : Date) : Completion unit * MemCache :=
  if shouldAutoPrune c now
  then match prune c now with
       | (Throw e, c') => (Throw e, c')
       | (Normal _, c') => (Normal tt, c')
       end
  else (Normal tt, c).

(** *** MemCache.ts: the mutating methods *)

(** [try { ... return size } finally { if (shouldAutoPrune()) prune() }] *)
Definition insertOne (c : MemCache) (key : list Primitive) (value : V)
    (replace : bool) (now : Date) : Completion (option Z) * MemCache :=
  let (r, root') := insertImpl (root c) key value now replace in
  let (f, c') := autoPruneStep (withRoot c root') now in
  (match f, r with
   | Throw e, _ => Throw e
   | Normal _, Throw e => Throw e
   | Normal _, Normal (sz, _, _) => Normal sz
   end, c').

(** The [for] loop of [insertMany]. *)
Fixpoint insertManyLoop (rt : Node) (values : list (list Primitive * V))
    (replace : bool) (now : Date) (totalSize : Z) : Completion Z * Node :=
  match values with
  | [] => (Normal totalSize, rt)
  | (key, value) :: rest =>
      match insertImpl rt key value now replace with
      | (Throw e, rt') => (Throw e, rt')
      | (Normal (sz, _, _), rt') =>
          insertManyLoop rt' rest replace now
            (totalSize + match sz with Some s => s | None => 0 end)
      end
  end.

Definition insertMany (c : MemCache) (values : list (list Primitive * V))
    (replace : bool) (now : Date) : Completion Z * MemCache :=
  match insertManyLoop (root c) values replace now 0 with
  | (Throw e, root') => (Throw e, withRoot c root')
  | (Normal totalSize, root') =>
      match autoPruneStep (withRoot c root') now with
      | (Throw e, c') => (Throw e, c')
      | (Normal _, c') => (Normal totalSize, c')
      end
  end.

(** [existing == null] on the result of [get] *)
Definition isNull (o : option V) : bool :=
  match o with None => true | Some v => nullish v end.

Definition ensure (c : MemCache) (key : list Primitive) (value : V) (now : Date)
  : Completion V * MemCache :=
  match get c key false now with
  | (Throw e, c1) => (Throw e, c1)
  | (Normal existing, c1) =>
      if isNull existing
      then match insertOne c1 key value false now with
           | (Throw e, c2) => (Throw e, c2)
           | (Normal _, c2) => (Normal value, c2)
           end
      else (Normal (match existing with Some v => v | None => value end), c1)
  end.

Definition deleteOne (c : MemCache) (key : list Primitive)
  : Completion unit * MemCache :=
  match deleteImpl (root c) key with
  | (Throw e, root') => (Throw e, withRoot c root')
  | (Normal _, root') => (Normal tt, withRoot c root')
  end.

(** [keys.map(it => this.deleteOne(it))] *)
Fixpoint deleteMany (c : MemCache) (ks : list (list Primitive))
  : Completion unit * MemCache :=
  match ks with
  | [] => (Normal tt, c)
  | k :: rest =>
      match deleteOne c k with
      | (Throw e, c') => (Throw e, c')
      | (Normal _, c') => deleteMany c' rest
      end
  end.

(** [this.root[0].clear(); this.root[2] = 0]; the root is a branch from
    construction on. *)
Definition clear (c : MemCache) : MemCache :=
  withRoot c match root c with
             | Branch _ a _ cnt => Branch [] a 0 cnt
             | Leaf v a s => Leaf v a s
             end.

(** The constructor: field initialisers, then [insertMany(options.values ?? [])]. *)
Definition emptyCache (opts : MemCacheOptions) (now : Date) : MemCache :=
  {| options := opts; root := Branch [] now 0 0; lastPruneAt := now |}.

Definition newMemCache (opts : MemCacheOptions) (values : list (list Primitive * V))
    (now : Date) : Completion Z * MemCache :=
  insertMany (emptyCache opts now) values true now.

(** *** CachePartial.ts: the write methods, forwarded to the owning cache *)

Definition CachePartial_insertOne (cache : MemCache) (p : CachePartial)
    (key : list Primitive) (value : V) (replace : bool) (now : Date) :=
  insertOne cache (partialPrefix p ++ key) value replace now.

Definition CachePartial_insertMany (cache : MemCache) (p : CachePartial)
    (values : list (list Primitive * V)) (replace : bool) (now : Date) :=
  insertMany cache values replace now.

Definition CachePartial_ensure (cache : MemCache) (p : CachePartial)
    (key : list Primitive) (value : V) (now : Date) :=
  ensure cache (partialPrefix p ++ key) value now.

Definition CachePartial_deleteOne (cache : MemCache) (p : CachePartial)
    (key : list Primitive) :=
  deleteOne cache (partialPrefix p ++ key).

Fixpoint CachePartial_deleteMany (cache : MemCache) (p : CachePartial)
    (ks : list (list Primitive)) : Completion unit * MemCache :=
  match ks with
  | [] => (Normal tt, cache)
  | k :: rest =>
      match CachePartial_deleteOne cache p k with
      | (Throw e, c') => (Throw e, c')
      | (Normal _, c') => CachePartial_deleteMany c' p rest
      end
  end.

(** ** Notions used to state the properties *)

(** Number of leaves below a node. *)
Fixpoint leafCount (nd : Node) : Z :=
  match nd with
  | Leaf _ _ _ => 1
  | Branch children _ _ _ => sumOver leafCount children
  end.

(** Every branch carries the sum of its children's sizes, and no aggregate
    size is negative. *)
Fixpoint sizeInvariant (nd : Node) : bool :=
  match nd with
  | Leaf _ _ _ => true
  | Branch children _ sz _ =>
      (sz =? sumOver nodeSize children) && (0 <=? sz)
      && forallb (fun child => sizeInvariant (snd child)) children
  end.

(** Every branch carries the number of leaves below it. *)
Fixpoint countInvariant (nd : Node) : bool :=
  match nd with
  | Leaf _ _ _ => true
  | Branch children _ _ cnt =>
      (cnt =? sumOver leafCount children)
      && forallb (fun child => countInvariant (snd child)) children
  end.

(** The representation invariant the mutating methods maintain: child maps
    have distinct keys, leaf sizes are not negative, and a branch carries the
    sum of its children's sizes. *)
Fixpoint wellFormed (nd : Node) : bool :=
  match nd with
  | Leaf _ _ sz => 0 <=? sz
  | Branch children _ sz _ =>
      distinctKeys (mapKeys children) && (sz =? sumOver nodeSize children)
      && forallb (fun child => wellFormed (snd child)) children
  end.

(** The size difference an insertion reports; none when it throws. *)
Definition diffOf (r : Completion (option Z * Z * bool)) : Z :=
  match r with Normal (_, d, _) => d | Throw _ => 0 end.

(** The size of the subtree a deletion reports; none when nothing was deleted. *)
Definition removedSize (r : Completion (option Node)) : Z :=
  match r with Normal (Some d) => nodeSize d | _ => 0 end.

(** [p] is a prefix of [key] (the whole key included). *)
Fixpoint isPrefix (p key : list Primitive) : bool :=
  match p, key with
  | [], _ => true
  | _ :: _, [] => false
  | a :: p', b :: key' => sameValueZero a b && isPrefix p' key'
  end.

(** Following [key] from [nd] arrives at a leaf while components remain:
    some proper prefix of [key] addresses a leaf. *)
Fixpoint crossesLeaf (nd : Node) (key : list Primitive) : bool :=
  match key with
  | [] => false
  | head :: tail =>
      match nd with
      | Leaf _ _ _ => true
      | Branch children _ _ _ =>
          match mapGet children head with
          | None => false
          | Some child => crossesLeaf child tail
          end
      end
  end.

(** A node with all access times set to zero: what is stored, without when
    it was touched. *)
Fixpoint eraseAtime (nd : Node) : Node :=
  match nd with
  | Leaf v _ sz => Leaf v 0 sz
  | Branch children _ sz cnt =>
      Branch (map (fun child => (fst child, eraseAtime (snd child))) children) 0 sz cnt
  end.

(** *** The eviction loop on sizes alone

    [evictPlan cap sz units] is the list of units the loop of [prune] goes
    through when the size is [sz] and every deletion frees the size its unit
    records: it stops at the first unit it meets with the size at or below
    [cap]. *)

Fixpoint evictPlan (cap sz : Z) (units : list Unit) : list Unit :=
  match units with
  | [] => []
  | u :: rest =>
      if sz <=? cap then [] else u :: evictPlan cap (sz - unitSize u) rest
  end.

Definition unitSlot (u : Unit) : Slot := snd (fst (fst u)).

(** What [pruned.push([key, value, size])] records of a unit. *)
Definition prunedEntry (u : Unit) : list Primitive * Slot * Z :=
  (unitKey u, unitSlot u, unitSize u).

Fixpoint sumSizes (units : list Unit) : Z :=
  match units with
  | [] => 0
  | u :: rest => unitSize u + sumSizes rest
  end.

(** Neither key is a prefix of the other. *)
Definition apart (p q : list Primitive) : Prop :=
  isPrefix p q = false /\ isPrefix q p = false.

(** The key of a unit addresses a node of the size the unit records;
    the root is no unit. *)
Definition resolves (rt : Node) (u : Unit) : Prop :=
  unitKey u <> []
  /\ exists x, node rt (unitKey u) = Normal (Some x) /\ nodeSize x = unitSize u.

(** No unit lies inside another. *)
Definition pairwiseApart (units : list Unit) : Prop :=
  ForallOrdPairs (fun u u' => apart (unitKey u) (unitKey u')) units.

(** The order of the sort: least recently touched first. *)
Definition olderOrEqual (u u' : Unit) : Prop := unitAtime u <= unitAtime u'.

(** The units that carry access time [t], in their order. *)
Definition touchedAt (t : Date) (units : list Unit) : list Unit :=
  filter (fun u => unitAtime u =? t) units.

(** The units [prune] evicts from a cache over its capacity [cap]. *)
Definition evictedUnits (c : MemCache) (cap : Z) : list Unit :=
  evictPlan cap (size c) (sortByAtime (flatten (pruneDepth (options c)) (root c) [])).

(** *** CachePartial.ts: the entries of a view *)

(** [CachePartial.entries]: key, value and size of every leaf below the
    root of the view. *)
Definition CachePartial_entries (p : CachePartial)
  : list (list Primitive * V * Z) :=
  flat_map (fun kn => match snd kn with
                      | Leaf v _ sz => [(fst kn, v, sz)]
                      | Branch _ _ _ _ => []
                      end)
           (CachePartial_nodes p).

(** The sizes the entries of a view record, added up. *)
Definition entriesSize (es : list (list Primitive * V * Z)) : Z :=
  fold_right (fun entry acc => snd entry + acc) 0 es.

(** What [flatten] makes of a node it takes as a unit. *)
Definition unitOf (kn : list Primitive * Node) : Unit :=
  (fst kn, slot0 (snd kn), nodeAtime (snd kn), nodeSize (snd kn)).

(** The size of the node [key] addresses, zero when it addresses none:
    [existing?.[2] ?? 0] at the end of the path. *)
Definition sizeAt (b : Node) (key : list Primitive) : Z :=
  match node b key with Normal (Some n) => nodeSize n | _ => 0 end.

(** Whether [key] addresses no node: [existing == null] at the end of the
    path. *)
Definition nothingAt (b : Node) (key : list Primitive) : bool :=
  match node b key with Normal (Some _) => false | _ => true end.

(** The sizes of the values of a batch, added up. *)
Definition batchSize (values : list (list Primitive * V)) : Z :=
  fold_right (fun entry acc => sizeof (snd entry) + acc) 0 values.

(** *** Sequences of public calls

    A caller may catch an exception and go on; [step] keeps the state a
    call leaves behind, however it completes. *)

Inductive Op : Type :=
| OpGet (key : list Primitive) (updateAccessTime : bool)
| OpInsertOne (key : list Primitive) (value : V) (replace : bool)
| OpInsertMany (values : list (list Primitive * V)) (replace : bool)
| OpEnsure (key : list Primitive) (value : V)
| OpDeleteOne (key : list Primitive)
| OpDeleteMany (ks : list (list Primitive))
| OpClear
| OpPrune.

Definition step (c : MemCache) (now : Date) (op : Op) : MemCache :=
  match op with
  | OpGet key u => snd (get c key u now)
  | OpInsertOne key value replace => snd (insertOne c key value replace now)
  | OpInsertMany values replace => snd (insertMany c values replace now)
  | OpEnsure key value => snd (ensure c key value now)
  | OpDeleteOne key => snd (deleteOne c key)
  | OpDeleteMany ks => snd (deleteMany c ks)
  | OpClear => clear c
  | OpPrune => snd (prune c now)
  end.

(** Each call comes with the instant at which it is made. *)
Fixpoint run (c : MemCache) (calls : list (Date * Op)) : MemCache :=
  match calls with
  | [] => c
  | (now, op) :: rest => run (step c now op) rest
  end.

(** The cache as an insertion leaves it, before the eviction check in the
    [finally] block of [insertOne]. *)
Definition afterInsert (c : MemCache) (key : list Primitive) (value : V)
    (replace : bool) (now : Date) : MemCache :=
  withRoot c (snd (insertImpl (root c) key value now replace)).

(** The states a freshly constructed cache can get into. *)
Definition reachable (c : MemCache) : Prop :=
  exists opts values t0 calls, c = run (snd (newMemCache opts values t0)) calls.

(** Every leaf below [nd] is exactly [n] levels down, child maps have
    distinct keys, and every branch carries the number of leaves below it. *)
Fixpoint countedAt (n : nat) (nd : Node) : bool :=
  match nd with
  | Leaf _ _ _ => match n with O => true | S _ => false end
  | Branch children _ _ cnt =>
      match n with
      | O => false
      | S m =>
          distinctKeys (mapKeys children) && (cnt =? sumOver leafCount children)
          && forallb (fun child => countedAt m (snd child)) children
      end
  end.

(** The keys of a batch all have [n] components. *)
Definition keysOfLength (n : nat) (values : list (list Primitive * V)) : bool :=
  forallb (fun entry => Nat.eqb (List.length (fst entry)) n) values.

(** The calls that write with keys of [n] components, as the type [K] of a
    cache fixes the length of its keys; reads and deletions take any key,
    and [clear] is left out. *)
Definition keyed (n : nat) (op : Op) : bool :=
  match op with
  | OpInsertOne key _ _ => Nat.eqb (List.length key) n
  | OpInsertMany values _ => keysOfLength n values
  | OpEnsure key _ => Nat.eqb (List.length key) n
  | OpClear => false
  | OpGet _ _ | OpDeleteOne _ | OpDeleteMany _ | OpPrune => true
  end.

(** The states a cache gets into when all its keys have [n] components
    and [clear] is never called. *)
Definition reachableKeyed (n : nat) (c : MemCache) : Prop :=
  exists opts values t0 calls,
    keysOfLength n values = true
    /\ forallb (fun call => keyed n (snd call)) calls = true
    /\ c = run (snd (newMemCache opts values t0)) calls.

(** Every leaf records the size the estimator gives for its value. *)
Fixpoint estimated (nd : Node) : bool :=
  match nd with
  | Leaf v _ sz => sz =? sizeof v
  | Branch children _ _ _ => forallb (fun child => estimated (snd child)) children
  end.




End Trie.

Arguments Node V : clear implicits.
Arguments MemCache V : clear implicits.
Arguments CachePartial V : clear implicits.
Arguments Slot V : clear implicits.
Arguments Unit V : clear implicits.
Arguments Op V : clear implicits.

(** ** Instances used in examples *)

(** The estimator as the repository's tests mock it: a number weighs its
    own value. *)
Definition mockSizeof (obj : Z) : Z := obj.

(** [object-sizeof] on a string: two bytes per character. *)
Definition stringSizeof (s : string) : Z := 2 * Z.of_nat (String.length s).

(** Neither numbers nor strings are [null] or [undefined]. *)
Definition neverNullish {A : Type} (_ : A) : bool := false.

(** The options left out: no capacity, automatic pruning without an
    interval, pruning leaf by leaf. *)
Definition defaultOptions : MemCacheOptions :=
  {| capacity := None; autoPrune := true; autoPruneInterval := None;
     pruneDepth := None |}.

(** [{capacity: 100}], as in the test of automatic pruning. *)
Definition cappedOptions : MemCacheOptions :=
  {| capacity := Some 100; autoPrune := true; autoPruneInterval := None;
     pruneDepth := None |}.

(** [{capacity: 100, autoPrune: false, pruneDepth}], as in the tests of [prune]. *)
Definition manualOptions (depth : option nat) : MemCacheOptions :=
  {| capacity := Some 100; autoPrune := false; autoPruneInterval := None;
     pruneDepth := depth |}.

(** [{capacity: 100, autoPruneInterval: 1000}], as in the test of the interval. *)
Definition intervalOptions : MemCacheOptions :=
  {| capacity := Some 100; autoPrune := true; autoPruneInterval := Some 1000;
     pruneDepth := None |}.

(** A cache of numbers under the mocked estimator, after a sequence of calls. *)
Definition numberCache (opts : MemCacheOptions) (t0 : Date)
    (calls : list (Date * Op Z)) : MemCache Z :=
  run mockSizeof neverNullish (emptyCache opts t0) calls.

(** The scenario of the pruning tests: five entries of 30 bytes under two
    top-level keys, inserted at five instants. *)
Definition pruneScenario (depth : option nat) (t0 t1 t2 t3 t4 : Date) : MemCache Z :=
  numberCache (manualOptions depth) t0
    [(t0, OpInsertOne [PNumber 1; PNumber 1] 30 true);
     (t1, OpInsertOne [PNumber 2; PNumber 1] 30 true);
     (t2, OpInsertOne [PNumber 2; PNumber 2] 30 true);
     (t3, OpInsertOne [PNumber 1; PNumber 2] 30 true);
     (t4, OpInsertOne [PNumber 1; PNumber 3] 30 true)].

(** Two entries under ["key1"], as in the tests of sizes and partial views. *)
Definition nestedCache : MemCache Z :=
  numberCache defaultOptions 0
    [(0, OpInsertOne [PString "key1"; PNumber 1] 40 true);
     (0, OpInsertOne [PString "key1"; PNumber 2] 50 true)].

(** One entry, then [clear()]. *)
Definition clearedCache : MemCache Z :=
  numberCache defaultOptions 0
    [(1, OpInsertOne [PString "key1"] 40 true); (2, OpClear)].

(** Over capacity while the pruning interval has not elapsed: two entries
    of 60 bytes inserted at the instant of construction. *)
Definition overdueCache : MemCache Z :=
  numberCache intervalOptions 0
    [(0, OpInsertOne [PString "a"] 60 true);
     (0, OpInsertOne [PString "b"] 60 true)].

(** A single entry of 150 bytes under a capacity of 100 with
    [pruneDepth: 0] and automatic pruning off. *)
Definition depthZeroCache : MemCache Z :=
  numberCache (manualOptions (Some 0%nat)) 0
    [(0, OpInsertOne [PString "a"] 150 true)].





(** The initial values and the calls of a cache of strings under the
    estimator of strings. *)
Definition textValues : list (list Primitive * string) :=
  [([PString "key1"; PString "subkey1"], "value1.1"%string);
   ([PString "key1"; PString "subkey2"], "value1.2"%string);
   ([PString "key2"; PString "subkey1"], "value2.1"%string)].

Definition textCalls : list (Date * Op string) :=
  [(1, OpGet [PString "key1"; PString "subkey2"] true);
   (2, OpInsertOne [PString "key2"; PString "subkey2"] "value2.2"%string true)].

Definition textCache : MemCache string :=
  run stringSizeof neverNullish
    (snd (newMemCache stringSizeof cappedOptions textValues 0)) textCalls.

(** The view [partial(["key1"])] of [textCache]. *)
Definition textView : CachePartial string :=
  {| partialPrefix := [PString "key1"];
     partialRoot := match node (root textCache) [PString "key1"] with
                    | Normal (Some n) => n
                    | _ => root textCache
                    end |}.

(** A cache of strings over its capacity of 100 bytes, automatic pruning
    off: three entries of 16 bytes from the start, one of 80 bytes inserted
    at instant 1, and a read of the first entry at instant 2. *)
Definition crowdedCache : MemCache string :=
  run stringSizeof neverNullish
    (snd (newMemCache stringSizeof (manualOptions None) textValues 0))
    [(1, OpInsertOne [PString "key2"; PString "subkey2"]
           "0123456789012345678901234567890123456789"%string true);
     (2, OpGet [PString "key1"; PString "subkey1"] true)].

(** The view [partial(["key1"])] of [nestedCache]. *)
Definition key1View : CachePartial Z :=
  {| partialPrefix := [PString "key1"];
     partialRoot := Branch [(PNumber 1, Leaf 40 0 40); (PNumber 2, Leaf 50 0 50)] 0 90 2 |}.

(** ** Facts about JavaScript maps *)

Lemma sameValueZero_eq (a b : Primitive) : sameValueZero a b = true <-> a = b.
Proof.
  destruct a, b; simpl; split; intros H; try discriminate.
  - apply String.eqb_eq in H; now subst.
  - inversion H; apply String.eqb_refl.
  - apply Z.eqb_eq in H; now subst.
  - inversion H; apply Z.eqb_refl.
  - apply Bool.eqb_prop in H; now subst.
  - inversion H; apply Bool.eqb_reflx.
Qed.

Lemma sameValueZero_refl (a : Primitive) : sameValueZero a a = true.
Proof. now apply sameValueZero_eq. Qed.

Lemma sameValueZero_neq (a b : Primitive) : sameValueZero a b = false <-> a <> b.
Proof.
  split.
  - intros H E. subst. rewrite sameValueZero_refl in H. discriminate.
  - intros H. destruct (sameValueZero a b) eqn:E; [|reflexivity].
    apply sameValueZero_eq in E. contradiction.
Qed.

Lemma sameValueZero_sym (a b : Primitive) : sameValueZero a b = sameValueZero b a.
Proof.
  destruct (sameValueZero b a) eqn:E.
  - apply sameValueZero_eq in E. subst. apply sameValueZero_refl.
  - apply sameValueZero_neq in E. apply sameValueZero_neq. congruence.
Qed.

Ltac key_cases a b :=
  let E := fresh "Ekey" in
  destruct (sameValueZero a b) eqn:E;
  [apply sameValueZero_eq in E; subst; rewrite ?sameValueZero_refl in *
  |idtac].

Section JsMapFacts.
Context {A : Type}.
Implicit Types (m : JsMap A) (k : Primitive) (v : A).

Lemma mapGet_mapSet_same m k v : mapGet (mapSet m k v) k = Some v.
Proof.
  induction m as [|[k' v'] m IH]; simpl.
  - now rewrite sameValueZero_refl.
  - destruct (sameValueZero k k') eqn:E; simpl; rewrite E; auto.
Qed.

Lemma mapGet_mapSet_other m k k' v :
  sameValueZero k' k = false -> mapGet (mapSet m k v) k' = mapGet m k'.
Proof.
  intros N. induction m as [|[k0 v0] m IH]; simpl.
  - now rewrite N.
  - key_cases k k0; simpl.
    + now rewrite N.
    + now rewrite IH.
Qed.

Lemma mapSet_same m k v : mapGet m k = Some v -> mapSet m k v = m.
Proof.
  induction m as [|[k0 v0] m IH]; simpl; [discriminate|].
  destruct (sameValueZero k k0); intros H.
  - now inversion H.
  - now rewrite IH.
Qed.

Lemma mapSet_mapSet m k v w : mapSet (mapSet m k v) k w = mapSet m k w.
Proof.
  induction m as [|[k0 v0] m IH]; simpl.
  - now rewrite sameValueZero_refl.
  - destruct (sameValueZero k k0) eqn:E; simpl; rewrite E; congruence.
Qed.

Lemma mapGet_mapDelete_same m k : mapGet (mapDelete m k) k = None.
Proof.
  induction m as [|[k0 v0] m IH]; simpl; auto.
  destruct (sameValueZero k k0) eqn:E; simpl; auto. now rewrite E.
Qed.

Lemma mapGet_mapDelete_other m k k' :
  sameValueZero k' k = false -> mapGet (mapDelete m k) k' = mapGet m k'.
Proof.
  intros N. induction m as [|[k0 v0] m IH]; simpl; auto.
  key_cases k k0; simpl.
  - now rewrite N.
  - now rewrite IH.
Qed.

Lemma mapGet_In m k v : mapGet m k = Some v -> exists k', In (k', v) m.
Proof.
  induction m as [|[k0 v0] m IH]; simpl; [discriminate|].
  destruct (sameValueZero k k0); intros H.
  - inversion H; subst. eauto.
  - destruct (IH H) as [k' I]. eauto.
Qed.

Lemma mapGet_None_keys m k : mapGet m k = None <-> ~ In k (mapKeys m).
Proof.
  induction m as [|[k0 v0] m IH]; simpl; [tauto|].
  key_cases k k0.
  - split; [discriminate|]. intros N. exfalso. auto.
  - apply sameValueZero_neq in Ekey. rewrite IH. split; [|tauto].
    intros N [E|I]; [congruence|auto].
Qed.

Lemma mapKeys_mapSet_present m k v :
  mapGet m k <> None -> mapKeys (mapSet m k v) = mapKeys m.
Proof.
  induction m as [|[k0 v0] m IH]; simpl; [congruence|].
  destruct (sameValueZero k k0); simpl; intros H; [reflexivity|].
  now rewrite IH.
Qed.

Lemma mapKeys_mapSet_absent m k v :
  mapGet m k = None -> mapKeys (mapSet m k v) = mapKeys m ++ [k].
Proof.
  induction m as [|[k0 v0] m IH]; simpl; [reflexivity|].
  destruct (sameValueZero k k0); simpl; intros H; [discriminate|].
  now rewrite IH.
Qed.

Lemma NoDup_mapSet m k v : NoDup (mapKeys m) -> NoDup (mapKeys (mapSet m k v)).
Proof.
  intros N. destruct (mapGet m k) eqn:G.
  - rewrite mapKeys_mapSet_present; [assumption|congruence].
  - rewrite mapKeys_mapSet_absent by assumption.
    apply mapGet_None_keys in G.
    apply NoDup_app; [assumption|repeat constructor; simpl; tauto|].
    intros x I [E|[]]. now subst.
Qed.

Lemma In_mapDelete m k e :
  In e (mapDelete m k) <-> In e m /\ sameValueZero k (fst e) = false.
Proof.
  unfold mapDelete. rewrite filter_In, negb_true_iff. tauto.
Qed.

Lemma NoDup_mapDelete m k : NoDup (mapKeys m) -> NoDup (mapKeys (mapDelete m k)).
Proof.
  induction m as [|[k0 v0] m IH]; simpl; [auto|].
  intros N. inversion N as [|? ? NI N']; subst.
  destruct (sameValueZero k k0); simpl; auto.
  constructor; auto.
  intros I. apply NI. unfold mapKeys in *. apply in_map_iff in I.
  destruct I as [e [E I]]. apply In_mapDelete in I. apply in_map_iff.
  exists e. tauto.
Qed.

Lemma mapDelete_absent m k : mapGet m k = None -> mapDelete m k = m.
Proof.
  induction m as [|[k0 v0] m IH]; simpl; [reflexivity|].
  destruct (sameValueZero k k0); simpl; [discriminate|].
  intros H. now rewrite IH.
Qed.

Lemma Forall_mapSet (P : Primitive * A -> Prop) m k v :
  Forall P m -> (forall k', P (k', v)) -> Forall P (mapSet m k v).
Proof.
  intros F Pv. induction m as [|[k0 v0] m IH]; simpl.
  - constructor; auto.
  - inversion F; subst. destruct (sameValueZero k k0); constructor; auto.
Qed.

Lemma Forall_mapDelete (P : Primitive * A -> Prop) m k :
  Forall P m -> Forall P (mapDelete m k).
Proof.
  intros F. apply Forall_forall. intros e I. apply In_mapDelete in I.
  rewrite Forall_forall in F. apply F. tauto.
Qed.

Lemma Forall_mapGet (P : Primitive * A -> Prop) m k v :
  Forall P m -> mapGet m k = Some v -> exists k', P (k', v).
Proof.
  intros F G. apply mapGet_In in G. destruct G as [k' I].
  rewrite Forall_forall in F. eauto.
Qed.

Lemma sumOver_mapSet f m k v :
  sumOver f (mapSet m k v) = sumOver f m - valueAt f (mapGet m k) + f v.
Proof.
  induction m as [|[k0 v0] m IH]; simpl.
  - lia.
  - destruct (sameValueZero k k0); simpl; [lia|]. fold (sumOver f) in *. rewrite IH. lia.
Qed.

Lemma distinctKeys_NoDup (l : list Primitive) : distinctKeys l = true <-> NoDup l.
Proof.
  induction l as [|k l IH]; simpl.
  - split; [constructor|reflexivity].
  - rewrite andb_true_iff, negb_true_iff, IH. split.
    + intros [E N]. constructor; [|assumption].
      intros I. assert (existsb (sameValueZero k) l = true); [|congruence].
      apply existsb_exists. exists k. split; [assumption|apply sameValueZero_refl].
    + intros N. inversion N as [|? ? NI N']; subst. split; [|assumption].
      destruct (existsb (sameValueZero k) l) eqn:E; [|reflexivity].
      apply existsb_exists in E. destruct E as [x [I E]].
      apply sameValueZero_eq in E. subst. contradiction.
Qed.

Lemma sumOver_mapDelete f m k :
  NoDup (mapKeys m) ->
  sumOver f (mapDelete m k) = sumOver f m - valueAt f (mapGet m k).
Proof.
  induction m as [|[k0 v0] m IH]; simpl; [lia|].
  intros N. inversion N as [|? ? NI N']; subst.
  key_cases k k0; simpl.
  - rewrite mapDelete_absent; [lia|]. now apply mapGet_None_keys.
  - rewrite IH by assumption. lia.
Qed.

Lemma sumOver_nonneg f m : Forall (fun e => 0 <= f (snd e)) m -> 0 <= sumOver f m.
Proof.
  induction 1 as [|[k v] m H F IH]; simpl in *; lia.
Qed.

Lemma sumOver_app f m1 m2 : sumOver f (m1 ++ m2) = sumOver f m1 + sumOver f m2.
Proof.
  induction m1 as [|[k v] m1 IH]; simpl; [reflexivity|]. rewrite IH. lia.
Qed.
End JsMapFacts.

(** ** The shape of nodes *)

Section NodeFacts.
Context {V : Type}.
Variable sizeof : V -> Z.
Implicit Types (nd b child : Node V) (key p t : list Primitive).
Implicit Types (cs : list (Primitive * Node V)) (h k : Primitive).

(** Induction over a node and, in a branch, over all its children. *)
Lemma Node_induct (P : Node V -> Prop) :
  (forall v a s, P (Leaf v a s)) ->
  (forall cs a s c, Forall (fun e => P (snd e)) cs -> P (Branch cs a s c)) ->
  forall nd, P nd.
Proof.
  intros HL HB.
  refine (fix IH nd : P nd :=
    match nd with
    | Leaf v a s => HL v a s
    | Branch cs a s c =>
        HB cs a s c
          ((fix go (l : list (Primitive * Node V)) : Forall (fun e => P (snd e)) l :=
              match l with
              | [] => Forall_nil _
              | e :: l' => Forall_cons e (IH (snd e)) (go l')
              end) cs)
    end).
Qed.

Lemma wellFormed_Branch cs a s c :
  wellFormed (Branch cs a s c) = true <->
  NoDup (mapKeys cs) /\ s = sumOver nodeSize cs
  /\ Forall (fun e => wellFormed (snd e) = true) cs.
Proof.
  simpl. rewrite !andb_true_iff, distinctKeys_NoDup, Z.eqb_eq, forallb_forall,
    Forall_forall. tauto.
Qed.

Lemma wellFormed_size_nonneg nd : wellFormed nd = true -> 0 <= nodeSize nd.
Proof.
  induction nd as [v a s|cs a s c IH] using Node_induct; intros W.
  - simpl in *. lia.
  - apply wellFormed_Branch in W. destruct W as [_ [E F]]. simpl. subst s.
    apply sumOver_nonneg. rewrite Forall_forall in *. intros e I. auto.
Qed.

Lemma wellFormed_sizeInvariant nd : wellFormed nd = true -> sizeInvariant nd = true.
Proof.
  induction nd as [v a s|cs a s c IH] using Node_induct; intros W; [reflexivity|].
  pose proof (wellFormed_size_nonneg _ W) as NN.
  apply wellFormed_Branch in W. destruct W as [_ [E F]]. simpl in *.
  rewrite !andb_true_iff, Z.eqb_eq, Z.leb_le, forallb_forall.
  repeat split; auto. rewrite Forall_forall in *. auto.
Qed.

Lemma wellFormed_child cs a s c k child :
  wellFormed (Branch cs a s c) = true -> mapGet cs k = Some child ->
  wellFormed child = true.
Proof.
  intros W G. apply wellFormed_Branch in W. destruct W as [_ [_ F]].
  destruct (Forall_mapGet _ _ _ _ F G) as [k' H]. exact H.
Qed.

Lemma wellFormed_setAtime nd (d : Date) : wellFormed (setAtime nd d) = wellFormed nd.
Proof. destruct nd; reflexivity. Qed.

Lemma nodeSize_setAtime nd (d : Date) : nodeSize (setAtime nd d) = nodeSize nd.
Proof. destruct nd; reflexivity. Qed.

(** Storing a well-formed child back under its key. *)
Lemma wellFormed_store cs a s c k child a' s' c' :
  wellFormed (Branch cs a s c) = true ->
  wellFormed child = true ->
  s' = s - valueAt nodeSize (mapGet cs k) + nodeSize child ->
  wellFormed (Branch (mapSet cs k child) a' s' c') = true.
Proof.
  intros W Wc E. apply wellFormed_Branch in W. destruct W as [N [S F]].
  apply wellFormed_Branch. split; [|split].
  - now apply NoDup_mapSet.
  - rewrite sumOver_mapSet. lia.
  - apply Forall_mapSet; auto.
Qed.

(** *** Unfolding the recursive functions one key component at a time *)

Lemma insertImpl_inner cs a s c h t (v : V) d r :
  t <> [] ->
  insertImpl sizeof (Branch cs a s c) (h :: t) v d r =
  let (child, children1) :=
    match mapGet cs h with
    | Some c0 => (c0, cs)
    | None => (Branch [] d 0 0, mapSet cs h (Branch [] d 0 0))
    end in
  match insertImpl sizeof child t v d r with
  | (Throw e, child') => (Throw e, Branch (mapSet children1 h child') a s c)
  | (Normal (sz, diff, inserted), child') =>
      (Normal (sz, diff, inserted),
       Branch (mapSet children1 h child') d (s + diff) (c + if inserted then 1 else 0))
  end.
Proof. destruct t; [congruence|reflexivity]. Qed.

Lemma deleteImpl_inner cs a s c h t :
  t <> [] ->
  deleteImpl (Branch cs a s c) (h :: t) =
  match mapGet cs h with
  | None => (Normal None, Branch cs a s c)
  | Some child =>
      match deleteImpl child t with
      | (Throw e, child') => (Throw e, Branch (mapSet cs h child') a s c)
      | (Normal None, child') => (Normal None, Branch (mapSet cs h child') a s c)
      | (Normal (Some deleted), child') =>
          (Normal (Some deleted),
           Branch (mapSet cs h child') a (s - nodeSize deleted) (c - nodeCount deleted))
      end
  end.
Proof. destruct t; [congruence|reflexivity]. Qed.

Section Preservation.
Hypothesis sizeof_nonneg : forall v, 0 <= sizeof v.

Lemma insertImpl_wellFormed key : forall b v d r,
  wellFormed b = true ->
  wellFormed (snd (insertImpl sizeof b key v d r)) = true
  /\ nodeSize (snd (insertImpl sizeof b key v d r))
     = nodeSize b + diffOf (fst (insertImpl sizeof b key v d r)).
Proof.
  induction key as [|h t IH]; intros b v d r W.
  - simpl. split; [assumption|lia].
  - destruct b as [v0 a0 s0|cs a s c]; [simpl; split; [assumption|lia]|].
    destruct t as [|h2 t2].
    + cbn [insertImpl]. destruct (negb r && isSome (mapGet cs h)); cbn [fst snd].
      * split; [assumption|simpl; lia].
      * split; [|unfold diffOf; simpl; lia].
        apply (wellFormed_store cs a s c h _ _ _ _ W).
        -- simpl. apply Z.leb_le, sizeof_nonneg.
        -- unfold valueAt. simpl. destruct (mapGet cs h); lia.
    + rewrite insertImpl_inner by discriminate.
      destruct (mapGet cs h) as [child|] eqn:G.
      * pose proof (wellFormed_child _ _ _ _ _ _ W G) as Wc.
        destruct (IH child v d r Wc) as [W' S'].
        destruct (insertImpl sizeof child (h2 :: t2) v d r) as [[[[sz diff] ins]|e] child'];
          cbn [fst snd diffOf nodeSize] in *; (split; [|lia]);
          (apply (wellFormed_store cs a s c h _ _ _ _ W W'); rewrite G; simpl; lia).
      * assert (Wf : wellFormed (Branch (V:=V) [] d 0 0) = true) by reflexivity.
        destruct (IH _ v d r Wf) as [W' S'].
        assert (W1 : wellFormed (Branch (mapSet cs h (Branch [] d 0 0)) a s c) = true).
        { apply (wellFormed_store cs a s c h _ _ _ _ W Wf). rewrite G. simpl. lia. }
        destruct (insertImpl sizeof (Branch [] d 0 0) (h2 :: t2) v d r)
          as [[[[sz diff] ins]|e] child'];
          cbn [fst snd diffOf nodeSize] in *; (split; [|lia]);
          (apply (wellFormed_store _ a s c h _ _ _ _ W1 W');
           rewrite mapGet_mapSet_same; simpl; lia).
Qed.

Lemma deleteImpl_wellFormed key : forall b,
  wellFormed b = true ->
  wellFormed (snd (deleteImpl b key)) = true
  /\ nodeSize (snd (deleteImpl b key)) = nodeSize b - removedSize (fst (deleteImpl b key)).
Proof.
  induction key as [|h t IH]; intros b W.
  - simpl. split; [assumption|lia].
  - destruct b as [v0 a0 s0|cs a s c]; [simpl; split; [assumption|lia]|].
    destruct t as [|h2 t2].
    + cbn [deleteImpl]. destruct (mapGet cs h) as [entry|] eqn:G; cbn [fst snd].
      * split; [|simpl; lia]. apply wellFormed_Branch in W. destruct W as [N [S F]].
        apply wellFormed_Branch. split; [|split].
        -- now apply NoDup_mapDelete.
        -- rewrite sumOver_mapDelete by assumption. rewrite G. simpl. lia.
        -- now apply Forall_mapDelete.
      * split; [assumption|simpl; lia].
    + rewrite deleteImpl_inner by discriminate.
      destruct (mapGet cs h) as [child|] eqn:G; [|simpl; split; [assumption|lia]].
      pose proof (wellFormed_child _ _ _ _ _ _ W G) as Wc.
      destruct (IH child Wc) as [W' S'].
      destruct (deleteImpl child (h2 :: t2)) as [[[deleted|]|e] child'];
        cbn [fst snd removedSize nodeSize] in *; (split; [|lia]);
        (apply (wellFormed_store cs a s c h _ _ _ _ W W'); rewrite G; simpl; lia).
Qed.

Lemma getImpl_wellFormed key : forall nd u now,
  wellFormed nd = true ->
  wellFormed (snd (getImpl nd key u now)) = true
  /\ nodeSize (snd (getImpl nd key u now)) = nodeSize nd.
Proof.
  induction key as [|h t IH]; intros nd u now W.
  - simpl. destruct u; simpl; rewrite ?wellFormed_setAtime, ?nodeSize_setAtime; auto.
  - cbn [getImpl].
    assert (W1 : wellFormed (if u then setAtime nd now else nd) = true).
    { destruct u; rewrite ?wellFormed_setAtime; assumption. }
    assert (S1 : nodeSize (if u then setAtime nd now else nd) = nodeSize nd).
    { destruct u; rewrite ?nodeSize_setAtime; reflexivity. }
    destruct (if u then setAtime nd now else nd) as [v0 a0 s0|cs a s c]; [auto|].
    destruct (mapGet cs h) as [child|] eqn:G; [|auto].
    pose proof (wellFormed_child _ _ _ _ _ _ W1 G) as Wc.
    destruct (IH child u now Wc) as [W' S'].
    destruct (getImpl child t u now) as [res child']. cbn [fst snd nodeSize] in *.
    split; [|assumption].
    apply (wellFormed_store cs a s c h _ _ _ _ W1 W'). rewrite G. simpl. lia.
Qed.

End Preservation.
End NodeFacts.

(** ** Looking a key up after a call *)

Section Lookup.
Context {V : Type}.
Variable sizeof : V -> Z.
Implicit Types (nd b child : Node V) (key p t : list Primitive).
Implicit Types (cs : list (Primitive * Node V)) (h k : Primitive).

Lemma touch_Branch (u : bool) cs a s c now :
  (if u then setAtime (Branch cs a s c) now else Branch cs a s c)
  = Branch cs (if u then now else a) s c.
Proof. destruct u; reflexivity. Qed.

Lemma touch_Leaf (u : bool) (v : V) a s now :
  (if u then setAtime (Leaf v a s) now else Leaf v a s)
  = Leaf v (if u then now else a) s.
Proof. destruct u; reflexivity. Qed.

Lemma getImpl_Branch cs a s c h t u now :
  getImpl (Branch cs a s c) (h :: t) u now =
  match mapGet cs h with
  | None => (Normal None, Branch cs (if u then now else a) s c)
  | Some child =>
      (fst (getImpl child t u now),
       Branch (mapSet cs h (snd (getImpl child t u now))) (if u then now else a) s c)
  end.
Proof.
  cbn [getImpl]. rewrite touch_Branch. destruct (mapGet cs h); [|reflexivity].
  destruct (getImpl n t u now); reflexivity.
Qed.

(** A read that does not touch leaves the trie as it is and returns what
    [node] finds. *)
Lemma getImpl_untouched key : forall nd now,
  getImpl nd key false now = (node nd key, nd).
Proof.
  induction key as [|h t IH]; intros nd now; [reflexivity|].
  destruct nd as [v a s|cs a s c]; [reflexivity|].
  rewrite getImpl_Branch. cbn [node]. destruct (mapGet cs h) as [child|] eqn:G;
    [|reflexivity].
  rewrite IH. cbn [fst snd]. now rewrite (mapSet_same _ _ _ G).
Qed.



(** After a deletion nothing is found under the deleted key. *)
Lemma deleteImpl_getImpl key : forall b u now,
  key <> [] -> crossesLeaf b key = false ->
  fst (getImpl (snd (deleteImpl b key)) key u now) = Normal None.
Proof.
  induction key as [|h t IH]; intros b u now NE X; [congruence|].
  destruct b as [v0 a0 s0|cs a s c]; [discriminate|].
  destruct t as [|h2 t2].
  - cbn [deleteImpl]. destruct (mapGet cs h) as [entry|] eqn:G; cbn [snd];
      rewrite getImpl_Branch.
    + now rewrite mapGet_mapDelete_same.
    + now rewrite G.
  - rewrite deleteImpl_inner by discriminate. cbn [crossesLeaf] in X.
    destruct (mapGet cs h) as [child|] eqn:G.
    + specialize (IH child u now ltac:(discriminate) X).
      destruct (deleteImpl child (h2 :: t2)) as [[[deleted|]|e] child'];
        cbn [snd] in *; rewrite getImpl_Branch, mapGet_mapSet_same; exact IH.
    + cbn [snd]. rewrite getImpl_Branch. now rewrite G.
Qed.

Lemma deleteImpl_no_throw key : forall b,
  crossesLeaf b key = false -> forall e, fst (deleteImpl b key) <> Throw e.
Proof.
  induction key as [|h t IH]; intros b X e; [discriminate|].
  destruct b as [v0 a0 s0|cs a s c]; [discriminate|].
  destruct t as [|h2 t2].
  - cbn [deleteImpl]. destruct (mapGet cs h); discriminate.
  - rewrite deleteImpl_inner by discriminate. cbn [crossesLeaf] in X.
    destruct (mapGet cs h) as [child|] eqn:G; [|discriminate].
    specialize (IH child X).
    destruct (deleteImpl child (h2 :: t2)) as [[[deleted|]|e'] child'];
      cbn [fst] in *; try discriminate.
    exfalso. now apply (IH e').
Qed.

(** *** What stays of a node when only access times change *)


Lemma map_erase_mapSet cs h child child' :
  mapGet cs h = Some child -> eraseAtime child' = eraseAtime child ->
  map (fun e => (fst e, eraseAtime (snd e))) (mapSet cs h child')
  = map (fun e => (fst e, eraseAtime (snd e))) cs.
Proof.
  intros G E. induction cs as [|[k0 v0] cs IH]; [discriminate|].
  cbn [mapGet mapSet] in *. destruct (sameValueZero h k0).
  - inversion G; subst. cbn [map fst snd]. now rewrite E.
  - cbn [map fst snd]. now rewrite IH.
Qed.

Lemma nodeSize_eraseAtime nd : nodeSize (eraseAtime nd) = nodeSize nd.
Proof. destruct nd; reflexivity. Qed.

Lemma nodeCount_eraseAtime nd : nodeCount (eraseAtime nd) = nodeCount nd.
Proof. destruct nd; reflexivity. Qed.



(** *** Access times after a call *)

Lemma node_Branch cs a s c h t :
  node (Branch cs a s c) (h :: t) =
  match mapGet cs h with
  | None => Normal None
  | Some child => node child t
  end.
Proof. reflexivity. Qed.

Lemma isPrefix_cons_same h p key :
  isPrefix (h :: p) (h :: key) = isPrefix p key.
Proof. cbn [isPrefix]. now rewrite sameValueZero_refl. Qed.






(** *** The shape of the node an operation leaves *)

Lemma isBranch_insertImpl b key (v : V) d r :
  isBranch (snd (insertImpl sizeof b key v d r)) = isBranch b.
Proof.
  destruct key as [|h t]; [reflexivity|].
  destruct b as [v0 a0 s0|cs a s cnt]; [reflexivity|].
  destruct t as [|h2 t2].
  - cbn [insertImpl]. destruct (negb r && isSome (mapGet cs h)); reflexivity.
  - rewrite insertImpl_inner by discriminate.
    destruct (mapGet cs h);
      match goal with
      | |- context [insertImpl sizeof ?b0 ?k0 v d r] =>
          destruct (insertImpl sizeof b0 k0 v d r) as [[[[sz diff] ins]|e] child']
      end; reflexivity.
Qed.

Lemma isBranch_deleteImpl b key : isBranch (snd (deleteImpl b key)) = isBranch b.
Proof.
  destruct key as [|h t]; [reflexivity|].
  destruct b as [v0 a0 s0|cs a s cnt]; [reflexivity|].
  destruct t as [|h2 t2].
  - cbn [deleteImpl]. destruct (mapGet cs h); reflexivity.
  - rewrite deleteImpl_inner by discriminate.
    destruct (mapGet cs h) as [child|]; [|reflexivity].
    destruct (deleteImpl child (h2 :: t2)) as [[[d|]|e] child']; reflexivity.
Qed.

Lemma isBranch_getImpl nd key u now :
  isBranch (snd (getImpl nd key u now)) = isBranch nd.
Proof.
  destruct nd as [v0 a0 s0|cs a s cnt].
  - destruct key; cbn [getImpl snd]; rewrite touch_Leaf; reflexivity.
  - destruct key as [|h t].
    + cbn [getImpl snd]. now rewrite touch_Branch.
    + rewrite getImpl_Branch. destruct (mapGet cs h); reflexivity.
Qed.

End Lookup.

(** ** What every reachable state satisfies *)

Section Reachable.
Context {V : Type}.
Variable sizeof : V -> Z.
Variable nullish : V -> bool.
Implicit Types (c : MemCache V) (rt : Node V) (key : list Primitive).

(** A property of the root that the four primitives keep is kept by every
    public method. *)
Section Kept.
Variable P : Node V -> Prop.
Hypothesis P_insertImpl : forall rt key v d r,
  P rt -> P (snd (insertImpl sizeof rt key v d r)).
Hypothesis P_deleteImpl : forall rt key, P rt -> P (snd (deleteImpl rt key)).
Hypothesis P_getImpl : forall rt key u now, P rt -> P (snd (getImpl rt key u now)).
Hypothesis P_clear : forall cs a s cnt, P (Branch cs a s cnt) -> P (Branch [] a 0 cnt).

Lemma pruneLoop_kept cap (units : list (Unit V)) : forall rt,
  P rt -> P (snd (pruneLoop cap rt units)).
Proof.
  induction units as [|[[[key value] at0] sz] units IH]; intros rt W; [assumption|].
  cbn [pruneLoop]. destruct (nodeSize rt <=? cap); [assumption|].
  pose proof (P_deleteImpl rt key W) as W'.
  destruct (deleteImpl rt key) as [[d|e] rt']; cbn [snd] in *; [|assumption].
  specialize (IH rt' W').
  destruct (pruneLoop cap rt' units) as [[pruned|e] rt'']; assumption.
Qed.

Lemma prune_kept c now : P (root c) -> P (root (snd (prune c now))).
Proof.
  intros W. unfold prune. cbn [options root].
  destruct (capacity (options c)) as [cap|]; [|assumption].
  destruct (size _ <=? cap); [assumption|]. cbn [root].
  pose proof (pruneLoop_kept cap
    (sortByAtime (flatten (pruneDepth (options c)) (root c) [])) (root c) W) as W'.
  destruct (pruneLoop cap (root c) _) as [r root']. assumption.
Qed.

Lemma autoPruneStep_kept c now : P (root c) -> P (root (snd (autoPruneStep c now))).
Proof.
  intros W. unfold autoPruneStep. destruct (shouldAutoPrune c now); [|assumption].
  pose proof (prune_kept c now W) as W'.
  destruct (prune c now) as [[r|e] c']; assumption.
Qed.

Lemma insertOne_kept c key v replace now :
  P (root c) -> P (root (snd (insertOne sizeof c key v replace now))).
Proof.
  intros W. unfold insertOne.
  pose proof (P_insertImpl (root c) key v now replace W) as W'.
  destruct (insertImpl sizeof (root c) key v now replace) as [r root'].
  pose proof (autoPruneStep_kept (withRoot c root') now W') as W''.
  destruct (autoPruneStep (withRoot c root') now) as [f c']. assumption.
Qed.

Lemma insertManyLoop_kept values : forall rt replace now total,
  P rt -> P (snd (insertManyLoop sizeof rt values replace now total)).
Proof.
  induction values as [|[key value] values IH]; intros rt replace now total W;
    [assumption|].
  cbn [insertManyLoop].
  pose proof (P_insertImpl rt key value now replace W) as W'.
  destruct (insertImpl sizeof rt key value now replace) as [[[[sz diff] ins]|e] rt'];
    [|assumption].
  apply IH. assumption.
Qed.

Lemma insertMany_kept c values replace now :
  P (root c) -> P (root (snd (insertMany sizeof c values replace now))).
Proof.
  intros W. unfold insertMany.
  pose proof (insertManyLoop_kept values (root c) replace now 0 W) as W'.
  destruct (insertManyLoop sizeof (root c) values replace now 0) as [[total|e] root'];
    [|assumption].
  pose proof (autoPruneStep_kept (withRoot c root') now W') as W''.
  destruct (autoPruneStep (withRoot c root') now) as [[u|e] c']; assumption.
Qed.

Lemma get_kept c key u now : P (root c) -> P (root (snd (get c key u now))).
Proof.
  intros W. unfold get, CachePartial_get. cbn [rootPartial partialRoot].
  pose proof (P_getImpl (root c) key u now W) as W'.
  destruct (getImpl (root c) key u now) as [r root']. assumption.
Qed.

Lemma ensure_kept c key v now :
  P (root c) -> P (root (snd (ensure sizeof nullish c key v now))).
Proof.
  intros W. unfold ensure.
  pose proof (get_kept c key false now W) as W1.
  destruct (get c key false now) as [[existing|e] c1]; [|assumption].
  destruct (isNull nullish existing); [|assumption].
  pose proof (insertOne_kept c1 key v false now W1) as W2.
  destruct (insertOne sizeof c1 key v false now) as [[r|e] c2]; assumption.
Qed.

Lemma deleteOne_kept c key : P (root c) -> P (root (snd (deleteOne c key))).
Proof.
  intros W. unfold deleteOne.
  pose proof (P_deleteImpl (root c) key W) as W'.
  destruct (deleteImpl (root c) key) as [[d|e] root']; assumption.
Qed.

Lemma deleteMany_kept ks : forall c,
  P (root c) -> P (root (snd (deleteMany c ks))).
Proof.
  induction ks as [|k ks IH]; intros c W; [assumption|].
  cbn [deleteMany]. pose proof (deleteOne_kept c k W) as W'.
  destruct (deleteOne c k) as [[u|e] c']; [|assumption].
  apply IH. assumption.
Qed.

Lemma clear_kept c : P (root c) -> P (root (clear c)).
Proof.
  intros W. unfold clear. cbn [withRoot root].
  destruct (root c) as [v a s|cs a s cnt]; [assumption|].
  now apply (P_clear cs a s cnt).
Qed.

Lemma step_kept c now (op : Op V) :
  P (root c) -> P (root (step sizeof nullish c now op)).
Proof.
  intros W. destruct op; cbn [step].
  - now apply get_kept.
  - now apply insertOne_kept.
  - now apply insertMany_kept.
  - now apply ensure_kept.
  - now apply deleteOne_kept.
  - now apply deleteMany_kept.
  - now apply clear_kept.
  - now apply prune_kept.
Qed.

Lemma run_kept (calls : list (Date * Op V)) : forall c,
  P (root c) -> P (root (run sizeof nullish c calls)).
Proof.
  induction calls as [|[now op] calls IH]; intros c W; [assumption|].
  cbn [run]. apply IH. now apply step_kept.
Qed.

Lemma reachable_kept c :
  (forall t0, P (Branch [] t0 0 0)) ->
  reachable sizeof nullish c -> P (root c).
Proof.
  intros P0 [opts [values [t0 [calls E]]]]. subst c.
  apply run_kept. unfold newMemCache. apply insertMany_kept.
  apply P0.
Qed.

End Kept.

(** The root is a branch, from construction on. *)
Lemma reachable_isBranch c :
  reachable sizeof nullish c -> isBranch (root c) = true.
Proof.
  apply (reachable_kept (fun rt => isBranch rt = true)).
  - intros rt key v d r B. now rewrite isBranch_insertImpl.
  - intros rt key B. now rewrite isBranch_deleteImpl.
  - intros rt key u now B. now rewrite isBranch_getImpl.
  - reflexivity.
  - reflexivity.
Qed.

Section Sized.
Hypothesis sizeof_nonneg : forall v, 0 <= sizeof v.

(** Child maps have distinct keys and every branch carries the sum of its
    children's sizes, from construction on. *)
Lemma reachable_wellFormed c :
  reachable sizeof nullish c -> wellFormed (root c) = true.
Proof.
  apply (reachable_kept (fun rt => wellFormed rt = true)).
  - intros rt key v d r W. now apply insertImpl_wellFormed.
  - intros rt key W. now apply deleteImpl_wellFormed.
  - intros rt key u now W. now apply getImpl_wellFormed.
  - reflexivity.
  - reflexivity.
Qed.

(** C1.  Starting from a freshly constructed cache (initial values included),
    after any sequence of public calls every branch of the trie carries the
    sum of its children's sizes, and no aggregate size is negative; the size
    estimator is taken to return byte counts, which are not negative. *)
Theorem aggregate_size_invariant (opts : MemCacheOptions)
    (values : list (list Primitive * V)) (t0 : Date) (calls : list (Date * Op V)) :
  sizeInvariant (root (run sizeof nullish (snd (newMemCache sizeof opts values t0)) calls))
  = true.
Proof.
  apply wellFormed_sizeInvariant, reachable_wellFormed.
  exists opts, values, t0, calls. reflexivity.
Qed.

End Sized.
End Reachable.

(** ** The public methods *)

Section Methods.
Context {V : Type}.
Variable sizeof : V -> Z.
Variable nullish : V -> bool.
Implicit Types (c : MemCache V) (rt : Node V) (key p : list Primitive).

Lemma withRoot_root c : withRoot c (root c) = c.
Proof. destruct c; reflexivity. Qed.


(** [insertOne] when the eviction check in its [finally] block does not fire. *)
Lemma insertOne_quiet c key v replace now :
  shouldAutoPrune (afterInsert sizeof c key v replace now) now = false ->
  insertOne sizeof c key v replace now =
  (match fst (insertImpl sizeof (root c) key v now replace) with
   | Throw e => Throw e
   | Normal (sz, _, _) => Normal sz
   end, afterInsert sizeof c key v replace now).
Proof.
  unfold insertOne, afterInsert, autoPruneStep. intros Q.
  destruct (insertImpl sizeof (root c) key v now replace) as [r root'].
  cbn [fst snd] in *. rewrite Q. destruct r as [[[sz diff] ins]|e]; reflexivity.
Qed.

Lemma get_unfold c key u now :
  get c key u now =
  (match fst (getImpl (root c) key u now) with
   | Throw e => Throw e
   | Normal (Some (Leaf v _ _)) => Normal (Some v)
   | Normal _ => Normal None
   end, withRoot c (snd (getImpl (root c) key u now))).
Proof.
  unfold get, CachePartial_get. cbn [rootPartial partialRoot].
  destruct (getImpl (root c) key u now) as [r root']. reflexivity.
Qed.

Lemma deleteOne_root c key : root (snd (deleteOne c key)) = snd (deleteImpl (root c) key).
Proof.
  unfold deleteOne. destruct (deleteImpl (root c) key) as [[d|e] root']; reflexivity.
Qed.




(** What a read returns, in terms of [node]. *)
Lemma getImpl_fst key : forall rt u now,
  fst (getImpl rt key u now) =
  match node rt key with
  | Normal (Some x) => Normal (Some (if u then setAtime x now else x))
  | Normal None => Normal None
  | Throw e => Throw e
  end.
Proof.
  induction key as [|h t IH]; intros rt u now; [reflexivity|].
  destruct rt as [v a s|cs a s c].
  - cbn [getImpl]. rewrite touch_Leaf. reflexivity.
  - rewrite getImpl_Branch, node_Branch.
    destruct (mapGet cs h); [apply IH|reflexivity].
Qed.



(** *** Access times, method by method *)


Lemma get_untouched c key now : snd (get c key false now) = c.
Proof.
  rewrite get_unfold, getImpl_untouched. cbn [snd]. apply withRoot_root.
Qed.



(** With [replace = true] an insertion under a key that is not empty stores
    its value whenever it returns. *)
Lemma insertImpl_stores key : forall rt (v : V) d sz diff ins,
  key <> [] ->
  fst (insertImpl sizeof rt key v d true) = Normal (sz, diff, ins) ->
  sz = Some (sizeof v).
Proof.
  induction key as [|h t IH]; intros rt v d sz diff ins NE S; [congruence|].
  destruct rt as [v0 a0 s0|cs a s cnt]; [discriminate|].
  destruct t as [|h2 t2].
  - cbn [insertImpl negb andb fst] in S. now inversion S.
  - rewrite insertImpl_inner in S by discriminate.
    destruct (mapGet cs h);
      match type of S with
      | context [insertImpl sizeof ?b0 ?k0 v d true] =>
          specialize (IH b0 v d);
          destruct (insertImpl sizeof b0 k0 v d true) as [[[[sz' diff'] ins']|e] child']
      end; cbn [fst] in *; try discriminate; inversion S; subst;
      eapply IH; (discriminate || reflexivity).
Qed.



(** [ensure] on a key that holds a value reads without touching and
    writes nothing. *)
Lemma ensure_existing c key (v v0 : V) now :
  fst (get c key false now) = Normal (Some v0) -> nullish v0 = false ->
  ensure sizeof nullish c key v now = (Normal v0, c).
Proof.
  intros G NN. unfold ensure. pose proof (get_untouched c key now) as U.
  destruct (get c key false now) as [r c1]. cbn [fst snd] in *. subst r c1.
  cbn [isNull]. now rewrite NN.
Qed.





End Methods.

(** ** Views and [clear] *)

Section Views.
Context {V : Type}.
Implicit Types (c : MemCache V) (rt : Node V) (key p s : list Primitive).

Lemma node_app p : forall rt s,
  node rt (p ++ s) =
  match node rt p with
  | Normal (Some n) => node n s
  | Normal None => Normal None
  | Throw e => Throw e
  end.
Proof.
  induction p as [|h t IH]; intros rt s; [reflexivity|].
  destruct rt as [v a sz|cs a sz cnt]; [reflexivity|].
  cbn [app]. rewrite !node_Branch. destruct (mapGet cs h); [apply IH|reflexivity].
Qed.

(** What [get] returns on a view is what it returns on the cache for the
    prefixed key. *)
Lemma partial_get_agrees c p (view : CachePartial V) s u now :
  partial c p = Normal (Some view) ->
  fst (CachePartial_get view s u now) = fst (get c (p ++ s) u now).
Proof.
  unfold partial. destruct (node (root c) p) as [[n|]|e] eqn:N; try discriminate.
  destruct (isLeaf n); [discriminate|]. intros E. inversion E; subst view. clear E.
  rewrite get_unfold. unfold CachePartial_get. cbn [partialRoot fst].
  pose proof (getImpl_fst s n u now) as F.
  destruct (getImpl n s u now) as [r root']. cbn [fst] in *. subst r.
  now rewrite getImpl_fst, node_app, N.
Qed.

(** [clear] resets the size and the child map of the root, and nothing else. *)
Lemma clear_resets_all_but_count c :
  isBranch (root c) = true ->
  size (clear c) = 0
  /\ entries (clear c) = []
  /\ (forall key u now, fst (get (clear c) key u now) = Normal None)
  /\ count (clear c) = count c
  /\ atime (clear c) [] = atime c [].
Proof.
  intros B. destruct c as [o [v a sz|cs a sz cnt] l]; [discriminate|].
  repeat split. intros key u now. rewrite get_unfold. cbn [clear withRoot root fst].
  destruct key as [|h t].
  - cbn [getImpl fst]. now rewrite touch_Branch.
  - now rewrite getImpl_Branch.
Qed.

End Views.

(** ** Eviction *)

Section Eviction.
Context {V : Type}.
Implicit Types (nd rt child : Node V) (key p q prefix rel : list Primitive).
Implicit Types (cs : list (Primitive * Node V)) (h k : Primitive).
Implicit Types (u : Unit V) (units : list (Unit V)).

(** *** The sort *)

Lemma insertByAtime_Permutation u units :
  Permutation (insertByAtime u units) (u :: units).
Proof.
  induction units as [|x units IH]; cbn [insertByAtime]; [reflexivity|].
  destruct (unitAtime u <=? unitAtime x); [reflexivity|].
  rewrite IH. apply perm_swap.
Qed.

Lemma sortByAtime_Permutation units : Permutation (sortByAtime units) units.
Proof.
  induction units as [|u units IH]; [reflexivity|].
  cbn [sortByAtime fold_right]. fold (sortByAtime units).
  rewrite insertByAtime_Permutation. now constructor.
Qed.

Lemma insertByAtime_sorted u units :
  StronglySorted olderOrEqual units ->
  StronglySorted olderOrEqual (insertByAtime u units).
Proof.
  induction 1 as [|x units S IH F]; cbn [insertByAtime].
  - repeat constructor.
  - destruct (unitAtime u <=? unitAtime x) eqn:L.
    + apply Z.leb_le in L. constructor; [now constructor|].
      constructor; [exact L|].
      rewrite Forall_forall in *. intros y I. specialize (F y I).
      unfold olderOrEqual in *. lia.
    + apply Z.leb_gt in L. constructor; [assumption|].
      rewrite Forall_forall in *. intros y I.
      apply (Permutation_in _ (insertByAtime_Permutation u units)) in I.
      destruct I as [E|I]; [subst; unfold olderOrEqual; lia|auto].
Qed.

Lemma sortByAtime_sorted units :
  StronglySorted olderOrEqual (sortByAtime units).
Proof.
  induction units as [|u units IH]; [constructor|].
  cbn [sortByAtime fold_right]. now apply insertByAtime_sorted.
Qed.

Lemma insertByAtime_touchedAt t u units :
  touchedAt t (insertByAtime u units) = touchedAt t (u :: units).
Proof.
  unfold touchedAt. induction units as [|x units IH]; cbn [insertByAtime];
    [reflexivity|].
  destruct (unitAtime u <=? unitAtime x) eqn:L; [reflexivity|].
  apply Z.leb_gt in L. cbn [filter] in *. rewrite IH.
  destruct (unitAtime u =? t) eqn:E; [|reflexivity].
  apply Z.eqb_eq in E.
  assert (N : (unitAtime x =? t) = false) by (apply Z.eqb_neq; lia).
  now rewrite N.
Qed.

(** The sort is stable: units with the same access time keep their order. *)
Lemma sortByAtime_stable t units :
  touchedAt t (sortByAtime units) = touchedAt t units.
Proof.
  induction units as [|u units IH]; [reflexivity|].
  cbn [sortByAtime fold_right]. fold (sortByAtime units).
  rewrite insertByAtime_touchedAt. unfold touchedAt in *. cbn [filter].
  now rewrite IH.
Qed.

Lemma sumSizes_insertByAtime u units :
  sumSizes (insertByAtime u units) = unitSize u + sumSizes units.
Proof.
  induction units as [|x units IH]; cbn [insertByAtime]; [reflexivity|].
  destruct (unitAtime u <=? unitAtime x); cbn [sumSizes]; [reflexivity|].
  rewrite IH. lia.
Qed.

Lemma sumSizes_sortByAtime units : sumSizes (sortByAtime units) = sumSizes units.
Proof.
  induction units as [|u units IH]; [reflexivity|].
  cbn [sortByAtime fold_right sumSizes]. fold (sortByAtime units).
  rewrite sumSizes_insertByAtime. now rewrite IH.
Qed.

Lemma sumSizes_app units units' :
  sumSizes (units ++ units') = sumSizes units + sumSizes units'.
Proof.
  induction units as [|u units IH]; cbn [app sumSizes]; [reflexivity|].
  rewrite IH. lia.
Qed.

(** *** The loop on sizes *)

Lemma evictPlan_prefix cap units : forall sz,
  exists rest, units = evictPlan cap sz units ++ rest.
Proof.
  induction units as [|u units IH]; intros sz; cbn [evictPlan].
  - now exists [].
  - destruct (sz <=? cap); [now exists (u :: units)|].
    destruct (IH (sz - unitSize u)) as [rest E]. exists rest.
    cbn [app]. now rewrite <- E.
Qed.

(** The loop ends at or below the capacity, or with every unit evicted. *)
Lemma evictPlan_final cap units : forall sz,
  sz - sumSizes (evictPlan cap sz units) <= cap \/ evictPlan cap sz units = units.
Proof.
  induction units as [|u units IH]; intros sz; cbn [evictPlan]; [now right|].
  destruct (sz <=? cap) eqn:L.
  - left. apply Z.leb_le in L. cbn [sumSizes]. lia.
  - cbn [sumSizes]. destruct (IH (sz - unitSize u)) as [H|H].
    + left. lia.
    + right. now rewrite H.
Qed.

(** No unit is evicted once the size is at or below the capacity. *)
Lemma evictPlan_needed cap units : forall sz pre u post,
  evictPlan cap sz units = pre ++ u :: post -> cap < sz - sumSizes pre.
Proof.
  induction units as [|x units IH]; intros sz pre u post E; cbn [evictPlan] in E.
  - destruct pre; discriminate.
  - destruct (sz <=? cap) eqn:L; [destruct pre; discriminate|].
    apply Z.leb_gt in L. destruct pre as [|y pre]; cbn [app sumSizes] in *.
    + lia.
    + inversion E; subst. specialize (IH _ _ _ _ H1). lia.
Qed.

(** *** Deleting one unit *)

Lemma deleteImpl_found key : forall rt x,
  key <> [] -> node rt key = Normal (Some x) ->
  fst (deleteImpl rt key) = Normal (Some x).
Proof.
  induction key as [|h t IH]; intros rt x NE N; [congruence|].
  destruct rt as [v0 a0 s0|cs a s c]; [discriminate|].
  rewrite node_Branch in N. destruct (mapGet cs h) as [child|] eqn:G; [|discriminate].
  destruct t as [|h2 t2].
  - cbn [deleteImpl]. rewrite G. cbn [node] in N. now inversion N.
  - rewrite deleteImpl_inner by discriminate. rewrite G.
    specialize (IH child x ltac:(discriminate) N).
    destruct (deleteImpl child (h2 :: t2)) as [[[d|]|e] child']; cbn [fst] in *;
      congruence.
Qed.

(** A deletion leaves the nodes beside the deleted key as they are. *)
Lemma deleteImpl_node_other key : forall rt p,
  apart key p -> node (snd (deleteImpl rt key)) p = node rt p.
Proof.
  induction key as [|h t IH]; intros rt p [A1 A2]; [discriminate|].
  destruct p as [|h' t']; [discriminate|].
  destruct rt as [v0 a0 s0|cs a s c]; [reflexivity|].
  cbn [isPrefix] in A1, A2. rewrite (sameValueZero_sym h h') in A1.
  destruct t as [|h2 t2].
  - cbn [deleteImpl]. destruct (mapGet cs h) as [entry|] eqn:G; [|reflexivity].
    cbn [snd]. rewrite !node_Branch.
    destruct (sameValueZero h' h) eqn:E; [discriminate|].
    now rewrite mapGet_mapDelete_other.
  - rewrite deleteImpl_inner by discriminate.
    destruct (mapGet cs h) as [child|] eqn:G; [|reflexivity].
    specialize (IH child t').
    assert (exists s' c',
      snd (let (r, child') := deleteImpl child (h2 :: t2) in
           match r with
           | Throw e => (Throw e, Branch (mapSet cs h child') a s c)
           | Normal None => (Normal None, Branch (mapSet cs h child') a s c)
           | Normal (Some deleted) =>
               (Normal (Some deleted),
                Branch (mapSet cs h child') a (s - nodeSize deleted)
                  (c - nodeCount deleted))
           end)
      = Branch (mapSet cs h (snd (deleteImpl child (h2 :: t2)))) a s' c') as [s' [c' E]].
    { destruct (deleteImpl child (h2 :: t2)) as [[[deleted|]|e] child'];
        cbn [snd]; do 2 eexists; reflexivity. }
    rewrite E. rewrite !node_Branch. key_cases h' h.
    + rewrite mapGet_mapSet_same, G. apply IH. split; assumption.
    + now rewrite mapGet_mapSet_other.
Qed.

(** On units that resolve and lie apart, the loop of [prune] evicts what
    the loop on sizes plans, and frees what the units record. *)
Lemma pruneLoop_evictPlan cap units : forall rt,
  wellFormed rt = true -> Forall (resolves rt) units -> pairwiseApart units ->
  fst (pruneLoop cap rt units)
  = Normal (map prunedEntry (evictPlan cap (nodeSize rt) units))
  /\ nodeSize (snd (pruneLoop cap rt units))
     = nodeSize rt - sumSizes (evictPlan cap (nodeSize rt) units).
Proof.
  induction units as [|u units IH]; intros rt W R A.
  - cbn. split; [reflexivity|lia].
  - destruct u as [[[key value] at0] sz]. cbn [pruneLoop evictPlan].
    destruct (nodeSize rt <=? cap); [cbn; split; [reflexivity|lia]|].
    inversion R as [|? ? [NE [x [N S]]] R']; subst.
    inversion A as [|? ? A1 A']; subst.
    cbn [unitKey unitSize fst snd] in *.
    pose proof (deleteImpl_found key rt x NE N) as D.
    destruct (deleteImpl_wellFormed key rt W) as [W' S'].
    assert (R1 : Forall (resolves (snd (deleteImpl rt key))) units).
    { rewrite Forall_forall in *. intros u' I.
      destruct (R' u' I) as [NE' [x' [N' E']]]. split; [assumption|].
      exists x'. split; [|assumption].
      rewrite deleteImpl_node_other; [assumption|]. exact (A1 u' I). }
    rewrite D in S'. cbn [removedSize] in S'.
    destruct (deleteImpl rt key) as [r rt']. cbn [fst snd] in *. subst r.
    destruct (IH rt' W' R1 A') as [E1 E2].
    rewrite S', S in *.
    destruct (pruneLoop cap rt' units) as [[pruned|e] rt'']; cbn [fst snd] in *;
      [|discriminate].
    inversion E1; subst. cbn [map sumSizes prunedEntry unitKey unitSlot unitSize fst snd].
    split; [reflexivity|lia].
Qed.

(** *** The units [flatten] produces *)

Lemma In_mapGet cs k child :
  NoDup (mapKeys cs) -> In (k, child) cs -> mapGet cs k = Some child.
Proof.
  induction cs as [|[k0 v0] cs IH]; intros N I; [contradiction|].
  cbn [mapKeys map fst] in N. inversion N as [|? ? NI N']; subst.
  cbn [mapGet]. destruct I as [E|I].
  - inversion E; subst. now rewrite sameValueZero_refl.
  - key_cases k k0.
    + exfalso. apply NI. change k0 with (fst (k0, child)). now apply in_map.
    + now apply IH.
Qed.

Lemma flatten_unfold pd nd prefix :
  flatten pd nd prefix =
  if depthReached pd prefix || isLeaf nd
  then [(prefix, slot0 nd, nodeAtime nd, nodeSize nd)]
  else match nd with
       | Branch children _ _ _ =>
           flat_map (fun e => flatten pd (snd e) (prefix ++ [fst e])) children
       | Leaf _ _ _ => []
       end.
Proof. destruct nd; reflexivity. Qed.

(** The units account for the whole size of the node they come from. *)
Lemma flatten_sumSizes pd nd : forall prefix,
  wellFormed nd = true -> sumSizes (flatten pd nd prefix) = nodeSize nd.
Proof.
  induction nd as [v a s|cs a s c IH] using Node_induct; intros prefix W;
    rewrite flatten_unfold.
  - cbn [isLeaf]. rewrite orb_true_r. cbn. lia.
  - cbn [isLeaf]. rewrite orb_false_r.
    destruct (depthReached pd prefix); [cbn; lia|].
    apply wellFormed_Branch in W. destruct W as [_ [S F]]. subst s. cbn [nodeSize].
    induction cs as [|e cs IHcs]; [reflexivity|].
    inversion IH as [|? ? He Hcs]; inversion F as [|? ? Fe Fcs]; subst.
    cbn [flat_map sumOver]. rewrite sumSizes_app, (He _ Fe).
    fold (sumOver (nodeSize (V:=V))). rewrite (IHcs Hcs Fcs). reflexivity.
Qed.

(** The key of a unit addresses the node the unit was made from; below a
    branch that is not itself a unit, it starts with the child's key. *)
Lemma flatten_resolves pd nd : forall prefix u,
  wellFormed nd = true -> In u (flatten pd nd prefix) ->
  exists rel x,
    unitKey u = prefix ++ rel /\ node nd rel = Normal (Some x)
    /\ nodeSize x = unitSize u /\ nodeAtime x = unitAtime u
    /\ (rel = [] -> depthReached pd prefix || isLeaf nd = true).
Proof.
  induction nd as [v a s|cs a s c IH] using Node_induct; intros prefix u W I;
    rewrite flatten_unfold in I.
  - cbn [isLeaf] in *. rewrite orb_true_r in *. destruct I as [E|[]]. subst u.
    exists [], (Leaf v a s). rewrite app_nil_r. repeat split; reflexivity.
  - cbn [isLeaf] in *. rewrite orb_false_r in *.
    destruct (depthReached pd prefix) eqn:D.
    + destruct I as [E|[]]. subst u. exists [], (Branch cs a s c).
      rewrite app_nil_r. repeat split; reflexivity.
    + apply in_flat_map in I. destruct I as [[k child] [Ie Iu]].
      apply wellFormed_Branch in W. destruct W as [N [_ F]].
      rewrite Forall_forall in IH, F. cbn [fst snd] in *.
      destruct (IH _ Ie (prefix ++ [k]) u (F _ Ie) Iu)
        as [rel [x [K [Nx [S [T _]]]]]].
      exists (k :: rel), x. rewrite <- app_assoc in K. cbn [app] in K.
      rewrite node_Branch, (In_mapGet _ _ _ N Ie).
      repeat split; try assumption. discriminate.
Qed.

Lemma apart_diverge prefix k k' rel rel' :
  k <> k' -> apart (prefix ++ k :: rel) (prefix ++ k' :: rel').
Proof.
  intros NE. induction prefix as [|h prefix IH]; cbn [app].
  - split; cbn [isPrefix]; [|rewrite sameValueZero_sym];
      (replace (sameValueZero k k') with false; [reflexivity|]);
      symmetry; now apply sameValueZero_neq.
  - destruct IH as [A B]. split; rewrite isPrefix_cons_same; assumption.
Qed.

Lemma pairwiseApart_app units units' :
  pairwiseApart units -> pairwiseApart units' ->
  (forall u u', In u units -> In u' units' -> apart (unitKey u) (unitKey u')) ->
  pairwiseApart (units ++ units').
Proof.
  unfold pairwiseApart. intros A A' X.
  induction A as [|u units F A IH]; [assumption|].
  cbn [app]. constructor.
  - apply Forall_app. split; [assumption|].
    apply Forall_forall. intros u' I. apply X; [now left|assumption].
  - apply IH. intros x y Ix Iy. apply X; [now right|assumption].
Qed.

Lemma flatten_pairwiseApart pd nd : forall prefix,
  wellFormed nd = true -> pairwiseApart (flatten pd nd prefix).
Proof.
  induction nd as [v a s|cs a s c IH] using Node_induct; intros prefix W;
    rewrite flatten_unfold.
  - cbn [isLeaf]. rewrite orb_true_r. repeat constructor.
  - cbn [isLeaf]. rewrite orb_false_r.
    destruct (depthReached pd prefix); [repeat constructor|].
    apply wellFormed_Branch in W. destruct W as [N [_ F]]. clear s.
    induction cs as [|[k child] cs IHcs]; [constructor|].
    inversion IH as [|? ? He Hcs]; inversion F as [|? ? Fe Fcs]; subst.
    cbn [mapKeys map fst] in N. inversion N as [|? ? NI N']; subst.
    cbn [flat_map fst snd] in *. apply pairwiseApart_app.
    + now apply He.
    + now apply IHcs.
    + intros u u' I I'.
      destruct (flatten_resolves pd child (prefix ++ [k]) u Fe I)
        as [rel [x [K _]]].
      apply in_flat_map in I'. destruct I' as [[k' child'] [Ie' Iu']].
      rewrite Forall_forall in Fcs. cbn [fst snd] in *.
      destruct (flatten_resolves pd child' (prefix ++ [k']) u' (Fcs _ Ie') Iu')
        as [rel' [x' [K' _]]].
      rewrite <- app_assoc in K, K'. cbn [app] in K, K'. rewrite K, K'.
      apply apart_diverge. intros E. subst k'. apply NI.
      change k with (fst (k, child')). now apply in_map.
Qed.

Lemma pairwiseApart_insertByAtime u units :
  Forall (fun u' => apart (unitKey u) (unitKey u')) units ->
  pairwiseApart units -> pairwiseApart (insertByAtime u units).
Proof.
  unfold pairwiseApart. intros F A. induction A as [|x units Fx A IH];
    cbn [insertByAtime].
  - repeat constructor.
  - destruct (unitAtime u <=? unitAtime x).
    + constructor; [assumption|now constructor].
    + inversion F as [|? ? [A1 A2] F']; subst. constructor; [|now apply IH].
      apply Forall_forall. intros y I.
      apply (Permutation_in _ (insertByAtime_Permutation u units)) in I.
      destruct I as [E|I].
      * subst y. split; assumption.
      * rewrite Forall_forall in Fx. now apply Fx.
Qed.

Lemma pairwiseApart_sortByAtime units :
  pairwiseApart units -> pairwiseApart (sortByAtime units).
Proof.
  unfold pairwiseApart. induction 1 as [|u units F A IH]; [constructor|].
  cbn [sortByAtime fold_right]. apply pairwiseApart_insertByAtime; [|assumption].
  apply Forall_forall. intros y I.
  apply (Permutation_in _ (sortByAtime_Permutation units)) in I.
  rewrite Forall_forall in F. now apply F.
Qed.

(** Below a branch and with a prune depth other than zero, every unit
    resolves from the root. *)
Lemma flatten_root_resolves pd cs a s c :
  pd <> Some 0%nat -> wellFormed (Branch cs a s c) = true ->
  Forall (resolves (Branch cs a s c)) (flatten pd (Branch cs a s c) []).
Proof.
  intros D W. apply Forall_forall. intros u I.
  destruct (flatten_resolves pd _ [] u W I) as [rel [x [K [N [S [_ R]]]]]].
  cbn [app] in K. unfold resolves. rewrite K. split; [|eauto].
  intros E. specialize (R E). cbn [isLeaf depthReached length] in R.
  rewrite orb_false_r in R. destruct pd as [[|d]|]; [congruence|discriminate..].
Qed.

(** *** [prune] with a prune depth other than zero

    On a well-formed trie over capacity, [prune] goes through the units in
    ascending order of access time, units of equal access time in the order
    of the traversal; it evicts a unit only while the size is above the
    capacity, each eviction frees the size of its unit, and the size it
    leaves is at or below the capacity. *)
Lemma prune_evicts_oldest_until_fit (c : MemCache V) now cap :
  wellFormed (root c) = true -> isBranch (root c) = true ->
  capacity (options c) = Some cap -> 0 <= cap -> cap < size c ->
  pruneDepth (options c) <> Some 0%nat ->
  let flattened := flatten (pruneDepth (options c)) (root c) [] in
  let evicted := evictPlan cap (size c) (sortByAtime flattened) in
  StronglySorted olderOrEqual (sortByAtime flattened)
  /\ Permutation (sortByAtime flattened) flattened
  /\ (forall t, touchedAt t (sortByAtime flattened) = touchedAt t flattened)
  /\ fst (prune c now) = Normal (map prunedEntry evicted)
  /\ (exists rest, sortByAtime flattened = evicted ++ rest)
  /\ (forall pre u post, evicted = pre ++ u :: post -> cap < size c - sumSizes pre)
  /\ size (snd (prune c now)) = size c - sumSizes evicted
  /\ size (snd (prune c now)) <= cap.
Proof.
  intros W B C NN O D flattened evicted.
  split; [apply sortByAtime_sorted|].
  split; [apply sortByAtime_Permutation|].
  split; [intros t; apply sortByAtime_stable|].
  assert (R : Forall (resolves (root c)) (sortByAtime flattened)).
  { apply (Permutation_Forall (Permutation_sym (sortByAtime_Permutation flattened))).
    subst flattened. destruct (root c) as [v a s|cs a s cnt]; [discriminate|].
    now apply flatten_root_resolves. }
  assert (A : pairwiseApart (sortByAtime flattened)).
  { apply pairwiseApart_sortByAtime. now apply flatten_pairwiseApart. }
  destruct (pruneLoop_evictPlan cap (sortByAtime flattened) (root c) W R A) as [E1 E2].
  assert (P : prune c now =
              (fst (pruneLoop cap (root c) (sortByAtime flattened)),
               {| options := options c;
                  root := snd (pruneLoop cap (root c) (sortByAtime flattened));
                  lastPruneAt := now |})).
  { unfold prune. cbn [options root]. rewrite C.
    replace (size _ <=? cap) with false by (symmetry; apply Z.leb_gt; exact O).
    cbn [root]. fold flattened.
    destruct (pruneLoop cap (root c) (sortByAtime flattened)). reflexivity. }
  rewrite P. cbn [fst snd]. unfold size in *. cbn [root]. fold evicted in E1, E2.
  split; [exact E1|].
  split; [apply evictPlan_prefix|].
  split; [intros pre u post E; now apply (evictPlan_needed cap _ _ _ _ _ E)|].
  split; [exact E2|].
  rewrite E2. destruct (evictPlan_final cap (sortByAtime flattened) (nodeSize (root c)))
    as [F|F]; fold evicted in F; [exact F|].
  rewrite F, sumSizes_sortByAtime. subst flattened.
  rewrite flatten_sumSizes by assumption. lia.
Qed.

End Eviction.

(** ** Eviction in reachable states *)

Section ReachableEviction.
Context {V : Type}.
Variable sizeof : V -> Z.
Variable nullish : V -> bool.
Hypothesis sizeof_nonneg : forall v, 0 <= sizeof v.

(** In every state a cache can get into, with a capacity that is not
    negative and a prune depth other than zero, [prune] leaves the size at
    or below the capacity. *)
Lemma prune_reachable_fits (c : MemCache V) now cap :
  reachable sizeof nullish c ->
  capacity (options c) = Some cap -> 0 <= cap ->
  pruneDepth (options c) <> Some 0%nat ->
  size (snd (prune c now)) <= cap.
Proof.
  intros R C NN D. destruct (Z.leb_spec (size c) cap) as [L|L].
  - unfold prune. cbn [options root]. rewrite C.
    replace (size _ <=? cap) with true by (symmetry; apply Z.leb_le; exact L).
    exact L.
  - apply (prune_evicts_oldest_until_fit c now cap); try assumption.
    + now apply (reachable_wellFormed sizeof nullish).
    + now apply (reachable_isBranch sizeof nullish).
Qed.

End ReachableEviction.

(** ** The scenarios of the specification and of the tests *)

(** C5.  In the pruning scenario with [pruneDepth = 1], whatever the five
    increasing instants, the units of eviction are the subtrees [1] (size 90,
    last written at [t4]) and [2] (size 60, last written at [t2]); [prune]
    evicts subtree [2] and nothing else, and leaves the three entries under
    key [1]. *)
Theorem prune_at_depth_one_scenario (t0 t1 t2 t3 t4 now : Date) :
  t0 < t1 -> t1 < t2 -> t2 < t3 -> t3 < t4 ->
  size (pruneScenario (Some 1%nat) t0 t1 t2 t3 t4) = 150
  /\ map (fun u => (unitKey u, unitAtime u, unitSize u))
      (flatten (Some 1%nat) (root (pruneScenario (Some 1%nat) t0 t1 t2 t3 t4)) [])
  = [([PNumber 1], t4, 90); ([PNumber 2], t2, 60)]
  /\ fst (prune (pruneScenario (Some 1%nat) t0 t1 t2 t3 t4) now)
     = Normal [([PNumber 2],
                SlotMap [(PNumber 1, Leaf 30 t1 30); (PNumber 2, Leaf 30 t2 30)],
                60)]
  /\ keys (snd (prune (pruneScenario (Some 1%nat) t0 t1 t2 t3 t4) now))
     = [[PNumber 1; PNumber 1]; [PNumber 1; PNumber 2]; [PNumber 1; PNumber 3]]
  /\ size (snd (prune (pruneScenario (Some 1%nat) t0 t1 t2 t3 t4) now)) = 90.
Proof.
  intros H01 H12 H23 H34.
  assert (E : pruneScenario (Some 1%nat) t0 t1 t2 t3 t4 =
    {| options := manualOptions (Some 1%nat);
       root := Branch
         [(PNumber 1, Branch [(PNumber 1, Leaf 30 t0 30); (PNumber 2, Leaf 30 t3 30);
                              (PNumber 3, Leaf 30 t4 30)] t4 90 3);
          (PNumber 2, Branch [(PNumber 1, Leaf 30 t1 30); (PNumber 2, Leaf 30 t2 30)]
                        t2 60 2)] t4 150 5;
       lastPruneAt := t0 |}) by reflexivity.
  rewrite E. split; [reflexivity|]. split; [reflexivity|].
  unfold prune. cbn -[Z.leb].
  assert (L : (t4 <=? t2) = false) by (apply Z.leb_gt; lia).
  rewrite L. cbn. repeat split; reflexivity.
Qed.

Lemma prune_at_depth_one_scenario_witness :
  keys (snd (prune (pruneScenario (Some 1%nat) 0 1 2 3 4) 5))
  = [[PNumber 1; PNumber 1]; [PNumber 1; PNumber 2]; [PNumber 1; PNumber 3]].
Proof.
  apply (prune_at_depth_one_scenario 0 1 2 3 4 5); lia.
Defined.

(** The same entries pruned leaf by leaf: the two least recently touched
    leaves go, and three entries of 90 bytes in all stay. *)
Lemma prune_leaf_by_leaf_scenario (t0 t1 t2 t3 t4 now : Date) :
  t0 < t1 -> t1 < t2 -> t2 < t3 -> t3 < t4 ->
  map fst (map fst (sortByAtime (flatten None (root (pruneScenario None t0 t1 t2 t3 t4)) [])))
  = [([PNumber 1; PNumber 1], SlotValue 30); ([PNumber 2; PNumber 1], SlotValue 30);
     ([PNumber 2; PNumber 2], SlotValue 30); ([PNumber 1; PNumber 2], SlotValue 30);
     ([PNumber 1; PNumber 3], SlotValue 30)]
  /\ fst (prune (pruneScenario None t0 t1 t2 t3 t4) now)
     = Normal [([PNumber 1; PNumber 1], SlotValue 30, 30);
               ([PNumber 2; PNumber 1], SlotValue 30, 30)]
  /\ keys (snd (prune (pruneScenario None t0 t1 t2 t3 t4) now))
     = [[PNumber 1; PNumber 2]; [PNumber 1; PNumber 3]; [PNumber 2; PNumber 2]]
  /\ size (snd (prune (pruneScenario None t0 t1 t2 t3 t4) now)) = 90.
Proof.
  intros H01 H12 H23 H34.
  assert (E : pruneScenario None t0 t1 t2 t3 t4 =
    {| options := manualOptions None;
       root := Branch
         [(PNumber 1, Branch [(PNumber 1, Leaf 30 t0 30); (PNumber 2, Leaf 30 t3 30);
                              (PNumber 3, Leaf 30 t4 30)] t4 90 3);
          (PNumber 2, Branch [(PNumber 1, Leaf 30 t1 30); (PNumber 2, Leaf 30 t2 30)]
                        t2 60 2)] t4 150 5;
       lastPruneAt := t0 |}) by reflexivity.
  rewrite E. unfold prune. cbn -[Z.leb].
  repeat match goal with
         | |- context [?a <=? ?b] =>
             first [ replace (a <=? b) with true by (symmetry; apply Z.leb_le; lia)
                   | replace (a <=? b) with false by (symmetry; apply Z.leb_gt; lia) ];
             cbn -[Z.leb]
         end.
  repeat split; reflexivity.
Qed.

(** C2 at its failing input.  After one insertion and [clear()] the root has
    no leaf below it and still carries a leaf count of 1, which [count]
    returns: the count is not the number of leaves.  Replacing a branch of
    two leaves by a leaf likewise leaves a count of 2 over one leaf. *)
Theorem leaf_count_survives_clear :
  root clearedCache = Branch [] 1 0 1
  /\ leafCount (root clearedCache) = 0
  /\ count clearedCache = 1
  /\ countInvariant (root clearedCache) = false
  /\ countInvariant
       (root (snd (insertOne mockSizeof nestedCache [PString "key1"] 7 true 1)))
     = false.
Proof. repeat split; reflexivity. Qed.

(** C6 at its failing input.  [clear()] empties the child map and resets the
    size; the leaf count keeps the value it had. *)
Theorem clear_keeps_count :
  size (clear nestedCache) = 0
  /\ entries (clear nestedCache) = []
  /\ fst (get (clear nestedCache) [PString "key1"; PNumber 1] true 1) = Normal None
  /\ count (clear nestedCache) = 2.
Proof. repeat split; reflexivity. Qed.

(** C4 at its failing input.  With [pruneDepth = 0] the only unit is the root
    under the empty key, whose deletion does nothing: [prune] reports the
    unit as pruned and returns with the size still above the capacity. *)
Theorem prune_at_depth_zero_evicts_nothing :
  capacity (options depthZeroCache) = Some 100
  /\ size depthZeroCache = 150
  /\ fst (prune depthZeroCache 1)
     = Normal [([], SlotMap [(PString "a", Leaf 150 0 150)], 150)]
  /\ size (snd (prune depthZeroCache 1)) = 150
  /\ keys (snd (prune depthZeroCache 1)) = [[PString "a"]].
Proof. repeat split; reflexivity. Qed.

(** C9 at its failing input.  On the view of ["key1"], [sizeof] and [atime]
    look the prefix up again below the view's root and find nothing where
    the cache finds the entry; [insertMany] forwards the keys without the
    prefix, so the entry lands under the root, where [insertOne] puts it
    below the prefix. *)
Theorem partial_view_diverges :
  partial nestedCache [PString "key1"] = Normal (Some key1View)
  /\ CachePartial_sizeof key1View [PNumber 1] = Normal None
  /\ MemCache_sizeof nestedCache ([PString "key1"] ++ [PNumber 1]) = Normal (Some 40)
  /\ CachePartial_atime key1View [PNumber 1] = Normal None
  /\ atime nestedCache ([PString "key1"] ++ [PNumber 1]) = Normal (Some 0)
  /\ fst (CachePartial_get key1View [PNumber 1] false 1) = Normal (Some 40)
  /\ keys (snd (CachePartial_insertMany mockSizeof nestedCache key1View
                  [([PNumber 3], 7)] true 1))
     = [[PString "key1"; PNumber 1]; [PString "key1"; PNumber 2]; [PNumber 3]]
  /\ keys (snd (CachePartial_insertOne mockSizeof nestedCache key1View
                  [PNumber 3] 7 true 1))
     = [[PString "key1"; PNumber 1]; [PString "key1"; PNumber 2];
        [PString "key1"; PNumber 3]].
Proof. repeat split; reflexivity. Qed.









Lemma aggregate_size_invariant_witness :
  sizeInvariant
    (root (run stringSizeof neverNullish
             (snd (newMemCache stringSizeof cappedOptions
                     [([PString "key1"; PString "subkey1"], "value1.1"%string)] 0))
             [(1, OpInsertOne [PString "key1"; PString "subkey2"] "value1.2"%string true);
              (2, OpEnsure [PString "key2"] "value2"%string);
              (3, OpGet [PString "key1"; PString "subkey1"] true);
              (4, OpDeleteOne [PString "key1"; PString "subkey1"]);
              (5, OpInsertMany [([PString "key1"], "replaced"%string)] true);
              (6, OpPrune);
              (7, OpClear)]))
  = true.
Proof.
  apply (aggregate_size_invariant stringSizeof neverNullish).
  intros s. unfold stringSizeof. lia.
Defined.

(** ** Iteration *)

Section Iteration.
Context {V : Type}.
Implicit Types (nd rt child : Node V) (key p q prefix rel : list Primitive).
Implicit Types (cs : list (Primitive * Node V)) (h k : Primitive).
Implicit Types (c : MemCache V).

Lemma mapGet_In_key cs k child : mapGet cs k = Some child -> In (k, child) cs.
Proof.
  induction cs as [|[k0 v0] cs IH]; cbn [mapGet]; [discriminate|].
  key_cases k k0.
  - intros E. inversion E. now left.
  - intros G. right. now apply IH.
Qed.

Lemma iterNode_unfold nd prefix :
  iterNode nd prefix =
  match nd with
  | Leaf _ _ _ => [(prefix, nd)]
  | Branch children _ _ _ =>
      flat_map (fun e => iterNode (snd e) (prefix ++ [fst e])) children
  end.
Proof. destruct nd; reflexivity. Qed.

(** What the traversal yields: the leaves, each under the key that
    addresses it. *)
Lemma iterNode_spec nd : forall prefix key (n : Node V),
  wellFormed nd = true ->
  (In (key, n) (iterNode nd prefix) <->
   exists rel, key = prefix ++ rel /\ node nd rel = Normal (Some n)
               /\ isLeaf n = true).
Proof.
  induction nd as [v a s|cs a s c IH] using Node_induct; intros prefix key n W;
    rewrite iterNode_unfold.
  - split.
    + intros [E|[]]. inversion E; subst. exists []. rewrite app_nil_r. now repeat split.
    + intros [[|h t] [K [N L]]]; [|discriminate].
      rewrite app_nil_r in K. cbn [node] in N. inversion N; subst. now left.
  - apply wellFormed_Branch in W. destruct W as [ND [_ F]].
    rewrite Forall_forall in IH, F. split.
    + intros I. apply in_flat_map in I. destruct I as [[k child] [Ie I]].
      cbn [fst snd] in *.
      apply (IH _ Ie (prefix ++ [k]) key n (F _ Ie)) in I.
      destruct I as [rel [K [N L]]]. exists (k :: rel).
      rewrite <- app_assoc in K. cbn [app] in K.
      rewrite node_Branch, (In_mapGet _ _ _ ND Ie). now repeat split.
    + intros [[|h t] [K [N L]]].
      * cbn [node] in N. inversion N; subst. discriminate.
      * rewrite node_Branch in N. destruct (mapGet cs h) as [child|] eqn:G;
          [|discriminate].
        apply mapGet_In_key in G. apply in_flat_map. exists (h, child).
        split; [assumption|]. cbn [fst snd].
        apply (IH _ G (prefix ++ [h]) key n (F _ G)).
        exists t. rewrite <- app_assoc. now repeat split.
Qed.

Lemma iterNode_leaves nd : forall prefix kn,
  In kn (iterNode nd prefix) -> isLeaf (snd kn) = true.
Proof.
  induction nd as [v a s|cs a s c IH] using Node_induct; intros prefix kn I;
    rewrite iterNode_unfold in I.
  - destruct I as [E|[]]. now subst.
  - apply in_flat_map in I. destruct I as [e [Ie I]].
    rewrite Forall_forall in IH. exact (IH _ Ie _ _ I).
Qed.

(** Without a prune depth the units of eviction are the leaves, in the
    order of the iteration. *)
Lemma flatten_None_iterNode nd : forall prefix,
  flatten None nd prefix = map unitOf (iterNode nd prefix).
Proof.
  induction nd as [v a s|cs a s c IH] using Node_induct; intros prefix;
    rewrite flatten_unfold, iterNode_unfold; [reflexivity|].
  cbn [depthReached isLeaf orb].
  induction cs as [|e cs IHcs]; [reflexivity|].
  inversion IH as [|? ? He Hcs]; subst.
  cbn [flat_map]. rewrite map_app, He, (IHcs Hcs). reflexivity.
Qed.

Lemma pairwiseApart_NoDup (units : list (Unit V)) :
  pairwiseApart units -> NoDup (map unitKey units).
Proof.
  unfold pairwiseApart. induction 1 as [|u units F A IH]; cbn [map]; constructor;
    [|assumption].
  intros I. apply in_map_iff in I. destruct I as [u' [E I]].
  rewrite Forall_forall in F. destruct (F u' I) as [A1 _].
  rewrite E in A1. clear -A1.
  induction (unitKey u) as [|x l IHl]; [discriminate|].
  rewrite isPrefix_cons_same in A1. auto.
Qed.

Lemma iterNode_keys_NoDup nd prefix :
  wellFormed nd = true -> NoDup (map fst (iterNode nd prefix)).
Proof.
  intros W. pose proof (pairwiseApart_NoDup _ (flatten_pairwiseApart None nd prefix W)) as N.
  rewrite flatten_None_iterNode, map_map in N. exact N.
Qed.

Lemma keys_nodes c : keys c = map fst (CachePartial_nodes (rootPartial c)).
Proof.
  unfold keys, entries, CachePartial_nodes. cbn [rootPartial partialRoot].
  pose proof (iterNode_leaves (root c) []) as L.
  induction (iterNode (root c) []) as [|[k n] l IH]; [reflexivity|].
  cbn [flat_map map fst snd].
  assert (Ln : isLeaf n = true) by (apply (L (k, n)); now left).
  destruct n as [v a s|cs a s cnt]; [|discriminate].
  cbn [app map fst]. f_equal. apply IH. intros kn I. apply L. now right.
Qed.

Lemma In_entries c key (v : V) :
  wellFormed (root c) = true ->
  (In (key, v) (entries c) <->
   exists a s, node (root c) key = Normal (Some (Leaf v a s))).
Proof.
  intros W. unfold entries, CachePartial_nodes. cbn [rootPartial partialRoot].
  rewrite in_flat_map. split.
  - intros [[k n] [I E]]. cbn [fst snd] in E.
    apply (iterNode_spec (root c) [] k n W) in I. destruct I as [rel [K [N L]]].
    cbn [app] in K. subst rel.
    destruct n as [v0 a s|cs a s cnt]; [|contradiction].
    destruct E as [E|[]]. inversion E; subst. eauto.
  - intros [a [s N]]. exists (key, Leaf v a s). split; [|now left].
    apply (iterNode_spec (root c) [] key _ W). exists key. now repeat split.
Qed.

Lemma wellFormed_node p : forall rt (n : Node V),
  wellFormed rt = true -> node rt p = Normal (Some n) -> wellFormed n = true.
Proof.
  induction p as [|h t IH]; intros rt n W N.
  - cbn [node] in N. now inversion N; subst.
  - destruct rt as [v a s|cs a s cnt]; [discriminate|].
    rewrite node_Branch in N. destruct (mapGet cs h) as [child|] eqn:G; [|discriminate].
    exact (IH child n (wellFormed_child _ _ _ _ _ _ W G) N).
Qed.

Lemma entriesSize_nodes nd prefix :
  entriesSize (CachePartial_entries {| partialPrefix := prefix; partialRoot := nd |})
  = sumSizes (map unitOf (iterNode nd [])).
Proof.
  unfold CachePartial_entries, CachePartial_nodes. cbn [partialRoot].
  pose proof (iterNode_leaves nd []) as L.
  induction (iterNode nd []) as [|[k n] l IH]; [reflexivity|].
  assert (Ln : isLeaf n = true) by (apply (L (k, n)); now left).
  destruct n as [v a s|cs a s cnt]; [|discriminate].
  cbn [flat_map map fst snd app entriesSize fold_right sumSizes unitOf unitSize nodeSize].
  f_equal. apply IH. intros kn I. apply L. now right.
Qed.

Lemma In_CachePartial_entries nd prefix key (v : V) z :
  wellFormed nd = true ->
  (In (key, v, z)
      (CachePartial_entries {| partialPrefix := prefix; partialRoot := nd |}) <->
   exists a, node nd key = Normal (Some (Leaf v a z))).
Proof.
  intros W. unfold CachePartial_entries, CachePartial_nodes. cbn [partialRoot].
  rewrite in_flat_map. split.
  - intros [[k n] [I E]]. cbn [fst snd] in E.
    apply (iterNode_spec nd [] k n W) in I. destruct I as [rel [K [N L]]].
    cbn [app] in K. subst rel.
    destruct n as [v0 a s|cs a s cnt]; [|contradiction].
    destruct E as [E|[]]. inversion E; subst. eauto.
  - intros [a N]. exists (key, Leaf v a z). split; [|now left].
    apply (iterNode_spec nd [] key _ W). exists key. now repeat split.
Qed.

Lemma flatten_depth d nd : forall prefix (u : Unit V),
  (List.length prefix <= d)%nat -> In u (flatten (Some d) nd prefix) ->
  (List.length (unitKey u) <= d)%nat
  /\ ((List.length (unitKey u) < d)%nat -> exists v, unitSlot u = SlotValue v).
Proof.
  induction nd as [v a s|cs a s c IH] using Node_induct; intros prefix u Lp I;
    rewrite flatten_unfold in I.
  - cbn [isLeaf] in I. rewrite orb_true_r in I. destruct I as [E|[]]. subst u.
    cbn. split; [assumption|eauto].
  - cbn [isLeaf depthReached] in I. rewrite orb_false_r in I.
    destruct (Nat.leb_spec d (List.length prefix)) as [R|R].
    + destruct I as [E|[]]. subst u. cbn [unitKey fst]. split; [assumption|lia].
    + apply in_flat_map in I. destruct I as [e [Ie I]].
      rewrite Forall_forall in IH. apply (IH _ Ie (prefix ++ [fst e]) u); [|assumption].
      rewrite length_app. cbn [List.length]. lia.
Qed.

End Iteration.

(** ** Keys that address nothing, and keys that run through a leaf *)

Section EdgeKeys.
Context {V : Type}.
Variable sizeof : V -> Z.
Implicit Types (nd b rt child : Node V) (key p q t : list Primitive).
Implicit Types (cs : list (Primitive * Node V)) (h k : Primitive).

Lemma deleteImpl_absent key : forall b,
  node b key = Normal None -> deleteImpl b key = (Normal None, b).
Proof.
  induction key as [|h t IH]; intros b N; [discriminate|].
  destruct b as [v0 a0 s0|cs a s c]; [discriminate|].
  rewrite node_Branch in N. destruct t as [|h2 t2].
  - cbn [deleteImpl]. destruct (mapGet cs h); [discriminate|reflexivity].
  - rewrite deleteImpl_inner by discriminate.
    destruct (mapGet cs h) as [child|] eqn:G; [|reflexivity].
    rewrite (IH child N). now rewrite (mapSet_same _ _ _ G).
Qed.

Lemma node_throws key : forall b, crossesLeaf b key = true -> node b key = Throw TypeError.
Proof.
  induction key as [|h t IH]; intros b X; [discriminate|].
  destruct b as [v0 a0 s0|cs a s c]; [reflexivity|].
  cbn [crossesLeaf] in X. rewrite node_Branch.
  destruct (mapGet cs h) as [child|]; [now apply IH|discriminate].
Qed.

Lemma node_no_throw key : forall b,
  crossesLeaf b key = false -> forall e, node b key <> Throw e.
Proof.
  induction key as [|h t IH]; intros b X e; [discriminate|].
  destruct b as [v0 a0 s0|cs a s c]; [discriminate|].
  cbn [crossesLeaf] in X. rewrite node_Branch.
  destruct (mapGet cs h) as [child|]; [now apply IH|discriminate].
Qed.

Lemma node_crossesLeaf key b :
  crossesLeaf b key = false <-> exists o, node b key = Normal o.
Proof.
  split.
  - intros X. pose proof (node_no_throw key b X) as NT.
    destruct (node b key) as [o|e]; [eauto|]. exfalso. now apply (NT e).
  - intros [o N]. destruct (crossesLeaf b key) eqn:X; [|reflexivity].
    rewrite (node_throws key b X) in N. discriminate.
Qed.



(** A read changes nothing but access times, however it ends. *)
Lemma getImpl_eraseAtime key : forall nd u now,
  eraseAtime (snd (getImpl nd key u now)) = eraseAtime nd.
Proof.
  induction key as [|h t IH]; intros nd u now.
  - cbn [getImpl snd]. destruct u, nd; reflexivity.
  - destruct nd as [v a s|cs a s c].
    + cbn [getImpl snd]. rewrite touch_Leaf. reflexivity.
    + rewrite getImpl_Branch. destruct (mapGet cs h) as [child|] eqn:G;
        [|reflexivity].
      cbn [snd eraseAtime]. now rewrite (map_erase_mapSet _ _ _ _ G (IH child u now)).
Qed.

(** *** What an insertion and a deletion do to the sizes and counts *)

Lemma sizeAt_Branch cs a s c h t :
  sizeAt (Branch cs a s c) (h :: t) =
  match mapGet cs h with Some child => sizeAt child t | None => 0 end.
Proof. unfold sizeAt. rewrite node_Branch. destruct (mapGet cs h); reflexivity. Qed.

Lemma nothingAt_Branch cs a s c h t :
  nothingAt (Branch cs a s c) (h :: t) =
  match mapGet cs h with Some child => nothingAt child t | None => true end.
Proof. unfold nothingAt. rewrite node_Branch. destruct (mapGet cs h); reflexivity. Qed.

Lemma sizeAt_empty_Branch (a : Date) s c t : t <> [] -> sizeAt (Branch (V:=V) [] a s c) t = 0.
Proof. destruct t; [congruence|reflexivity]. Qed.

Lemma nothingAt_empty_Branch (a : Date) s c t :
  t <> [] -> nothingAt (Branch (V:=V) [] a s c) t = true.
Proof. destruct t; [congruence|reflexivity]. Qed.

(** What an insertion that goes ahead reports: the size of the value, the
    difference to the size stored before, and whether the key is new. *)
Lemma insertImpl_result key : forall b (v : V) d r,
  key <> [] -> crossesLeaf b key = false ->
  r = true \/ nothingAt b key = true ->
  fst (insertImpl sizeof b key v d r)
  = Normal (Some (sizeof v), sizeof v - sizeAt b key, nothingAt b key).
Proof.
  induction key as [|h t IH]; intros b v d r NE X G; [congruence|].
  destruct b as [v0 a0 s0|cs a s c]; [discriminate|].
  rewrite sizeAt_Branch, nothingAt_Branch in *. cbn [crossesLeaf] in X.
  destruct t as [|h2 t2].
  - cbn [insertImpl].
    destruct (mapGet cs h) as [e|] eqn:E; cbn [isSome negb andb].
    + unfold nothingAt, sizeAt in *. cbn [node] in *.
      destruct G as [G|G]; [subst r|discriminate]. reflexivity.
    + rewrite andb_false_r. reflexivity.
  - rewrite insertImpl_inner by discriminate.
    destruct (mapGet cs h) as [child|] eqn:E.
    + assert (NE0 : h2 :: t2 <> []) by discriminate.
      rewrite (surjective_pairing (insertImpl sizeof child (h2 :: t2) v d r)).
      rewrite (IH child v d r NE0 X G). reflexivity.
    + assert (X0 : crossesLeaf (Branch (V:=V) [] d 0 0) (h2 :: t2) = false)
        by reflexivity.
      assert (G0 : nothingAt (Branch (V:=V) [] d 0 0) (h2 :: t2) = true)
        by reflexivity.
      assert (NE0 : h2 :: t2 <> []) by discriminate.
      rewrite (surjective_pairing (insertImpl sizeof (Branch [] d 0 0) (h2 :: t2) v d r)).
      rewrite (IH (Branch [] d 0 0) v d r NE0 X0 (or_intror G0)).
      reflexivity.
Qed.

(** The root after an insertion: its size and count move by what the
    insertion reports. *)
Lemma insertImpl_root key cs a s c (v : V) d r sz diff ins :
  fst (insertImpl sizeof (Branch cs a s c) key v d r) = Normal (sz, diff, ins) ->
  nodeSize (snd (insertImpl sizeof (Branch cs a s c) key v d r)) = s + diff
  /\ nodeCount (snd (insertImpl sizeof (Branch cs a s c) key v d r))
     = c + if ins then 1 else 0.
Proof.
  destruct key as [|h t].
  - cbn [insertImpl fst snd nodeSize nodeCount]. intros E. inversion E. lia.
  - destruct t as [|h2 t2].
    + cbn [insertImpl]. destruct (negb r && isSome (mapGet cs h));
        cbn [fst snd nodeSize nodeCount]; intros E; inversion E; subst; lia.
    + rewrite insertImpl_inner by discriminate.
      destruct (mapGet cs h);
        match goal with
        | |- context [insertImpl sizeof ?b0 ?k0 v d r] =>
            destruct (insertImpl sizeof b0 k0 v d r) as [[[[sz' diff'] ins']|e] child']
        end; cbn [fst snd nodeSize nodeCount]; intros E; inversion E; subst;
        split; reflexivity.
Qed.

(** Along the path of an insertion that stored a value, every node is
    there afterwards and its size has moved by the reported difference. *)
Lemma insertImpl_sizes key : forall b (v : V) d r p sz diff ins,
  fst (insertImpl sizeof b key v d r) = Normal (Some sz, diff, ins) ->
  isPrefix p key = true ->
  exists n', node (snd (insertImpl sizeof b key v d r)) p = Normal (Some n')
             /\ nodeSize n' = sizeAt b p + diff.
Proof.
  induction key as [|h t IH]; intros b v d r p sz diff ins S P; [discriminate|].
  destruct b as [v0 a0 s0|cs a s c]; [discriminate|].
  destruct p as [|h' t'].
  - destruct (insertImpl_root _ _ _ _ _ _ _ _ _ _ _ S) as [E _].
    eexists. split; [reflexivity|]. exact E.
  - cbn [isPrefix] in P. apply andb_true_iff in P. destruct P as [E P].
    apply sameValueZero_eq in E. subst h'. rewrite sizeAt_Branch.
    destruct t as [|h2 t2].
    + destruct t' as [|h3 t3]; [|discriminate].
      cbn [insertImpl] in *. destruct (negb r && isSome (mapGet cs h)); [discriminate|].
      cbn [fst snd] in *. inversion S; subst.
      rewrite node_Branch, mapGet_mapSet_same. cbn [node]. eexists.
      split; [reflexivity|]. unfold sizeAt. cbn [node nodeSize].
      destruct (mapGet cs h); lia.
    + rewrite insertImpl_inner in * by discriminate.
      destruct (mapGet cs h) as [child|] eqn:G.
      * specialize (IH child v d r t').
        destruct (insertImpl sizeof child (h2 :: t2) v d r)
          as [[[[sz' diff'] ins']|e] child']; [|discriminate].
        cbn [fst snd] in *. inversion S; subst.
        rewrite node_Branch, mapGet_mapSet_same. eapply IH; eauto.
      * specialize (IH (Branch [] d 0 0) v d r t').
        destruct (insertImpl sizeof (Branch [] d 0 0) (h2 :: t2) v d r)
          as [[[[sz' diff'] ins']|e] child']; [|discriminate].
        cbn [fst snd] in *. inversion S; subst.
        rewrite node_Branch, mapGet_mapSet_same.
        destruct (IH _ _ _ eq_refl P) as [n' [N E]]. exists n'. split; [assumption|].
        rewrite E. destruct t' as [|h3 t3]; reflexivity.
Qed.

(** An insertion leaves the nodes beside its key as they are. *)
Lemma insertImpl_node_other key : forall b (v : V) d r q,
  apart key q -> node (snd (insertImpl sizeof b key v d r)) q = node b q.
Proof.
  induction key as [|h t IH]; intros b v d r q [A1 A2]; [discriminate|].
  destruct q as [|h' t']; [discriminate|].
  destruct b as [v0 a0 s0|cs a s c]; [reflexivity|].
  cbn [isPrefix] in A1, A2. rewrite (sameValueZero_sym h h') in A1.
  destruct t as [|h2 t2].
  - cbn [insertImpl]. destruct (negb r && isSome (mapGet cs h)); [reflexivity|].
    cbn [snd]. rewrite !node_Branch.
    destruct (sameValueZero h' h) eqn:E; [discriminate|].
    now rewrite mapGet_mapSet_other.
  - rewrite insertImpl_inner by discriminate.
    destruct (mapGet cs h) as [child|] eqn:G.
    + specialize (IH child v d r t').
      destruct (insertImpl sizeof child (h2 :: t2) v d r)
        as [[[[sz' diff'] ins']|e] child']; cbn [snd] in *; rewrite !node_Branch;
        (key_cases h' h;
         [rewrite mapGet_mapSet_same, G; apply IH; split; assumption
         |now rewrite mapGet_mapSet_other]).
    + specialize (IH (Branch [] d 0 0) v d r t').
      destruct (insertImpl sizeof (Branch [] d 0 0) (h2 :: t2) v d r)
        as [[[[sz' diff'] ins']|e] child']; cbn [snd] in *; rewrite !node_Branch;
        (key_cases h' h;
         [rewrite mapGet_mapSet_same, G, IH by (split; assumption);
          destruct t'; [discriminate|reflexivity]
         |now rewrite !mapGet_mapSet_other]).
Qed.

(** Above a deleted node every node stays, with its size and count less
    those of the deleted node. *)
Lemma deleteImpl_sizes key : forall b (x n : Node V) p,
  key <> [] -> node b key = Normal (Some x) ->
  isPrefix p key = true -> isPrefix key p = false ->
  node b p = Normal (Some n) ->
  exists n', node (snd (deleteImpl b key)) p = Normal (Some n')
             /\ nodeSize n' = nodeSize n - nodeSize x
             /\ nodeCount n' = nodeCount n - nodeCount x.
Proof.
  induction key as [|h t IH]; intros b x n p NE N P Q Np; [congruence|].
  destruct b as [v0 a0 s0|cs a s c]; [discriminate|].
  rewrite node_Branch in N. destruct (mapGet cs h) as [child|] eqn:G; [|discriminate].
  destruct p as [|h' t'].
  - cbn [node] in Np. inversion Np; subst n. destruct t as [|h2 t2].
    + cbn [deleteImpl]. rewrite G. cbn [node] in N. inversion N; subst.
      eexists. split; [reflexivity|]. split; reflexivity.
    + rewrite deleteImpl_inner by discriminate. rewrite G.
      pose proof (deleteImpl_found (h2 :: t2) child x ltac:(discriminate) N) as F.
      destruct (deleteImpl child (h2 :: t2)) as [r child']. cbn [fst] in F. subst r.
      eexists. split; [reflexivity|]. split; reflexivity.
  - cbn [isPrefix] in P, Q. apply andb_true_iff in P. destruct P as [E P].
    apply sameValueZero_eq in E. subst h'. rewrite sameValueZero_refl in Q.
    cbn [andb] in Q. rewrite node_Branch, G in Np.
    destruct t as [|h2 t2].
    + destruct t'; [discriminate Q|discriminate P].
    + rewrite deleteImpl_inner by discriminate. rewrite G.
      destruct (IH child x n t' ltac:(discriminate) N P Q Np) as [n' [N' E']].
      exists n'. split; [|assumption].
      destruct (deleteImpl child (h2 :: t2)) as [[[deleted|]|e] child'];
        cbn [snd] in *; now rewrite node_Branch, mapGet_mapSet_same.
Qed.

Lemma isPrefix_refl key : isPrefix key key = true.
Proof. induction key as [|h t IH]; [reflexivity|]. now rewrite isPrefix_cons_same. Qed.

(** The traversal of a node without its access times is the traversal of
    the node, without the access times. *)
Lemma iterNode_eraseAtime nd : forall prefix,
  iterNode (eraseAtime nd) prefix
  = map (fun kn => (fst kn, eraseAtime (snd kn))) (iterNode nd prefix).
Proof.
  induction nd as [v a s|cs a s c IH] using Node_induct; intros prefix;
    [reflexivity|].
  cbn [eraseAtime]. rewrite !iterNode_unfold.
  induction cs as [|e cs IHcs]; [reflexivity|].
  inversion IH as [|? ? He Hcs]; subst.
  cbn [map flat_map fst snd]. rewrite map_app, He, (IHcs Hcs). reflexivity.
Qed.

(** Under a deleted key nothing is left. *)
Lemma deleteImpl_node_key key : forall b,
  key <> [] -> crossesLeaf b key = false ->
  node (snd (deleteImpl b key)) key = Normal None.
Proof.
  intros b NE X. pose proof (deleteImpl_getImpl key b false 0 NE X) as G.
  now rewrite getImpl_untouched in G.
Qed.

End EdgeKeys.

(** ** What a user of the cache can rely on *)

Section Guarantees.
Context {V : Type}.
Variable sizeof : V -> Z.
Variable nullish : V -> bool.
Hypothesis sizeof_nonneg : forall v, 0 <= sizeof v.
Implicit Types (c : MemCache V) (key p q s : list Primitive).

(** X1.  In every state a cache can get into, iterating over the cache
    yields exactly the pairs of a key and the value [get] returns for it,
    and yields no key twice. *)
Theorem entries_are_what_get_finds c key (v : V) u now :
  reachable sizeof nullish c ->
  (In (key, v) (entries c) <-> fst (get c key u now) = Normal (Some v))
  /\ NoDup (keys c).
Proof.
  intros R. pose proof (reachable_wellFormed sizeof nullish sizeof_nonneg c R) as W.
  split.
  - rewrite (In_entries c key v W), get_unfold, getImpl_fst. cbn [fst]. split.
    + intros [a [z N]]. rewrite N. destruct u; reflexivity.
    + destruct (node (root c) key) as [[x|]|e]; try discriminate.
      destruct x as [v0 a z|cs a z cnt]; destruct u; cbn [setAtime];
        try discriminate; intros E; inversion E; subst; eauto.
  - rewrite keys_nodes. now apply iterNode_keys_NoDup.
Qed.

(** X2.  In every state a cache can get into, the sizes of the entries
    iterated through the root view add up to [size]; and the sizes of the
    entries iterated through the view [partial(p)] add up to the size the
    cache reports for [p]. *)
Theorem entry_sizes_add_up c p (view : CachePartial V) :
  reachable sizeof nullish c ->
  entriesSize (CachePartial_entries (rootPartial c)) = size c
  /\ (partial c p = Normal (Some view) ->
      MemCache_sizeof c p = Normal (Some (entriesSize (CachePartial_entries view)))).
Proof.
  intros R. pose proof (reachable_wellFormed sizeof nullish sizeof_nonneg c R) as W.
  split.
  - unfold rootPartial. rewrite entriesSize_nodes, <- flatten_None_iterNode.
    now apply flatten_sumSizes.
  - unfold partial, MemCache_sizeof, CachePartial_sizeof.
    cbn [rootPartial partialRoot partialPrefix app].
    destruct (node (root c) p) as [[n|]|e] eqn:N; try discriminate.
    destruct (isLeaf n); [discriminate|]. intros E. inversion E; subst view.
    rewrite entriesSize_nodes, <- flatten_None_iterNode.
    rewrite flatten_sumSizes; [reflexivity|]. exact (wellFormed_node p _ _ W N).
Qed.

(** X3.  In every state a cache can get into, the view [partial(p)] iterates
    over the entries the cache has under [p], with the keys relative to
    [p]: [(s, v, size)] is an entry of the view exactly when
    [(p ++ s, v, size)] is an entry of the cache. *)
Theorem view_entries_are_relative c p (view : CachePartial V) s (v : V) z :
  reachable sizeof nullish c ->
  partial c p = Normal (Some view) ->
  (In (s, v, z) (CachePartial_entries view) <->
   In (p ++ s, v, z) (CachePartial_entries (rootPartial c))).
Proof.
  intros R. pose proof (reachable_wellFormed sizeof nullish sizeof_nonneg c R) as W.
  unfold partial. destruct (node (root c) p) as [[n|]|e] eqn:N; try discriminate.
  destruct (isLeaf n); [discriminate|]. intros E. inversion E; subst view. clear E.
  unfold rootPartial.
  rewrite (In_CachePartial_entries n p s v z (wellFormed_node p _ _ W N)).
  rewrite (In_CachePartial_entries (root c) [] (p ++ s) v z W).
  now rewrite node_app, N.
Qed.

(** X4.  In every state a cache can get into, the units of eviction lie
    side by side and make up the whole cache: no key of a unit occurs
    twice and the sizes of the units add up to [size].  Without a prune
    depth the units are the entries, in the order of the iteration; with a
    prune depth [d] no unit has a key longer than [d], and a unit with a
    shorter key is a single entry. *)
Theorem eviction_units_partition c pd d (u : Unit V) :
  reachable sizeof nullish c ->
  NoDup (map unitKey (flatten pd (root c) []))
  /\ sumSizes (flatten pd (root c) []) = size c
  /\ flatten None (root c) [] = map unitOf (CachePartial_nodes (rootPartial c))
  /\ (In u (flatten (Some d) (root c) []) ->
      (List.length (unitKey u) <= d)%nat
      /\ ((List.length (unitKey u) < d)%nat -> exists v, unitSlot u = SlotValue v)).
Proof.
  intros R. pose proof (reachable_wellFormed sizeof nullish sizeof_nonneg c R) as W.
  split; [apply pairwiseApart_NoDup; now apply flatten_pairwiseApart|].
  split; [now apply flatten_sumSizes|].
  split; [apply flatten_None_iterNode|].
  apply flatten_depth. cbn [List.length]. lia.
Qed.

Lemma entries_eraseAtime c c' :
  eraseAtime (root c') = eraseAtime (root c) -> entries c' = entries c.
Proof.
  intros E.
  assert (H : forall rt : Node V,
    flat_map (fun kn => match snd kn with
                        | Leaf v _ _ => [(fst kn, v)]
                        | Branch _ _ _ _ => []
                        end) (iterNode (eraseAtime rt) [])
    = flat_map (fun kn => match snd kn with
                          | Leaf v _ _ => [(fst kn, v)]
                          | Branch _ _ _ _ => []
                          end) (iterNode rt [])).
  { intros rt. rewrite iterNode_eraseAtime.
    induction (iterNode rt []) as [|[k n] l IH]; [reflexivity|].
    cbn [map flat_map fst snd]. rewrite IH. now destruct n. }
  unfold entries, CachePartial_nodes. cbn [rootPartial partialRoot].
  now rewrite <- (H (root c')), E, H.
Qed.

(** X5.  A key that addresses nothing is never an error: when [sizeof(key)]
    is undefined, [get] and [atime] return undefined and [partial] returns
    null, and [deleteOne] and [deleteMany] leave the cache exactly as it
    is. *)
Theorem absent_key_is_harmless c key u now :
  MemCache_sizeof c key = Normal None ->
  fst (get c key u now) = Normal None
  /\ atime c key = Normal None
  /\ partial c key = Normal None
  /\ deleteOne c key = (Normal tt, c)
  /\ (forall ks, Forall (fun k => MemCache_sizeof c k = Normal None) ks ->
      deleteMany c ks = (Normal tt, c)).
Proof.
  assert (A : forall k, MemCache_sizeof c k = Normal None -> node (root c) k = Normal None).
  { intros k. unfold MemCache_sizeof, CachePartial_sizeof.
    cbn [rootPartial partialRoot partialPrefix app].
    destruct (node (root c) k) as [[n|]|e]; (discriminate || reflexivity). }
  assert (D : forall k, MemCache_sizeof c k = Normal None -> deleteOne c k = (Normal tt, c)).
  { intros k S. unfold deleteOne. rewrite (deleteImpl_absent k _ (A k S)).
    now rewrite withRoot_root. }
  intros S. pose proof (A key S) as N.
  split; [rewrite get_unfold, getImpl_fst, N; reflexivity|].
  split; [unfold atime, CachePartial_atime;
          cbn [rootPartial partialRoot partialPrefix app]; now rewrite N|].
  split; [unfold partial; now rewrite N|].
  split; [now apply D|].
  induction 1 as [|k ks Sk F IH]; [reflexivity|].
  cbn [deleteMany]. now rewrite (D k Sk).
Qed.


(** X7.  [get] changes nothing but access times, whatever the key and
    however the call ends: what is stored, every size and count and the
    entries of the iteration are as before. *)
Theorem get_changes_access_times_only c key u now :
  eraseAtime (root (snd (get c key u now))) = eraseAtime (root c)
  /\ entries (snd (get c key u now)) = entries c
  /\ size (snd (get c key u now)) = size c
  /\ count (snd (get c key u now)) = count c
  /\ options (snd (get c key u now)) = options c
  /\ lastPruneAt (snd (get c key u now)) = lastPruneAt c.
Proof.
  assert (E : eraseAtime (root (snd (get c key u now))) = eraseAtime (root c))
    by (rewrite get_unfold; apply getImpl_eraseAtime).
  split; [exact E|]. split; [now apply entries_eraseAtime|].
  split; [unfold size; now rewrite <- nodeSize_eraseAtime, E, nodeSize_eraseAtime|].
  split; [unfold count, CachePartial_count; cbn [rootPartial partialRoot];
          now rewrite <- nodeCount_eraseAtime, E, nodeCount_eraseAtime|].
  rewrite get_unfold. split; reflexivity.
Qed.

(** X8.  [deleteOne] of a key that addresses a node, leaf or branch, removes
    the node and takes its size and its leaf count off the root and off
    every node above it; the nodes beside the key stay as they are. *)
Theorem deleteOne_subtracts_subtree c key (x : Node V) p q sp :
  node (root c) key = Normal (Some x) -> key <> [] ->
  fst (deleteOne c key) = Normal tt
  /\ MemCache_sizeof (snd (deleteOne c key)) key = Normal None
  /\ size (snd (deleteOne c key)) = size c - nodeSize x
  /\ count (snd (deleteOne c key)) = count c - nodeCount x
  /\ (isPrefix p key = true -> isPrefix key p = false ->
      MemCache_sizeof c p = Normal (Some sp) ->
      MemCache_sizeof (snd (deleteOne c key)) p = Normal (Some (sp - nodeSize x)))
  /\ (apart key q -> node (root (snd (deleteOne c key))) q = node (root c) q).
Proof.
  intros N NE.
  assert (X : crossesLeaf (root c) key = false) by (apply node_crossesLeaf; eauto).
  assert (S : forall p0 n, isPrefix p0 key = true -> isPrefix key p0 = false ->
            node (root c) p0 = Normal (Some n) ->
            exists n', node (root (snd (deleteOne c key))) p0 = Normal (Some n')
                       /\ nodeSize n' = nodeSize n - nodeSize x
                       /\ nodeCount n' = nodeCount n - nodeCount x).
  { intros p0 n P Q Np. rewrite deleteOne_root.
    exact (deleteImpl_sizes key (root c) x n p0 NE N P Q Np). }
  assert (R : exists n', root (snd (deleteOne c key)) = n'
                         /\ nodeSize n' = nodeSize (root c) - nodeSize x
                         /\ nodeCount n' = nodeCount (root c) - nodeCount x).
  { destruct (S [] (root c) eq_refl) as [n' [N' E']]; [now destruct key|reflexivity|].
    cbn [node] in N'. inversion N'. eauto. }
  destruct R as [n' [Er [Es Ec]]].
  split.
  { unfold deleteOne. pose proof (deleteImpl_no_throw key (root c) X) as NT.
    destruct (deleteImpl (root c) key) as [[d|e] root']; [reflexivity|].
    exfalso. now apply (NT e). }
  split.
  { unfold MemCache_sizeof, CachePartial_sizeof.
    cbn [rootPartial partialRoot partialPrefix app].
    now rewrite deleteOne_root, (deleteImpl_node_key key _ NE X). }
  split; [unfold size; now rewrite Er|].
  split; [unfold count, CachePartial_count; cbn [rootPartial partialRoot];
          now rewrite Er|].
  split.
  - intros P Q. unfold MemCache_sizeof, CachePartial_sizeof.
    cbn [rootPartial partialRoot partialPrefix app].
    destruct (node (root c) p) as [[n|]|e] eqn:Np; try discriminate.
    intros E. inversion E; subst sp.
    destruct (S p n P Q Np) as [n1 [N1 [E1 _]]]. now rewrite N1, E1.
  - intros A. rewrite deleteOne_root. now apply deleteImpl_node_other.
Qed.

(** X9.  An [insertOne] that goes ahead (the key is not empty, runs through
    no stored value, and is new unless [replace] is set) and is followed by
    no eviction pass returns the size of the value; the size of the root and
    of every node on the path moves by that size less the size stored
    under the key before; the count of the root goes up by one exactly
    when the key addressed nothing; the nodes beside the key stay as they
    are. *)
Theorem insertOne_adds_difference c key (v : V) replace now p q :
  key <> [] -> crossesLeaf (root c) key = false ->
  replace = true \/ nothingAt (root c) key = true ->
  shouldAutoPrune (afterInsert sizeof c key v replace now) now = false ->
  fst (insertOne sizeof c key v replace now) = Normal (Some (sizeof v))
  /\ size (snd (insertOne sizeof c key v replace now))
     = size c + sizeof v - sizeAt (root c) key
  /\ count (snd (insertOne sizeof c key v replace now))
     = count c + (if nothingAt (root c) key then 1 else 0)
  /\ MemCache_sizeof (snd (insertOne sizeof c key v replace now)) key
     = Normal (Some (sizeof v))
  /\ (isPrefix p key = true ->
      MemCache_sizeof (snd (insertOne sizeof c key v replace now)) p
      = Normal (Some (sizeAt (root c) p + sizeof v - sizeAt (root c) key)))
  /\ (apart key q ->
      node (root (snd (insertOne sizeof c key v replace now))) q = node (root c) q).
Proof.
  intros NE X G Q. rewrite insertOne_quiet by assumption. cbn [fst snd].
  pose proof (insertImpl_result sizeof key (root c) v now replace NE X G) as R.
  assert (S : forall p0, isPrefix p0 key = true ->
            MemCache_sizeof (afterInsert sizeof c key v replace now) p0
            = Normal (Some (sizeAt (root c) p0 + sizeof v - sizeAt (root c) key))).
  { intros p0 P. unfold MemCache_sizeof, CachePartial_sizeof, afterInsert.
    cbn [rootPartial partialRoot partialPrefix app withRoot root].
    destruct (insertImpl_sizes sizeof key (root c) v now replace p0 _ _ _ R P)
      as [n' [N' E']].
    rewrite N', E'. do 2 f_equal. lia. }
  rewrite R. split; [reflexivity|].
  destruct (root c) as [v0 a0 s0|cs a s cnt] eqn:Er; [now destruct key|].
  destruct (insertImpl_root sizeof key cs a s cnt v now replace _ _ _ R) as [Es Ec].
  unfold afterInsert, size, count, CachePartial_count in *.
  cbn [rootPartial partialRoot withRoot root] in *. rewrite Er in *.
  split; [rewrite Es; cbn [nodeSize]; lia|].
  split; [rewrite Ec; reflexivity|].
  split.
  { rewrite (S key (isPrefix_refl key)). do 2 f_equal. lia. }
  split; [apply S|].
  intros A. now apply insertImpl_node_other.
Qed.

(** *** Automatic pruning *)

Lemma autoPruneStep_fits c now cap :
  wellFormed (root c) = true -> isBranch (root c) = true ->
  capacity (options c) = Some cap -> 0 <= cap ->
  autoPrune (options c) = true -> autoPruneInterval (options c) = None ->
  pruneDepth (options c) <> Some 0%nat ->
  size (snd (autoPruneStep c now)) <= cap.
Proof.
  intros W B C NN A I D. unfold autoPruneStep, shouldAutoPrune. rewrite A, C, I.
  cbn [negb]. destruct (Z.leb_spec (size c) cap) as [L|L]; [exact L|].
  pose proof (prune_evicts_oldest_until_fit c now cap W B C NN L D) as H.
  cbv zeta in H. destruct H as (_ & _ & _ & _ & _ & _ & _ & H).
  destruct (prune c now) as [[r|e] c']; exact H.
Qed.

(** X10.  With a capacity, automatic pruning without an interval and a prune
    depth other than zero, the cache is within its capacity after every
    [insertOne], however the call ends, and after every [insertMany] that
    returns. *)
Theorem automatic_pruning_keeps_capacity c key (v : V) replace now cap :
  reachable sizeof nullish c ->
  capacity (options c) = Some cap -> 0 <= cap ->
  autoPrune (options c) = true -> autoPruneInterval (options c) = None ->
  pruneDepth (options c) <> Some 0%nat ->
  size (snd (insertOne sizeof c key v replace now)) <= cap
  /\ (forall values tot,
        fst (insertMany sizeof c values replace now) = Normal tot ->
        size (snd (insertMany sizeof c values replace now)) <= cap).
Proof.
  intros R C NN A I D.
  pose proof (reachable_wellFormed sizeof nullish sizeof_nonneg c R) as W.
  pose proof (reachable_isBranch sizeof nullish c R) as B.
  split.
  - unfold insertOne.
    destruct (insertImpl_wellFormed sizeof sizeof_nonneg key (root c) v now replace W)
      as [W' _].
    pose proof (isBranch_insertImpl sizeof (root c) key v now replace) as B'.
    destruct (insertImpl sizeof (root c) key v now replace) as [r root'].
    cbn [snd] in *.
    pose proof (autoPruneStep_fits (withRoot c root') now cap W'
                  ltac:(cbn [withRoot root]; congruence) C NN A I D) as F.
    destruct (autoPruneStep (withRoot c root') now) as [f c']. exact F.
  - intros values tot. unfold insertMany.
    pose proof (insertManyLoop_kept sizeof (fun rt => wellFormed rt = true)
                  (fun rt k v0 d r Wr =>
                     proj1 (insertImpl_wellFormed sizeof sizeof_nonneg k rt v0 d r Wr))
                  values (root c) replace now 0 W) as W'.
    pose proof (insertManyLoop_kept sizeof (fun rt => isBranch rt = true)
                  (fun rt k v0 d r Br =>
                     eq_trans (isBranch_insertImpl sizeof rt k v0 d r) Br)
                  values (root c) replace now 0 B) as B'.
    destruct (insertManyLoop sizeof (root c) values replace now 0) as [[t|e] root'];
      [|discriminate].
    cbn [snd] in *.
    pose proof (autoPruneStep_fits (withRoot c root') now cap W' B' C NN A I D) as F.
    destruct (autoPruneStep (withRoot c root') now) as [[u0|e] c']; [|discriminate].
    intros _. exact F.
Qed.

Lemma prune_lastPruneAt c now :
  lastPruneAt (snd (prune c now)) = now /\ options (snd (prune c now)) = options c.
Proof.
  unfold prune. cbn [options root].
  destruct (capacity (options c)) as [cap|]; [|split; reflexivity].
  destruct (size _ <=? cap); [split; reflexivity|].
  destruct (pruneLoop cap _ _) as [r root']. split; reflexivity.
Qed.

(** X11.  [prune] records the time of the call whether or not it evicts
    anything, and with a pruning interval no automatic eviction pass runs
    before the interval has elapsed since that time: an [insertOne] within
    the interval only inserts. *)
Theorem pruning_interval_holds_off c key (v : V) replace now interval :
  autoPruneInterval (options c) = Some interval ->
  lastPruneAt (snd (prune c now)) = now
  /\ (forall now', now' - now < interval ->
        shouldAutoPrune (snd (prune c now)) now' = false)
  /\ (now - lastPruneAt c < interval ->
      snd (insertOne sizeof c key v replace now)
      = afterInsert sizeof c key v replace now).
Proof.
  intros I. destruct (prune_lastPruneAt c now) as [L O].
  split; [exact L|]. split.
  - intros now' H. unfold shouldAutoPrune. rewrite O, L, I.
    destruct (negb (autoPrune (options c))); [reflexivity|].
    destruct (capacity (options c)) as [cap|]; [|reflexivity].
    destruct (size _ <=? cap); [reflexivity|]. apply Z.leb_gt. lia.
  - intros H. rewrite insertOne_quiet; [reflexivity|].
    unfold shouldAutoPrune, afterInsert. cbn [withRoot options lastPruneAt]. rewrite I.
    destruct (negb (autoPrune (options c))); [reflexivity|].
    destruct (capacity (options c)) as [cap|]; [|reflexivity].
    destruct (size _ <=? cap); [reflexivity|]. apply Z.leb_gt. lia.
Qed.

(** *** Batches *)

Lemma insertManyLoop_total values : forall (rt : Node V) now total tot,
  Forall (fun entry => fst entry <> []) values ->
  fst (insertManyLoop sizeof rt values true now total) = Normal tot ->
  tot = total + batchSize sizeof values.
Proof.
  induction values as [|[key value] values IH]; intros rt now total tot NE S.
  - cbn in *. inversion S. lia.
  - inversion NE as [|? ? NEk NE']; subst. cbn [fst] in NEk.
    cbn [insertManyLoop batchSize fold_right snd] in *.
    pose proof (insertImpl_stores sizeof key rt value now) as St.
    destruct (insertImpl sizeof rt key value now true) as [[[[sz diff] ins]|e] rt1];
      [|discriminate].
    rewrite (St sz diff ins NEk eq_refl) in S.
    rewrite (IH rt1 now _ tot NE' S). fold (batchSize sizeof values). lia.
Qed.

Lemma insertManyLoop_run values : forall c replace now total tot,
  autoPrune (options c) = false \/ capacity (options c) = None ->
  fst (insertManyLoop sizeof (root c) values replace now total) = Normal tot ->
  withRoot c (snd (insertManyLoop sizeof (root c) values replace now total))
  = run sizeof nullish c
      (map (fun entry => (now, OpInsertOne (fst entry) (snd entry) replace)) values).
Proof.
  induction values as [|[key value] values IH]; intros c replace now total tot Q S.
  - cbn. apply withRoot_root.
  - cbn [insertManyLoop map run step fst snd] in *.
    assert (Q1 : shouldAutoPrune (afterInsert sizeof c key value replace now) now = false).
    { unfold shouldAutoPrune, afterInsert. cbn [withRoot options].
      destruct Q as [Q|Q]; rewrite Q; [reflexivity|].
      destruct (negb (autoPrune (options c))); reflexivity. }
    rewrite (insertOne_quiet sizeof c key value replace now Q1). cbn [snd].
    unfold afterInsert in *.
    destruct (insertImpl sizeof (root c) key value now replace)
      as [[[[sz diff] ins]|e] rt1]; [|discriminate].
    cbn [snd]. specialize (IH (withRoot c rt1) replace now _ tot Q S).
    cbn [withRoot root] in IH. rewrite <- IH. reflexivity.
Qed.

(** X12.  An [insertMany] that returns and replaces, with no empty key in
    the batch, returns the sizes of the values of the batch added up.  Where
    no eviction can follow (automatic pruning off, or no capacity), an
    [insertMany] that returns leaves the cache as the [insertOne] calls for
    its entries, made one after the other, leave it. *)
Theorem insertMany_is_repeated_insertOne c (values : list (list Primitive * V))
    replace now tot :
  fst (insertMany sizeof c values replace now) = Normal tot ->
  (replace = true -> Forall (fun entry => fst entry <> []) values ->
   tot = batchSize sizeof values)
  /\ (autoPrune (options c) = false \/ capacity (options c) = None ->
      snd (insertMany sizeof c values replace now)
      = run sizeof nullish c
          (map (fun entry => (now, OpInsertOne (fst entry) (snd entry) replace))
               values)).
Proof.
  unfold insertMany. intros S. split.
  - intros Er NE. subst replace.
    pose proof (insertManyLoop_total values (root c) now 0) as T.
    destruct (insertManyLoop sizeof (root c) values true now 0) as [[t|e] root'];
      [|discriminate].
    cbn [fst] in T. specialize (T t NE eq_refl).
    destruct (autoPruneStep (withRoot c root') now) as [[u0|e] c']; [|discriminate].
    cbn [fst] in S. inversion S. lia.
  - intros Q. pose proof (insertManyLoop_run values c replace now 0) as L.
    destruct (insertManyLoop sizeof (root c) values replace now 0) as [[t|e] root'];
      [|discriminate].
    cbn [fst snd] in L. specialize (L t Q eq_refl).
    assert (Q1 : shouldAutoPrune (withRoot c root') now = false).
    { unfold shouldAutoPrune. cbn [withRoot options].
      destruct Q as [Q|Q]; rewrite Q; [reflexivity|].
      destruct (negb (autoPrune (options c))); reflexivity. }
    unfold autoPruneStep. rewrite Q1. exact L.
Qed.

(** X13.  In every state a cache can get into, with a capacity that is not
    negative and below the size, and a prune depth other than zero: [prune]
    goes through the units in ascending order of access time, units with
    the same access time in the order of the traversal; it evicts the
    units from the front of that order while the size is above the
    capacity and no further, each eviction frees the size its unit records,
    and the size that is left is at or below the capacity. *)
Theorem prune_order_and_bound c now cap :
  reachable sizeof nullish c ->
  capacity (options c) = Some cap -> 0 <= cap -> cap < size c ->
  pruneDepth (options c) <> Some 0%nat ->
  StronglySorted olderOrEqual
    (sortByAtime (flatten (pruneDepth (options c)) (root c) []))
  /\ Permutation (sortByAtime (flatten (pruneDepth (options c)) (root c) []))
       (flatten (pruneDepth (options c)) (root c) [])
  /\ (forall t,
        touchedAt t (sortByAtime (flatten (pruneDepth (options c)) (root c) []))
        = touchedAt t (flatten (pruneDepth (options c)) (root c) []))
  /\ fst (prune c now)
     = Normal (map prunedEntry
                 (evictedUnits c cap))
  /\ (exists rest,
        sortByAtime (flatten (pruneDepth (options c)) (root c) [])
        = evictedUnits c cap ++ rest)
  /\ (forall pre u post,
        evictedUnits c cap
        = pre ++ u :: post ->
        cap < size c - sumSizes pre)
  /\ size (snd (prune c now))
     = size c - sumSizes (evictedUnits c cap)
  /\ size (snd (prune c now)) <= cap.
Proof.
  intros R C NN O D.
  exact (prune_evicts_oldest_until_fit c now cap
           (reachable_wellFormed sizeof nullish sizeof_nonneg c R)
           (reachable_isBranch sizeof nullish c R) C NN O D).
Qed.

(** *** [ensure] *)

Lemma insertImpl_node_key key : forall (b : Node V) (v : V) d r sz diff ins,
  fst (insertImpl sizeof b key v d r) = Normal (Some sz, diff, ins) ->
  node (snd (insertImpl sizeof b key v d r)) key = Normal (Some (Leaf v d sz)).
Proof.
  induction key as [|h t IH]; intros b v d r sz diff ins S; [discriminate|].
  destruct b as [v0 a0 s0|cs a s cnt]; [discriminate|].
  destruct t as [|h2 t2].
  - cbn [insertImpl] in *. destruct (negb r && isSome (mapGet cs h)); [discriminate|].
    cbn [fst snd] in *. inversion S; subst.
    now rewrite node_Branch, mapGet_mapSet_same.
  - rewrite insertImpl_inner in * by discriminate.
    destruct (mapGet cs h);
      match type of S with
      | context [insertImpl sizeof ?b0 ?k0 v d r] =>
          specialize (IH b0 v d r);
          destruct (insertImpl sizeof b0 k0 v d r) as [[[[sz' diff'] ins']|e] child']
      end; cbn [fst snd] in *; try discriminate; inversion S; subst;
      rewrite node_Branch, mapGet_mapSet_same; eapply IH; reflexivity.
Qed.

(** X14.  [ensure] on a key that addresses nothing, followed by no eviction
    pass, stores the value and returns it, and [get] then finds it; a
    second [ensure] on the key returns the first value and changes
    nothing. *)
Theorem ensure_inserts_once c key (v1 v2 : V) now now' u :
  key <> [] -> MemCache_sizeof c key = Normal None -> nullish v1 = false ->
  shouldAutoPrune (afterInsert sizeof c key v1 false now) now = false ->
  ensure sizeof nullish c key v1 now
  = (Normal v1, afterInsert sizeof c key v1 false now)
  /\ fst (get (afterInsert sizeof c key v1 false now) key u now') = Normal (Some v1)
  /\ ensure sizeof nullish (afterInsert sizeof c key v1 false now) key v2 now'
     = (Normal v1, afterInsert sizeof c key v1 false now).
Proof.
  intros NE S NN Q.
  assert (N : node (root c) key = Normal None).
  { unfold MemCache_sizeof, CachePartial_sizeof in S.
    cbn [rootPartial partialRoot partialPrefix app] in S.
    destruct (node (root c) key) as [[n|]|e]; (discriminate || reflexivity). }
  assert (X : crossesLeaf (root c) key = false) by (apply node_crossesLeaf; eauto).
  assert (G : nothingAt (root c) key = true) by (unfold nothingAt; now rewrite N).
  pose proof (insertImpl_result sizeof key (root c) v1 now false NE X (or_intror G)) as R.
  pose proof (insertImpl_node_key key (root c) v1 now false _ _ _ R) as K.
  assert (G1 : forall u0 t, fst (get (afterInsert sizeof c key v1 false now) key u0 t)
                            = Normal (Some v1)).
  { intros u0 t. rewrite get_unfold, getImpl_fst. unfold afterInsert.
    cbn [withRoot root fst]. rewrite K. destruct u0; reflexivity. }
  split; [|split; [apply G1|apply ensure_existing; [apply G1|assumption]]].
  unfold ensure. rewrite get_unfold, getImpl_untouched, N. cbn [fst snd]. rewrite withRoot_root.
  cbn [isNull]. rewrite (insertOne_quiet sizeof c key v1 false now Q), R. reflexivity.
Qed.

End Guarantees.

(** ** Keys of one length *)

Section FixedLengthKeys.
Context {V : Type}.
Variable sizeof : V -> Z.
Variable nullish : V -> bool.
Implicit Types (nd b : Node V) (c : MemCache V).

Lemma countedAt_Branch m cs a s cnt :
  countedAt m (Branch (V:=V) cs a s cnt) = true <->
  exists m', m = S m' /\ NoDup (mapKeys cs) /\ cnt = sumOver leafCount cs
             /\ Forall (fun e => countedAt m' (snd e) = true) cs.
Proof.
  destruct m as [|m']; cbn [countedAt].
  - split; [discriminate|]. intros [m' [E _]]. discriminate.
  - rewrite !andb_true_iff, distinctKeys_NoDup, Z.eqb_eq, forallb_forall.
    split.
    + intros [[N E] F]. exists m'. rewrite Forall_forall. auto.
    + intros [m0 [E [N [Ec F]]]]. inversion E; subst. rewrite Forall_forall in F. auto.
Qed.

Lemma countedAt_count m nd : countedAt m nd = true -> nodeCount nd = leafCount nd.
Proof.
  destruct nd as [v a s|cs a s cnt]; [reflexivity|].
  intros C. apply countedAt_Branch in C. destruct C as [m' [_ [_ [E _]]]].
  exact E.
Qed.

Lemma countedAt_child m cs a s cnt k (child : Node V) :
  countedAt (S m) (Branch cs a s cnt) = true -> mapGet cs k = Some child ->
  countedAt m child = true.
Proof.
  intros C G. apply countedAt_Branch in C. destruct C as [m' [E [_ [_ F]]]].
  inversion E; subst m'.
  destruct (Forall_mapGet _ _ _ _ F G) as [k' H]. exact H.
Qed.

Lemma countedAt_setAtime m nd (d : Date) : countedAt m (setAtime nd d) = countedAt m nd.
Proof. destruct nd, m; reflexivity. Qed.

Lemma nodeCount_setAtime nd (d : Date) : nodeCount (setAtime nd d) = nodeCount nd.
Proof. destruct nd; reflexivity. Qed.

(** Storing a counted child back under its key. *)
Lemma countedAt_store m cs a s cnt k (child : Node V) a' s' cnt' :
  countedAt (S m) (Branch cs a s cnt) = true ->
  countedAt m child = true ->
  cnt' = cnt - valueAt nodeCount (mapGet cs k) + nodeCount child ->
  countedAt (S m) (Branch (mapSet cs k child) a' s' cnt') = true.
Proof.
  intros C Cc E. pose proof C as C0.
  apply countedAt_Branch in C. destruct C as [m' [Em [N [S F]]]].
  inversion Em; subst m'.
  apply countedAt_Branch. exists m. split; [reflexivity|]. split; [|split].
  - now apply NoDup_mapSet.
  - rewrite sumOver_mapSet, <- (countedAt_count m child Cc), E, S.
    destruct (mapGet cs k) as [old|] eqn:G; cbn [valueAt]; [|lia].
    rewrite (countedAt_count m old (countedAt_child _ _ _ _ _ _ _ C0 G)). lia.
  - apply Forall_mapSet; auto.
Qed.

(** With keys of one length an insertion never meets a leaf on its way and
    never puts a leaf in the place of a branch. *)
Lemma insertImpl_countedAt key : forall b (v : V) d r,
  key <> [] -> countedAt (List.length key) b = true ->
  exists sz diff ins b',
    insertImpl sizeof b key v d r = (Normal (sz, diff, ins), b')
    /\ countedAt (List.length key) b' = true
    /\ nodeCount b' = nodeCount b + (if ins then 1 else 0).
Proof.
  induction key as [|h t IH]; intros b v d r NE C; [congruence|].
  destruct b as [v0 a0 s0|cs a s cnt]; [discriminate|].
  cbn [List.length] in *. destruct t as [|h2 t2].
  - cbn [insertImpl List.length] in *.
    destruct (mapGet cs h) as [e|] eqn:G; cbn [isSome negb andb].
    + pose proof (countedAt_child _ _ _ _ _ _ _ C G) as Ce.
      destruct e as [ve ae se|? ? ? ?]; [|discriminate].
      destruct r; cbn [negb andb].
      * do 4 eexists. split; [reflexivity|]. split; [|cbn [nodeCount]; lia].
        apply (countedAt_store _ cs a s cnt h _ _ _ _ C); [reflexivity|].
        rewrite G. cbn. lia.
      * do 4 eexists. split; [reflexivity|]. split; [assumption|lia].
    + rewrite andb_false_r.
      do 4 eexists. split; [reflexivity|]. split; [|cbn [nodeCount]; lia].
      apply (countedAt_store _ cs a s cnt h _ _ _ _ C); [reflexivity|].
      rewrite G. cbn. lia.
  - rewrite insertImpl_inner by discriminate.
    destruct (mapGet cs h) as [child|] eqn:G.
    + pose proof (countedAt_child _ _ _ _ _ _ _ C G) as Cc.
      destruct (IH child v d r ltac:(discriminate) Cc)
        as [sz [diff [ins [child' [E [C' N']]]]]].
      rewrite E. do 4 eexists. split; [reflexivity|]. split; [|cbn [nodeCount]; lia].
      apply (countedAt_store _ cs a s cnt h _ _ _ _ C C'). rewrite G. cbn [valueAt]. lia.
    + assert (Cf : countedAt (List.length (h2 :: t2)) (Branch (V:=V) [] d 0 0) = true)
        by reflexivity.
      destruct (IH _ v d r ltac:(discriminate) Cf)
        as [sz [diff [ins [child' [E [C' N']]]]]].
      assert (C1 : countedAt (S (List.length (h2 :: t2)))
                     (Branch (mapSet cs h (Branch [] d 0 0)) a s cnt) = true).
      { apply (countedAt_store _ cs a s cnt h _ _ _ _ C Cf). rewrite G. cbn. lia. }
      rewrite E. do 4 eexists. split; [reflexivity|]. split; [|cbn [nodeCount]; lia].
      apply (countedAt_store _ _ a s cnt h _ _ _ _ C1 C').
      rewrite mapGet_mapSet_same. cbn [valueAt nodeCount] in *. lia.
Qed.

Lemma deleteImpl_countedAt key : forall m b,
  countedAt m b = true ->
  countedAt m (snd (deleteImpl b key)) = true
  /\ nodeCount (snd (deleteImpl b key))
     = nodeCount b - match fst (deleteImpl b key) with
                     | Normal (Some deleted) => nodeCount deleted
                     | _ => 0
                     end.
Proof.
  induction key as [|h t IH]; intros m b C.
  - cbn. split; [assumption|lia].
  - destruct b as [v0 a0 s0|cs a s cnt]; [cbn; split; [assumption|lia]|].
    destruct m as [|m]; [discriminate|].
    destruct t as [|h2 t2].
    + cbn [deleteImpl]. destruct (mapGet cs h) as [entry|] eqn:G; cbn [fst snd].
      * split; [|cbn; lia].
        pose proof (countedAt_child _ _ _ _ _ _ _ C G) as Ce.
        apply countedAt_Branch in C. destruct C as [m' [Em [N [S F]]]].
        inversion Em; subst m'.
        apply countedAt_Branch. exists m. split; [reflexivity|]. split; [|split].
        -- now apply NoDup_mapDelete.
        -- rewrite sumOver_mapDelete by assumption. rewrite G. cbn [valueAt].
           rewrite (countedAt_count m entry Ce). lia.
        -- now apply Forall_mapDelete.
      * split; [assumption|lia].
    + rewrite deleteImpl_inner by discriminate.
      destruct (mapGet cs h) as [child|] eqn:G; [|cbn; split; [assumption|lia]].
      pose proof (countedAt_child _ _ _ _ _ _ _ C G) as Cc.
      destruct (IH m child Cc) as [C' N'].
      destruct (deleteImpl child (h2 :: t2)) as [[[deleted|]|e] child'];
        cbn [fst snd nodeCount] in *; (split; [|lia]);
        (apply (countedAt_store _ cs a s cnt h _ _ _ _ C C'); rewrite G;
         cbn [valueAt]; lia).
Qed.

Lemma getImpl_countedAt key : forall m nd u now,
  countedAt m nd = true ->
  countedAt m (snd (getImpl nd key u now)) = true
  /\ nodeCount (snd (getImpl nd key u now)) = nodeCount nd.
Proof.
  induction key as [|h t IH]; intros m nd u now C.
  - cbn. destruct u; cbn; rewrite ?countedAt_setAtime, ?nodeCount_setAtime; auto.
  - cbn [getImpl].
    assert (C1 : countedAt m (if u then setAtime nd now else nd) = true).
    { destruct u; rewrite ?countedAt_setAtime; assumption. }
    assert (N1 : nodeCount (if u then setAtime nd now else nd) = nodeCount nd).
    { destruct u; rewrite ?nodeCount_setAtime; reflexivity. }
    destruct (if u then setAtime nd now else nd) as [v0 a0 s0|cs a s cnt]; [auto|].
    destruct m as [|m]; [discriminate|].
    destruct (mapGet cs h) as [child|] eqn:G; [|auto].
    pose proof (countedAt_child _ _ _ _ _ _ _ C1 G) as Cc.
    destruct (IH m child u now Cc) as [C' N'].
    destruct (getImpl child t u now) as [res child']. cbn [fst snd nodeCount] in *.
    split; [|assumption].
    apply (countedAt_store _ cs a s cnt h _ _ _ _ C1 C'). rewrite G. cbn [valueAt]. lia.
Qed.

(** *** What the calls keep *)

Lemma autoPruneStep_countedAt m c now :
  countedAt m (root c) = true -> countedAt m (root (snd (autoPruneStep c now))) = true.
Proof.
  apply (autoPruneStep_kept (fun rt => countedAt m rt = true)).
  intros rt key C. now apply deleteImpl_countedAt.
Qed.

Lemma insertOne_countedAt n c key (v : V) replace now :
  n <> 0%nat -> List.length key = n -> countedAt n (root c) = true ->
  countedAt n (root (snd (insertOne sizeof c key v replace now))) = true.
Proof.
  intros N L C. subst n. unfold insertOne.
  destruct (insertImpl_countedAt key (root c) v now replace) as
    [sz [diff [ins [b' [E [C' _]]]]]]; [now destruct key|assumption|].
  rewrite E.
  pose proof (autoPruneStep_countedAt _ (withRoot c b') now C') as C''.
  destruct (autoPruneStep (withRoot c b') now) as [f c']. exact C''.
Qed.

Lemma insertManyLoop_countedAt n values : forall rt replace now total,
  n <> 0%nat -> keysOfLength n values = true -> countedAt n rt = true ->
  exists tot rt',
    insertManyLoop sizeof rt values replace now total = (Normal tot, rt')
    /\ countedAt n rt' = true.
Proof.
  induction values as [|[key value] values IH]; intros rt replace now total N K C.
  - cbn. eauto.
  - cbn [keysOfLength forallb fst] in K. apply andb_true_iff in K.
    destruct K as [L K]. apply Nat.eqb_eq in L. subst n.
    cbn [insertManyLoop].
    destruct (insertImpl_countedAt key rt value now replace) as
      [sz [diff [ins [b' [E [C' _]]]]]]; [now destruct key|assumption|].
    rewrite E. now apply IH.
Qed.

Lemma insertMany_countedAt n c values replace now :
  n <> 0%nat -> keysOfLength n values = true -> countedAt n (root c) = true ->
  countedAt n (root (snd (insertMany sizeof c values replace now))) = true.
Proof.
  intros N K C. unfold insertMany.
  destruct (insertManyLoop_countedAt n values (root c) replace now 0 N K C)
    as [tot [rt' [E C']]].
  rewrite E.
  pose proof (autoPruneStep_countedAt _ (withRoot c rt') now C') as C''.
  destruct (autoPruneStep (withRoot c rt') now) as [[u|e] c']; exact C''.
Qed.

Lemma get_countedAt m c key u now :
  countedAt m (root c) = true -> countedAt m (root (snd (get c key u now))) = true.
Proof.
  apply (get_kept (fun rt => countedAt m rt = true)).
  intros rt k u0 t C. now apply getImpl_countedAt.
Qed.

Lemma ensure_countedAt n c key (v : V) now :
  n <> 0%nat -> List.length key = n -> countedAt n (root c) = true ->
  countedAt n (root (snd (ensure sizeof nullish c key v now))) = true.
Proof.
  intros N L C. unfold ensure.
  pose proof (get_countedAt n c key false now C) as C1.
  destruct (get c key false now) as [[existing|e] c1]; [|assumption].
  destruct (isNull nullish existing); [|assumption].
  pose proof (insertOne_countedAt n c1 key v false now N L C1) as C2.
  destruct (insertOne sizeof c1 key v false now) as [[r|e] c2]; assumption.
Qed.

Lemma step_countedAt n c now (op : Op V) :
  n <> 0%nat -> keyed n op = true -> countedAt n (root c) = true ->
  countedAt n (root (step sizeof nullish c now op)) = true.
Proof.
  intros N K C. destruct op; cbn [step keyed] in *.
  - now apply get_countedAt.
  - apply insertOne_countedAt; [assumption|now apply Nat.eqb_eq|assumption].
  - now apply insertMany_countedAt.
  - apply ensure_countedAt; [assumption|now apply Nat.eqb_eq|assumption].
  - apply (deleteOne_kept (fun rt => countedAt n rt = true)); [|assumption].
    intros rt k Cr. now apply deleteImpl_countedAt.
  - apply (deleteMany_kept (fun rt => countedAt n rt = true)); [|assumption].
    intros rt k Cr. now apply deleteImpl_countedAt.
  - discriminate.
  - apply (prune_kept (fun rt => countedAt n rt = true)); [|assumption].
    intros rt k Cr. now apply deleteImpl_countedAt.
Qed.

Lemma run_countedAt n (calls : list (Date * Op V)) : forall c,
  n <> 0%nat -> forallb (fun call => keyed n (snd call)) calls = true ->
  countedAt n (root c) = true ->
  countedAt n (root (run sizeof nullish c calls)) = true.
Proof.
  induction calls as [|[now op] calls IH]; intros c N K C; [assumption|].
  cbn [forallb snd] in K. apply andb_true_iff in K. destruct K as [K1 K2].
  cbn [run]. apply IH; [assumption|assumption|]. now apply step_countedAt.
Qed.

Lemma reachableKeyed_countedAt n c :
  n <> 0%nat -> reachableKeyed sizeof nullish n c -> countedAt n (root c) = true.
Proof.
  intros N [opts [values [t0 [calls [K [Kc E]]]]]]. subst c.
  apply run_countedAt; [assumption|assumption|].
  unfold newMemCache. apply insertMany_countedAt; [assumption|assumption|].
  destruct n; [congruence|reflexivity].
Qed.

(** *** What a counted tree holds *)

Lemma leafCount_iterNode nd : forall prefix,
  leafCount nd = Z.of_nat (List.length (iterNode nd prefix)).
Proof.
  induction nd as [v a s|cs a s cnt IH] using Node_induct; intros prefix;
    rewrite iterNode_unfold; [reflexivity|].
  cbn [leafCount]. induction cs as [|[k child] cs IHcs]; [reflexivity|].
  inversion IH as [|? ? Hc Hcs]; subst. cbn [flat_map fst snd sumOver] in *.
  fold (sumOver (leafCount (V:=V)) cs).
  rewrite length_app, Nat2Z.inj_add, <- (Hc (prefix ++ [k])), <- (IHcs Hcs). reflexivity.
Qed.

Lemma iterNode_countedAt nd : forall m prefix kn,
  countedAt m nd = true -> In kn (iterNode nd prefix) ->
  List.length (fst kn) = (List.length prefix + m)%nat.
Proof.
  induction nd as [v a s|cs a s cnt IH] using Node_induct; intros m prefix kn C I;
    rewrite iterNode_unfold in I.
  - destruct m; [|discriminate]. destruct I as [E|[]]. subst kn. cbn. lia.
  - apply countedAt_Branch in C. destruct C as [m' [Em [_ [_ F]]]]. subst m.
    apply in_flat_map in I. destruct I as [e [Ie I]].
    rewrite Forall_forall in IH, F.
    rewrite (IH e Ie m' _ kn (F e Ie) I), length_app. cbn. lia.
Qed.

Lemma length_entries_nodes c :
  List.length (entries c) = List.length (CachePartial_nodes (rootPartial c)).
Proof.
  rewrite <- (length_map fst (entries c)). fold (keys c).
  now rewrite keys_nodes, length_map.
Qed.

Lemma length_CachePartial_entries (view : CachePartial V) :
  List.length (CachePartial_entries view) = List.length (CachePartial_nodes view).
Proof.
  unfold CachePartial_entries, CachePartial_nodes.
  pose proof (iterNode_leaves (partialRoot view) []) as L.
  induction (iterNode (partialRoot view) []) as [|[k n] l IH]; [reflexivity|].
  cbn [flat_map fst snd].
  assert (Ln : isLeaf n = true) by (apply (L (k, n)); now left).
  destruct n as [v a s|cs a s cnt]; [|discriminate].
  cbn [app List.length]. f_equal. apply IH. intros kn I. apply L. now right.
Qed.

Lemma countedAt_node p : forall m rt (x : Node V),
  countedAt m rt = true -> node rt p = Normal (Some x) ->
  exists m', countedAt m' x = true.
Proof.
  induction p as [|h t IH]; intros m rt x C N.
  - cbn in N. inversion N; subst. eauto.
  - destruct rt as [v0 a0 s0|cs a s cnt]; [discriminate|].
    rewrite node_Branch in N. destruct (mapGet cs h) as [child|] eqn:G; [|discriminate].
    destruct m as [|m]; [discriminate|].
    exact (IH m child x (countedAt_child _ _ _ _ _ _ _ C G) N).
Qed.

Lemma countedAt_crossesLeaf key : forall m b,
  countedAt m b = true -> (List.length key <= m)%nat -> crossesLeaf b key = false.
Proof.
  induction key as [|h t IH]; intros m b C L; [reflexivity|].
  cbn [List.length] in L.
  destruct b as [v0 a0 s0|cs a s cnt]; [destruct m; [lia|discriminate]|].
  destruct m as [|m]; [discriminate|].
  cbn [crossesLeaf]. destruct (mapGet cs h) as [child|] eqn:G; [|reflexivity].
  apply (IH m child (countedAt_child _ _ _ _ _ _ _ C G)). lia.
Qed.

Lemma deleteImpl_returns key : forall b,
  crossesLeaf b key = false -> exists o, fst (deleteImpl b key) = Normal o.
Proof.
  induction key as [|h t IH]; intros b X; [cbn; eauto|].
  destruct b as [v0 a0 s0|cs a s cnt]; [discriminate|].
  cbn [crossesLeaf] in X. destruct t as [|h2 t2].
  - cbn [deleteImpl]. destruct (mapGet cs h); cbn; eauto.
  - rewrite deleteImpl_inner by discriminate.
    destruct (mapGet cs h) as [child|]; [|cbn; eauto].
    destruct (IH child X) as [o E].
    destruct (deleteImpl child (h2 :: t2)) as [[[deleted|]|e] child'];
      cbn [fst] in *; (discriminate || eauto).
Qed.

Lemma flatten_countedAt pd nd : forall m prefix (u : Unit V),
  countedAt m nd = true -> In u (flatten pd nd prefix) ->
  (List.length (unitKey u) <= List.length prefix + m)%nat.
Proof.
  induction nd as [v a s|cs a s cnt IH] using Node_induct; intros m prefix u C I;
    rewrite flatten_unfold in I.
  - cbn [isLeaf] in I. rewrite orb_true_r in I. destruct I as [E|[]]. subst u.
    cbn. lia.
  - cbn [isLeaf] in I. rewrite orb_false_r in I.
    destruct (depthReached pd prefix).
    + destruct I as [E|[]]. subst u. cbn. lia.
    + apply countedAt_Branch in C. destruct C as [m' [Em [_ [_ F]]]]. subst m.
      apply in_flat_map in I. destruct I as [e [Ie I]].
      rewrite Forall_forall in IH, F.
      pose proof (IH e Ie m' _ u (F e Ie) I) as H. rewrite length_app in H.
      cbn [List.length] in H. lia.
Qed.

Lemma pruneLoop_no_throw cap (units : list (Unit V)) : forall m rt,
  countedAt m rt = true ->
  Forall (fun u => (List.length (unitKey u) <= m)%nat) units ->
  exists pruned, fst (pruneLoop cap rt units) = Normal pruned.
Proof.
  induction units as [|[[[key value] at0] sz] units IH]; intros m rt C F;
    [cbn; eauto|].
  inversion F as [|? ? Fk F']; subst. cbn in Fk.
  cbn [pruneLoop]. destruct (nodeSize rt <=? cap); [cbn; eauto|].
  destruct (deleteImpl_returns key rt (countedAt_crossesLeaf key m rt C Fk)) as [o E].
  pose proof (proj1 (deleteImpl_countedAt key m rt C)) as C'.
  destruct (deleteImpl rt key) as [[d|e] rt']; cbn [fst snd] in *; [|discriminate].
  destruct (IH m rt' C' F') as [pruned E'].
  destruct (pruneLoop cap rt' units) as [[pr|e] rt'']; cbn [fst] in *;
    [eauto|discriminate].
Qed.

Lemma prune_no_throw m c now :
  countedAt m (root c) = true -> exists pruned, fst (prune c now) = Normal pruned.
Proof.
  intros C. unfold prune. cbn [options root].
  destruct (capacity (options c)) as [cap|]; [|cbn; eauto].
  destruct (size _ <=? cap); [cbn; eauto|].
  destruct (pruneLoop_no_throw cap
              (sortByAtime (flatten (pruneDepth (options c)) (root c) [])) m (root c) C)
    as [pruned E].
  { apply (Permutation_Forall
             (Permutation_sym (sortByAtime_Permutation _))).
    apply Forall_forall. intros u I.
    exact (flatten_countedAt _ (root c) m [] u C I). }
  destruct (pruneLoop cap (root c) _) as [r root']. cbn [fst] in *. eauto.
Qed.

Lemma autoPruneStep_no_throw m c now :
  countedAt m (root c) = true -> fst (autoPruneStep c now) = Normal tt.
Proof.
  intros C. unfold autoPruneStep. destruct (shouldAutoPrune c now); [|reflexivity].
  destruct (prune_no_throw m c now C) as [pruned E].
  destruct (prune c now) as [[r|e] c']; [reflexivity|discriminate].
Qed.

Lemma insertOne_no_throw n c key (v : V) replace now :
  n <> 0%nat -> List.length key = n -> countedAt n (root c) = true ->
  exists sz, fst (insertOne sizeof c key v replace now) = Normal sz.
Proof.
  intros N L C. subst n. unfold insertOne.
  destruct (insertImpl_countedAt key (root c) v now replace) as
    [sz [diff [ins [b' [E [C' _]]]]]]; [now destruct key|assumption|].
  rewrite E.
  pose proof (autoPruneStep_no_throw _ (withRoot c b') now C') as A.
  destruct (autoPruneStep (withRoot c b') now) as [f c']. cbn [fst] in *. subst f.
  eauto.
Qed.

Lemma get_no_throw n c key u now :
  countedAt n (root c) = true -> (List.length key <= n)%nat ->
  exists r, fst (get c key u now) = Normal r.
Proof.
  intros C L. rewrite get_unfold, getImpl_fst. cbn [fst].
  pose proof (node_no_throw key (root c) (countedAt_crossesLeaf key n _ C L)) as NT.
  destruct (node (root c) key) as [[x|]|e]; [| |exfalso; now apply (NT e)].
  - destruct (if u then setAtime x now else x); eauto.
  - eauto.
Qed.

Lemma deleteMany_no_throw n ks : forall c,
  countedAt n (root c) = true ->
  Forall (fun key => (List.length key <= n)%nat) ks ->
  fst (deleteMany c ks) = Normal tt.
Proof.
  induction ks as [|k ks IH]; intros c C F; [reflexivity|].
  inversion F as [|? ? Fk F']; subst. cbn [deleteMany]. unfold deleteOne.
  destruct (deleteImpl_returns k (root c) (countedAt_crossesLeaf k n _ C Fk)) as [o E].
  pose proof (proj1 (deleteImpl_countedAt k n (root c) C)) as C'.
  destruct (deleteImpl (root c) k) as [[d|e] rt']; cbn [fst snd] in *; [|discriminate].
  now apply IH.
Qed.

(** X15.  While every key written has the same number [n] of components,
    as the key type of a cache fixes it, and [clear] is not called, [count]
    is the number of entries, every entry lies under a key of [n]
    components, and every view counts its own entries. *)
Theorem fixed_length_keys_count n c :
  n <> 0%nat -> reachableKeyed sizeof nullish n c ->
  count c = Z.of_nat (List.length (entries c))
  /\ (forall key v, In (key, v) (entries c) -> List.length key = n)
  /\ (forall p view, partial c p = Normal (Some view) ->
       CachePartial_count view
       = Z.of_nat (List.length (CachePartial_entries view))).
Proof.
  intros N R. pose proof (reachableKeyed_countedAt n c N R) as C.
  split; [|split].
  - unfold count, CachePartial_count. cbn [rootPartial partialRoot].
    rewrite (countedAt_count n _ C), length_entries_nodes.
    apply leafCount_iterNode.
  - intros key v I. unfold entries in I. apply in_flat_map in I.
    destruct I as [[k x] [I E]]. cbn [fst snd] in E.
    destruct x as [v0 a s|cs a s cnt]; [|contradiction].
    destruct E as [E|[]]. inversion E; subst.
    exact (iterNode_countedAt (root c) n [] _ C I).
  - intros p view P. unfold partial in P.
    destruct (node (root c) p) as [[x|]|e] eqn:Np; try discriminate.
    destruct (isLeaf x); [discriminate|]. inversion P; subst view.
    destruct (countedAt_node p n (root c) x C Np) as [m' Cx].
    unfold CachePartial_count. cbn [partialRoot].
    rewrite (countedAt_count m' x Cx), length_CachePartial_entries.
    apply leafCount_iterNode.
Qed.

(** X16.  While every key written has the same number [n] of components
    and [clear] is not called, no call with keys of at most [n] components,
    and with keys of [n] components where it writes, raises an error:
    neither the reads, nor the insertions with the eviction pass that may
    follow them, nor the deletions, nor [prune]. *)
Theorem fixed_length_keys_never_raise n c :
  n <> 0%nat -> reachableKeyed sizeof nullish n c ->
  (forall key, (List.length key <= n)%nat ->
     (forall u now, exists r, fst (get c key u now) = Normal r)
     /\ (exists r, MemCache_sizeof c key = Normal r)
     /\ (exists r, atime c key = Normal r)
     /\ (exists r, partial c key = Normal r)
     /\ fst (deleteOne c key) = Normal tt)
  /\ (forall key v replace now, List.length key = n ->
       (exists r, fst (insertOne sizeof c key v replace now) = Normal r)
       /\ (exists r, fst (ensure sizeof nullish c key v now) = Normal r))
  /\ (forall values replace now, keysOfLength n values = true ->
       exists total, fst (insertMany sizeof c values replace now) = Normal total)
  /\ (forall ks, Forall (fun key => (List.length key <= n)%nat) ks ->
       fst (deleteMany c ks) = Normal tt)
  /\ (forall now, exists pruned, fst (prune c now) = Normal pruned).
Proof.
  intros N R. pose proof (reachableKeyed_countedAt n c N R) as C.
  split; [|split; [|split; [|split]]].
  - intros key L.
    pose proof (node_no_throw key (root c) (countedAt_crossesLeaf key n _ C L)) as NT.
    split; [intros u now; now apply (get_no_throw n)|].
    unfold MemCache_sizeof, atime, CachePartial_sizeof, CachePartial_atime, partial.
    cbn [rootPartial partialRoot partialPrefix app].
    split; [|split; [|split]].
    + destruct (node (root c) key) as [[x|]|e]; eauto. exfalso; now apply (NT e).
    + destruct (node (root c) key) as [[x|]|e]; eauto. exfalso; now apply (NT e).
    + destruct (node (root c) key) as [[x|]|e]; eauto; [|exfalso; now apply (NT e)].
      destruct (isLeaf x); eauto.
    + unfold deleteOne.
      destruct (deleteImpl_returns key (root c) (countedAt_crossesLeaf key n _ C L))
        as [o E].
      destruct (deleteImpl (root c) key) as [[d|e] rt']; [reflexivity|discriminate].
  - intros key v replace now L. split; [now apply (insertOne_no_throw n)|].
    unfold ensure.
    destruct (get_no_throw n c key false now C ltac:(lia)) as [r G].
    pose proof (get_countedAt n c key false now C) as C1.
    destruct (get c key false now) as [[existing|e] c1]; cbn [fst snd] in *;
      [|discriminate].
    destruct (isNull nullish existing); [|cbn; eauto].
    destruct (insertOne_no_throw n c1 key v false now N L C1) as [sz I].
    destruct (insertOne sizeof c1 key v false now) as [[r0|e] c2]; cbn [fst] in *;
      [eauto|discriminate].
  - intros values replace now K. unfold insertMany.
    destruct (insertManyLoop_countedAt n values (root c) replace now 0 N K C)
      as [tot [rt' [E C']]].
    rewrite E.
    pose proof (autoPruneStep_no_throw _ (withRoot c rt') now C') as A.
    destruct (autoPruneStep (withRoot c rt') now) as [[u|e] c']; cbn [fst] in *;
      [eauto|discriminate].
  - intros ks F. now apply (deleteMany_no_throw n).
  - intros now. now apply (prune_no_throw n).
Qed.

End FixedLengthKeys.

(** ** What removals leave *)

Section Removal.
Context {V : Type}.
Variable sizeof : V -> Z.
Variable nullish : V -> bool.
Hypothesis sizeof_nonneg : forall v, 0 <= sizeof v.
Implicit Types (nd b rt : Node V) (c : MemCache V).

Lemma In_mapSet_found (cs : list (Primitive * Node V)) k old v e :
  mapGet cs k = Some old -> In e (mapSet cs k v) ->
  In e cs \/ (snd e = v /\ In (fst e, old) cs).
Proof.
  induction cs as [|[k0 v0] cs IH]; intros G I; [discriminate|].
  cbn [mapGet mapSet] in *. destruct (sameValueZero k k0).
  - inversion G; subst. destruct I as [E|I]; [|left; now right].
    subst e. right. split; [reflexivity|now left].
  - destruct I as [E|I]; [left; now left|].
    destruct (IH G I) as [H|[H1 H2]]; [left; now right|right; split; [assumption|now right]].
Qed.

Lemma iterNode_deleteImpl key : forall b prefix kn,
  In kn (iterNode (snd (deleteImpl b key)) prefix) -> In kn (iterNode b prefix).
Proof.
  induction key as [|h t IH]; intros b prefix kn I; [exact I|].
  destruct b as [v0 a0 s0|cs a s cnt]; [exact I|].
  destruct t as [|h2 t2].
  - cbn [deleteImpl] in I. destruct (mapGet cs h) as [entry|]; [|exact I].
    cbn [snd] in I. rewrite iterNode_unfold in *.
    apply in_flat_map in I. destruct I as [e [Ie I]].
    apply In_mapDelete in Ie. apply in_flat_map. exists e. tauto.
  - rewrite deleteImpl_inner in I by discriminate.
    destruct (mapGet cs h) as [child|] eqn:G; [|exact I].
    specialize (IH child).
    assert (S : forall a' s' cnt',
              In kn (iterNode (Branch (mapSet cs h (snd (deleteImpl child (h2 :: t2))))
                                a' s' cnt') prefix) ->
              In kn (iterNode (Branch cs a s cnt) prefix)).
    { intros a' s' cnt' J. rewrite iterNode_unfold in *.
      apply in_flat_map in J. destruct J as [e [Ie J]]. apply in_flat_map.
      destruct (In_mapSet_found cs h child _ e G Ie) as [H|[H1 H2]]; [eauto|].
      exists (fst e, child). split; [assumption|]. cbn [fst snd].
      apply IH. now rewrite <- H1. }
    destruct (deleteImpl child (h2 :: t2)) as [[[d|]|e] child']; cbn [snd] in *;
      exact (S _ _ _ I).
Qed.

Lemma entries_of_nodes rt rt' :
  (forall kn, In kn (iterNode rt' []) -> In kn (iterNode rt []))  ->
  forall e,
    In e (CachePartial_entries {| partialPrefix := []; partialRoot := rt' |}) ->
    In e (CachePartial_entries {| partialPrefix := []; partialRoot := rt |}).
Proof.
  intros H e. unfold CachePartial_entries, CachePartial_nodes. cbn [partialRoot].
  rewrite !in_flat_map. intros [kn [I E]]. exists kn. split; [now apply H|assumption].
Qed.

(** X17.  Deleting and pruning never add or change an entry: every entry
    (key, value and size) the cache holds after [deleteOne], [deleteMany]
    or [prune], however the call ends, it held before. *)
Theorem removal_never_adds c (e : list Primitive * V * Z) :
  (forall key,
     In e (CachePartial_entries (rootPartial (snd (deleteOne c key)))) ->
     In e (CachePartial_entries (rootPartial c)))
  /\ (forall ks,
       In e (CachePartial_entries (rootPartial (snd (deleteMany c ks)))) ->
       In e (CachePartial_entries (rootPartial c)))
  /\ (forall now,
       In e (CachePartial_entries (rootPartial (snd (prune c now)))) ->
       In e (CachePartial_entries (rootPartial c))).
Proof.
  assert (D : forall rt key,
            (forall kn, In kn (iterNode rt []) -> In kn (iterNode (root c) [])) ->
            forall kn, In kn (iterNode (snd (deleteImpl rt key)) []) ->
                       In kn (iterNode (root c) [])).
  { intros rt key H kn I. apply H. now apply (iterNode_deleteImpl key rt). }
  unfold rootPartial. split; [|split].
  - intros key. apply entries_of_nodes.
    apply (deleteOne_kept
             (fun rt => forall kn, In kn (iterNode rt []) -> In kn (iterNode (root c) []))
             D c key). auto.
  - intros ks. apply entries_of_nodes.
    apply (deleteMany_kept
             (fun rt => forall kn, In kn (iterNode rt []) -> In kn (iterNode (root c) []))
             D ks c). auto.
  - intros now. apply entries_of_nodes.
    apply (prune_kept
             (fun rt => forall kn, In kn (iterNode rt []) -> In kn (iterNode (root c) []))
             D c now). auto.
Qed.

Lemma apart_sym (p q : list Primitive) : apart p q -> apart q p.
Proof. intros [A1 A2]. split; assumption. Qed.

Lemma evictPlan_In cap (units : list (Unit V)) sz u :
  In u (evictPlan cap sz units) -> In u units.
Proof.
  intros I. destruct (evictPlan_prefix cap units sz) as [rest E].
  rewrite E. apply in_or_app. now left.
Qed.

Lemma pruneLoop_nodes cap (units : list (Unit V)) : forall rt,
  wellFormed rt = true -> Forall (resolves rt) units -> pairwiseApart units ->
  (forall u, In u (evictPlan cap (nodeSize rt) units) ->
     node (snd (pruneLoop cap rt units)) (unitKey u) = Normal None)
  /\ (forall q,
       (forall u, In u (evictPlan cap (nodeSize rt) units) -> apart (unitKey u) q) ->
       node (snd (pruneLoop cap rt units)) q = node rt q).
Proof.
  induction units as [|u units IH]; intros rt W R A.
  - cbn. split; [intros u []|reflexivity].
  - destruct u as [[[key value] at0] sz]. cbn [pruneLoop evictPlan].
    destruct (nodeSize rt <=? cap); [cbn; split; [intros u []|reflexivity]|].
    inversion R as [|? ? [NE [x [N S]]] R']; subst.
    inversion A as [|? ? A1 A']; subst.
    cbn [unitKey unitSize fst snd] in *.
    pose proof (deleteImpl_found key rt x NE N) as D.
    destruct (deleteImpl_wellFormed key rt W) as [W' S'].
    assert (R1 : Forall (resolves (snd (deleteImpl rt key))) units).
    { rewrite Forall_forall in *. intros u' I.
      destruct (R' u' I) as [NE' [x' [N' E']]]. split; [assumption|].
      exists x'. split; [|assumption].
      rewrite deleteImpl_node_other; [assumption|]. exact (A1 u' I). }
    assert (X : crossesLeaf rt key = false) by (apply node_crossesLeaf; eauto).
    pose proof (deleteImpl_node_key key rt NE X) as K.
    pose proof (deleteImpl_node_other key rt) as O.
    rewrite D in S'. cbn [removedSize] in S'.
    destruct (deleteImpl rt key) as [r rt']. cbn [fst snd] in *. subst r.
    destruct (IH rt' W' R1 A') as [Ha Hb]. rewrite S', S in *.
    assert (E : snd (match pruneLoop cap rt' units with
                     | (Normal pruned, rt'') => (Normal ((key, value, sz) :: pruned), rt'')
                     | (Throw e, rt'') => (Throw e, rt'')
                     end) = snd (pruneLoop cap rt' units)).
    { destruct (pruneLoop cap rt' units) as [[pruned|e] rt'']; reflexivity. }
    rewrite E. rewrite Forall_forall in A1. split.
    + intros u [Eu|I]; [|now apply Ha]. subst u. cbn [unitKey fst].
      rewrite Hb; [exact K|]. intros u' I. apply apart_sym, A1.
      eapply evictPlan_In; exact I.
    + intros q H. rewrite Hb.
      * apply O. exact (H _ (or_introl eq_refl)).
      * intros u' I. apply H. now right.
Qed.

(** X18.  In every state a cache can get into, over a capacity that is not
    negative and with a prune depth other than zero, [prune] removes the
    units it evicts and nothing else: nothing is left under the key of an
    evicted unit, and every key that neither lies under such a key nor
    above it addresses what it addressed before, with the same size,
    access time and value. *)
Theorem prune_removes_the_evicted_units c now cap :
  reachable sizeof nullish c ->
  capacity (options c) = Some cap -> 0 <= cap -> cap < size c ->
  pruneDepth (options c) <> Some 0%nat ->
  (forall u, In u (evictedUnits c cap) ->
     MemCache_sizeof (snd (prune c now)) (unitKey u) = Normal None
     /\ forall upd now',
          fst (get (snd (prune c now)) (unitKey u) upd now') = Normal None)
  /\ (forall q,
       (forall u, In u (evictedUnits c cap) -> apart (unitKey u) q) ->
       MemCache_sizeof (snd (prune c now)) q = MemCache_sizeof c q
       /\ atime (snd (prune c now)) q = atime c q
       /\ forall now',
            fst (get (snd (prune c now)) q false now') = fst (get c q false now')).
Proof.
  intros Rc C NN O D.
  pose proof (reachable_wellFormed sizeof nullish sizeof_nonneg c Rc) as W.
  pose proof (reachable_isBranch sizeof nullish c Rc) as B.
  set (flattened := flatten (pruneDepth (options c)) (root c) []).
  assert (R : Forall (resolves (root c)) (sortByAtime flattened)).
  { apply (Permutation_Forall (Permutation_sym (sortByAtime_Permutation flattened))).
    subst flattened. destruct (root c) as [v a s|cs a s cnt]; [discriminate|].
    now apply flatten_root_resolves. }
  assert (A : pairwiseApart (sortByAtime flattened)).
  { apply pairwiseApart_sortByAtime. now apply flatten_pairwiseApart. }
  destruct (pruneLoop_nodes cap (sortByAtime flattened) (root c) W R A) as [Ha Hb].
  assert (P : root (snd (prune c now))
              = snd (pruneLoop cap (root c) (sortByAtime flattened))).
  { unfold prune. cbn [options root]. rewrite C.
    replace (size _ <=? cap) with false by (symmetry; apply Z.leb_gt; exact O).
    cbn [root]. fold flattened.
    destruct (pruneLoop cap (root c) (sortByAtime flattened)). reflexivity. }
  unfold MemCache_sizeof, atime, CachePartial_sizeof, CachePartial_atime.
  cbn [rootPartial partialRoot partialPrefix app].
  split.
  - intros u I. specialize (Ha u I).
    split; [now rewrite P, Ha|].
    intros upd now'. rewrite get_unfold, getImpl_fst. cbn [fst]. now rewrite P, Ha.
  - intros q H. specialize (Hb q H).
    split; [now rewrite P, Hb|]. split; [now rewrite P, Hb|].
    intros now'. rewrite !get_unfold, !getImpl_fst. cbn [fst]. now rewrite P, Hb.
Qed.

(** X19.  With a capacity that is not negative and a prune depth other than
    zero, a second [prune] right after a first evicts nothing and leaves the
    contents as they are. *)
Theorem prune_twice_is_prune_once c now now' :
  reachable sizeof nullish c ->
  (forall cap, capacity (options c) = Some cap -> 0 <= cap) ->
  pruneDepth (options c) <> Some 0%nat ->
  fst (prune (snd (prune c now)) now') = Normal []
  /\ root (snd (prune (snd (prune c now)) now')) = root (snd (prune c now)).
Proof.
  intros R NN D.
  assert (O : options (snd (prune c now)) = options c).
  { unfold prune. cbn [options root].
    destruct (capacity (options c)) as [cap|]; [|reflexivity].
    destruct (size _ <=? cap); [reflexivity|].
    destruct (pruneLoop cap _ _) as [r root']. reflexivity. }
  unfold prune at 1 3. cbn [options root]. rewrite O.
  destruct (capacity (options c)) as [cap|] eqn:C; [|split; reflexivity].
  pose proof (prune_reachable_fits sizeof nullish sizeof_nonneg c now cap R C
                (NN cap eq_refl) D) as F.
  unfold size in *. cbn [root].
  replace (nodeSize (root (snd (prune c now))) <=? cap) with true
    by (symmetry; apply Z.leb_le; exact F).
  split; reflexivity.
Qed.

(** X20.  The methods of the view [partial(p)] against those of its cache:
    [get] finds what the cache finds under the key with [p] before it, and
    [insertOne], [ensure] and [deleteOne] are the cache's calls on that key;
    [sizeof] and [atime] look the key up below the root of the view with [p]
    before it once more, which is the cache's answer for the key with [p]
    before it twice; [insertMany] hands its batch to the cache with the keys
    as they are. *)
Theorem view_methods_against_cache c p (view : CachePartial V) s (v : V)
    values replace u now :
  partial c p = Normal (Some view) ->
  fst (CachePartial_get view s u now) = fst (get c (p ++ s) u now)
  /\ CachePartial_sizeof view s = MemCache_sizeof c (p ++ p ++ s)
  /\ CachePartial_atime view s = atime c (p ++ p ++ s)
  /\ CachePartial_insertOne sizeof c view s v replace now
     = insertOne sizeof c (p ++ s) v replace now
  /\ CachePartial_ensure sizeof nullish c view s v now
     = ensure sizeof nullish c (p ++ s) v now
  /\ CachePartial_deleteOne c view s = deleteOne c (p ++ s)
  /\ CachePartial_insertMany sizeof c view values replace now
     = insertMany sizeof c values replace now.
Proof.
  intros P. split; [now apply partial_get_agrees|].
  unfold partial in P. destruct (node (root c) p) as [[n|]|e] eqn:N; try discriminate.
  destruct (isLeaf n); [discriminate|]. inversion P; subst view. clear P.
  unfold MemCache_sizeof, atime. unfold CachePartial_sizeof, CachePartial_atime.
  cbn [rootPartial partialRoot partialPrefix app].
  rewrite (node_app p (root c) (p ++ s)), N.
  repeat split.
Qed.

End Removal.

(** ** The order of iteration *)

Section IterationOrder.
Context {V : Type}.
Variable sizeof : V -> Z.
Implicit Types (nd b rt : Node V) (c : MemCache V).

Lemma map_fst_flat_map (f : Primitive * Node V -> list (list Primitive * Node V)) cs :
  map fst (flat_map f cs) = flat_map (fun e => map fst (f e)) cs.
Proof.
  induction cs as [|e cs IH]; [reflexivity|].
  cbn [flat_map]. now rewrite map_app, IH.
Qed.

Lemma flat_map_mapSet (X : Type) (g : Primitive * Node V -> list X) cs h old new :
  mapGet cs h = Some old -> (forall k, g (k, new) = g (k, old)) ->
  flat_map g (mapSet cs h new) = flat_map g cs.
Proof.
  intros G E. induction cs as [|[k0 v0] cs IH]; [discriminate|].
  cbn [mapGet mapSet] in *. destruct (sameValueZero h k0).
  - inversion G; subst. cbn [flat_map]. now rewrite E.
  - cbn [flat_map]. now rewrite (IH G).
Qed.

Lemma iterNode_insertImpl_replace key : forall b prefix v0 a0 s0 (v : V) d,
  node b key = Normal (Some (Leaf v0 a0 s0)) -> key <> [] ->
  map fst (iterNode (snd (insertImpl sizeof b key v d true)) prefix)
  = map fst (iterNode b prefix).
Proof.
  induction key as [|h t IH]; intros b prefix v0 a0 s0 v d N NE; [congruence|].
  destruct b as [vb ab sb|cs a s cnt]; [discriminate|].
  rewrite node_Branch in N. destruct (mapGet cs h) as [child|] eqn:G; [|discriminate].
  destruct t as [|h2 t2].
  - cbn [node] in N. inversion N; subst child. cbn [insertImpl]. rewrite G.
    cbn [negb andb snd]. rewrite !iterNode_unfold, !map_fst_flat_map.
    now apply (flat_map_mapSet _ _ cs h (Leaf v0 a0 s0)).
  - rewrite insertImpl_inner by discriminate. rewrite G.
    assert (S : forall a' s' cnt',
              map fst (iterNode
                         (Branch (mapSet cs h
                                    (snd (insertImpl sizeof child (h2 :: t2) v d true)))
                            a' s' cnt') prefix)
              = map fst (iterNode (Branch cs a s cnt) prefix)).
    { intros a' s' cnt'. rewrite !iterNode_unfold, !map_fst_flat_map.
      apply (flat_map_mapSet _ _ cs h child); [assumption|].
      intros k. cbn [fst snd].
      apply (IH child (prefix ++ [k]) v0 a0 s0 v d N). discriminate. }
    destruct (insertImpl sizeof child (h2 :: t2) v d true)
      as [[[[sz diff] ins]|e] child']; cbn [snd] in *; apply S.
Qed.

(** X21.  Replacing the value of an entry keeps the entry at its place in
    the order of iteration: when [get] finds a value under a key and no
    eviction pass follows, [insertOne] on that key leaves [keys] as it is. *)
Theorem replacing_keeps_iteration_order c key (v0 v : V) t now :
  fst (get c key false t) = Normal (Some v0) ->
  shouldAutoPrune (afterInsert sizeof c key v true now) now = false ->
  keys (snd (insertOne sizeof c key v true now)) = keys c.
Proof.
  intros G Q. rewrite get_unfold, getImpl_untouched in G. cbn [fst] in G.
  destruct (node (root c) key) as [[[x a0 s0|cs a s cnt]|]|e] eqn:N; try discriminate.
  inversion G; subst x.
  rewrite (insertOne_quiet sizeof c key v true now Q). cbn [snd].
  rewrite !keys_nodes. unfold CachePartial_nodes, afterInsert.
  cbn [rootPartial partialRoot withRoot root].
  destruct key as [|h k]; [reflexivity|].
  apply (iterNode_insertImpl_replace (h :: k) (root c) [] v0 a0 s0 v now N).
  discriminate.
Qed.

End IterationOrder.

(** ** Recorded sizes *)

Section RecordedSizes.
Context {V : Type}.
Variable sizeof : V -> Z.
Variable nullish : V -> bool.
Hypothesis sizeof_nonneg : forall v, 0 <= sizeof v.
Implicit Types (nd b rt : Node V) (c : MemCache V).

Lemma estimated_Branch cs a s cnt :
  estimated sizeof (Branch cs a s cnt) = true
  <-> Forall (fun e => estimated sizeof (snd e) = true) cs.
Proof. cbn [estimated]. now rewrite forallb_forall, Forall_forall. Qed.

Lemma estimated_child cs a s cnt k (child : Node V) :
  estimated sizeof (Branch cs a s cnt) = true -> mapGet cs k = Some child ->
  estimated sizeof child = true.
Proof.
  intros E G. apply estimated_Branch in E.
  destruct (Forall_mapGet _ _ _ _ E G) as [k' H]. exact H.
Qed.

Lemma estimated_store cs a s cnt k (child : Node V) a' s' cnt' :
  estimated sizeof (Branch cs a s cnt) = true -> estimated sizeof child = true ->
  estimated sizeof (Branch (mapSet cs k child) a' s' cnt') = true.
Proof.
  intros E Ec. apply estimated_Branch in E. apply estimated_Branch.
  apply Forall_mapSet; auto.
Qed.

Lemma insertImpl_estimated key : forall b (v : V) d r,
  estimated sizeof b = true ->
  estimated sizeof (snd (insertImpl sizeof b key v d r)) = true.
Proof.
  induction key as [|h t IH]; intros b v d r E; [exact E|].
  destruct b as [v0 a0 s0|cs a s cnt]; [exact E|].
  destruct t as [|h2 t2].
  - cbn [insertImpl]. destruct (negb r && isSome (mapGet cs h)); [exact E|].
    cbn [snd]. apply (estimated_store cs a s cnt h _ _ _ _ E).
    cbn [estimated]. apply Z.eqb_refl.
  - rewrite insertImpl_inner by discriminate.
    destruct (mapGet cs h) as [child|] eqn:G.
    + pose proof (IH child v d r (estimated_child _ _ _ _ _ _ E G)) as E'.
      destruct (insertImpl sizeof child (h2 :: t2) v d r)
        as [[[[sz diff] ins]|e] child']; cbn [snd] in *;
        exact (estimated_store cs a s cnt h _ _ _ _ E E').
    + pose proof (IH (Branch [] d 0 0) v d r eq_refl) as E'.
      assert (E1 : estimated sizeof (Branch (mapSet cs h (Branch [] d 0 0)) a s cnt) = true)
        by (apply (estimated_store cs a s cnt h _ _ _ _ E); reflexivity).
      destruct (insertImpl sizeof (Branch [] d 0 0) (h2 :: t2) v d r)
        as [[[[sz diff] ins]|e] child']; cbn [snd] in *;
        exact (estimated_store _ a s cnt h _ _ _ _ E1 E').
Qed.

Lemma deleteImpl_estimated key : forall b,
  estimated sizeof b = true -> estimated sizeof (snd (deleteImpl b key)) = true.
Proof.
  induction key as [|h t IH]; intros b E; [exact E|].
  destruct b as [v0 a0 s0|cs a s cnt]; [exact E|].
  destruct t as [|h2 t2].
  - cbn [deleteImpl]. destruct (mapGet cs h) as [entry|]; [|exact E].
    cbn [snd]. apply estimated_Branch in E. apply estimated_Branch.
    now apply Forall_mapDelete.
  - rewrite deleteImpl_inner by discriminate.
    destruct (mapGet cs h) as [child|] eqn:G; [|exact E].
    pose proof (IH child (estimated_child _ _ _ _ _ _ E G)) as E'.
    destruct (deleteImpl child (h2 :: t2)) as [[[deleted|]|e] child']; cbn [snd] in *;
      exact (estimated_store cs a s cnt h _ _ _ _ E E').
Qed.

Lemma estimated_setAtime nd (d : Date) :
  estimated sizeof (setAtime nd d) = estimated sizeof nd.
Proof. destruct nd; reflexivity. Qed.

Lemma getImpl_estimated key : forall nd u now,
  estimated sizeof nd = true -> estimated sizeof (snd (getImpl nd key u now)) = true.
Proof.
  induction key as [|h t IH]; intros nd u now E.
  - cbn. destruct u; cbn; rewrite ?estimated_setAtime; exact E.
  - destruct nd as [v0 a0 s0|cs a s cnt].
    + cbn [getImpl]. rewrite touch_Leaf. exact E.
    + rewrite getImpl_Branch. destruct (mapGet cs h) as [child|] eqn:G; [|exact E].
      cbn [snd]. apply (estimated_store cs a s cnt h _ _ _ _ E).
      apply IH. exact (estimated_child _ _ _ _ _ _ E G).
Qed.

Lemma reachable_estimated c :
  reachable sizeof nullish c -> estimated sizeof (root c) = true.
Proof.
  apply (reachable_kept sizeof nullish (fun rt => estimated sizeof rt = true)).
  - intros rt key v d r E. now apply insertImpl_estimated.
  - intros rt key E. now apply deleteImpl_estimated.
  - intros rt key u now E. now apply getImpl_estimated.
  - reflexivity.
  - reflexivity.
Qed.

Lemma iterNode_estimated nd : forall prefix kn,
  estimated sizeof nd = true -> In kn (iterNode nd prefix) ->
  estimated sizeof (snd kn) = true.
Proof.
  induction nd as [v a s|cs a s cnt IH] using Node_induct; intros prefix kn E I;
    rewrite iterNode_unfold in I.
  - destruct I as [Ek|[]]. now subst kn.
  - apply estimated_Branch in E. apply in_flat_map in I. destruct I as [e [Ie I]].
    rewrite Forall_forall in IH, E. exact (IH e Ie _ kn (E e Ie) I).
Qed.

(** X22.  In every state a cache can get into, each entry records the size
    the estimator gives for its value, and the size of the cache is the sum
    of the estimator's sizes of the values it holds. *)
Theorem size_is_the_estimate_of_the_values c :
  reachable sizeof nullish c ->
  (forall key v z, In (key, v, z) (CachePartial_entries (rootPartial c)) ->
                   z = sizeof v)
  /\ size c = batchSize sizeof (entries c).
Proof.
  intros R. pose proof (reachable_estimated c R) as E.
  pose proof (reachable_wellFormed sizeof nullish sizeof_nonneg c R) as W.
  pose proof (iterNode_estimated (root c) [] ) as L.
  split.
  - intros key v z I. unfold CachePartial_entries, CachePartial_nodes in I.
    cbn [rootPartial partialRoot] in I. apply in_flat_map in I.
    destruct I as [[k n] [I Ek]]. specialize (L (k, n) E I). cbn [fst snd] in *.
    destruct n as [v0 a s|cs a s cnt]; [|contradiction].
    destruct Ek as [Ek|[]]. inversion Ek; subst. cbn [estimated] in L.
    now apply Z.eqb_eq in L.
  - unfold size. rewrite <- (flatten_sumSizes None (root c) [] W).
    rewrite flatten_None_iterNode. unfold entries, CachePartial_nodes.
    cbn [rootPartial partialRoot]. specialize (L).
    assert (L' : forall kn, In kn (iterNode (root c) []) ->
                            estimated sizeof (snd kn) = true /\ isLeaf (snd kn) = true).
    { intros kn I. split; [now apply L|now apply (iterNode_leaves (root c) [])]. }
    clear L. induction (iterNode (root c) []) as [|[k n] l IH]; [reflexivity|].
    destruct (L' (k, n) (or_introl eq_refl)) as [En Ln]. cbn [snd] in En, Ln.
    destruct n as [v a s|cs a s cnt]; [|discriminate].
    cbn [estimated] in En. apply Z.eqb_eq in En.
    cbn [map flat_map fst snd app sumSizes unitOf unitSize nodeSize batchSize fold_right].
    rewrite IH; [unfold batchSize; lia|].
    intros kn I. apply L'. now right.
Qed.

End RecordedSizes.

(** ** Access times under a clock that never goes back *)

Section AccessTimes.
Context {V : Type}.
Variable sizeof : V -> Z.
Variable nullish : V -> bool.
Implicit Types (nd b rt : Node V) (c : MemCache V).






















End AccessTimes.

(** ** The guarantees at work on concrete caches *)

Lemma entries_are_what_get_finds_witness :
  (In ([PString "key1"; PString "subkey1"], "value1.1"%string) (entries textCache)
   <-> fst (get textCache [PString "key1"; PString "subkey1"] false 3)
       = Normal (Some "value1.1"%string))
  /\ NoDup (keys textCache).
Proof.
  apply (entries_are_what_get_finds stringSizeof neverNullish).
  - intros s. unfold stringSizeof. lia.
  - exists cappedOptions, textValues, 0, textCalls. reflexivity.
Defined.

Lemma entry_sizes_add_up_witness :
  entriesSize (CachePartial_entries (rootPartial textCache)) = size textCache
  /\ MemCache_sizeof textCache [PString "key1"]
     = Normal (Some (entriesSize (CachePartial_entries textView))).
Proof.
  destruct (entry_sizes_add_up stringSizeof neverNullish
              ltac:(intros s; unfold stringSizeof; lia)
              textCache [PString "key1"] textView) as [A B].
  - exists cappedOptions, textValues, 0, textCalls. reflexivity.
  - split; [exact A|]. apply B. reflexivity.
Defined.

Lemma view_entries_are_relative_witness :
  In ([PString "key1"; PString "subkey1"], "value1.1"%string, 16)
     (CachePartial_entries (rootPartial textCache)).
Proof.
  apply (proj1 (view_entries_are_relative stringSizeof neverNullish
                  ltac:(intros s; unfold stringSizeof; lia)
                  textCache [PString "key1"] textView [PString "subkey1"]
                  "value1.1"%string 16
                  ltac:(exists cappedOptions, textValues, 0, textCalls; reflexivity)
                  eq_refl)).
  vm_compute. left. reflexivity.
Defined.

Lemma eviction_units_partition_witness :
  NoDup (map unitKey (flatten (Some 1%nat) (root textCache) []))
  /\ sumSizes (flatten (Some 1%nat) (root textCache) []) = size textCache
  /\ (List.length (unitKey (unitOf ([PString "key1"], partialRoot textView))) <= 1)%nat.
Proof.
  destruct (eviction_units_partition stringSizeof neverNullish
              ltac:(intros s; unfold stringSizeof; lia)
              textCache (Some 1%nat) 1%nat
              (unitOf ([PString "key1"], partialRoot textView))) as [A [B [_ D]]].
  - exists cappedOptions, textValues, 0, textCalls. reflexivity.
  - split; [exact A|]. split; [exact B|]. apply D. vm_compute. left. reflexivity.
Defined.

Lemma absent_key_is_harmless_witness :
  fst (get nestedCache [PString "key2"] true 5) = Normal None
  /\ deleteOne nestedCache [PString "key2"] = (Normal tt, nestedCache).
Proof.
  destruct (absent_key_is_harmless nestedCache [PString "key2"] true 5 eq_refl)
    as [A [_ [_ [D _]]]].
  split; [exact A|exact D].
Defined.


Lemma deleteOne_subtracts_subtree_witness :
  fst (deleteOne nestedCache [PString "key1"]) = Normal tt
  /\ size (snd (deleteOne nestedCache [PString "key1"])) = size nestedCache - 90
  /\ count (snd (deleteOne nestedCache [PString "key1"])) = count nestedCache - 2
  /\ MemCache_sizeof (snd (deleteOne nestedCache [PString "key1"])) []
     = Normal (Some (90 - 90)).
Proof.
  destruct (deleteOne_subtracts_subtree nestedCache [PString "key1"]
              (partialRoot key1View) [] [PString "key2"] 90 eq_refl
              ltac:(discriminate)) as [R [_ [S [C [P _]]]]].
  split; [exact R|]. split; [exact S|]. split; [exact C|].
  apply P; reflexivity.
Defined.

Lemma insertOne_adds_difference_witness :
  fst (insertOne mockSizeof nestedCache [PString "key1"; PNumber 3] 7 true 4)
  = Normal (Some 7)
  /\ size (snd (insertOne mockSizeof nestedCache [PString "key1"; PNumber 3] 7 true 4))
     = size nestedCache + 7 - 0
  /\ count (snd (insertOne mockSizeof nestedCache [PString "key1"; PNumber 3] 7 true 4))
     = count nestedCache + 1
  /\ MemCache_sizeof
       (snd (insertOne mockSizeof nestedCache [PString "key1"; PNumber 3] 7 true 4))
       [PString "key1"]
     = Normal (Some (90 + 7 - 0)).
Proof.
  destruct (insertOne_adds_difference mockSizeof nestedCache
              [PString "key1"; PNumber 3] 7 true 4 [PString "key1"] [PString "key2"]
              ltac:(discriminate) eq_refl (or_introl eq_refl) eq_refl)
    as [R [S [C [_ [P _]]]]].
  split; [exact R|]. split; [exact S|]. split; [exact C|].
  apply P. reflexivity.
Defined.

Lemma automatic_pruning_keeps_capacity_witness :
  size (snd (insertOne stringSizeof textCache [PString "key3"; PString "subkey1"]
               "0123456789012345678901234567890123456789"%string true 9)) <= 100.
Proof.
  apply (automatic_pruning_keeps_capacity stringSizeof neverNullish
           ltac:(intros s; unfold stringSizeof; lia) textCache).
  - exists cappedOptions, textValues, 0, textCalls. reflexivity.
  - reflexivity.
  - lia.
  - reflexivity.
  - reflexivity.
  - discriminate.
Defined.

Lemma pruning_interval_holds_off_witness :
  lastPruneAt (snd (prune overdueCache 999)) = 999
  /\ shouldAutoPrune (snd (prune overdueCache 999)) 1500 = false
  /\ snd (insertOne mockSizeof overdueCache [PString "c"] 60 true 999)
     = afterInsert mockSizeof overdueCache [PString "c"] 60 true 999.
Proof.
  destruct (pruning_interval_holds_off mockSizeof overdueCache [PString "c"] 60 true
              999 1000 eq_refl) as [L [S I]].
  split; [exact L|]. split; [apply S; lia|apply I; vm_compute; reflexivity].
Defined.

Lemma insertMany_is_repeated_insertOne_witness :
  7 = batchSize mockSizeof [([PString "a"; PNumber 1], 3); ([PString "b"; PNumber 1], 4)]
  /\ snd (insertMany mockSizeof nestedCache
            [([PString "a"; PNumber 1], 3); ([PString "b"; PNumber 1], 4)] true 7)
     = run mockSizeof neverNullish nestedCache
         [(7, OpInsertOne [PString "a"; PNumber 1] 3 true);
          (7, OpInsertOne [PString "b"; PNumber 1] 4 true)].
Proof.
  destruct (insertMany_is_repeated_insertOne mockSizeof neverNullish nestedCache
              [([PString "a"; PNumber 1], 3); ([PString "b"; PNumber 1], 4)] true 7 7
              eq_refl) as [T R].
  split.
  - apply T; [reflexivity|]. repeat constructor; discriminate.
  - apply R. right. reflexivity.
Defined.

Lemma prune_order_and_bound_witness :
  fst (prune crowdedCache 3) = Normal (map prunedEntry (evictedUnits crowdedCache 100))
  /\ size (snd (prune crowdedCache 3))
     = size crowdedCache - sumSizes (evictedUnits crowdedCache 100)
  /\ size (snd (prune crowdedCache 3)) <= 100.
Proof.
  destruct (prune_order_and_bound stringSizeof neverNullish
              ltac:(intros s; unfold stringSizeof; lia) crowdedCache 3 100)
    as [_ [_ [_ [P [_ [_ [S B]]]]]]].
  - exists (manualOptions None), textValues, 0,
      [(1, OpInsertOne [PString "key2"; PString "subkey2"]
             "0123456789012345678901234567890123456789"%string true);
       (2, OpGet [PString "key1"; PString "subkey1"] true)].
    reflexivity.
  - reflexivity.
  - lia.
  - vm_compute. reflexivity.
  - discriminate.
  - split; [exact P|]. split; [exact S|exact B].
Defined.

Lemma ensure_inserts_once_witness :
  ensure mockSizeof neverNullish nestedCache [PString "key2"; PNumber 1] 5 3
  = (Normal 5, afterInsert mockSizeof nestedCache [PString "key2"; PNumber 1] 5 false 3)
  /\ fst (get (afterInsert mockSizeof nestedCache [PString "key2"; PNumber 1] 5 false 3)
            [PString "key2"; PNumber 1] true 4) = Normal (Some 5)
  /\ ensure mockSizeof neverNullish
       (afterInsert mockSizeof nestedCache [PString "key2"; PNumber 1] 5 false 3)
       [PString "key2"; PNumber 1] 6 4
     = (Normal 5, afterInsert mockSizeof nestedCache [PString "key2"; PNumber 1] 5 false 3).
Proof.
  apply (ensure_inserts_once mockSizeof neverNullish nestedCache
           [PString "key2"; PNumber 1] 5 6 3 4 true); try reflexivity.
  discriminate.
Defined.

Lemma fixed_length_keys_count_witness :
  count textCache = Z.of_nat (List.length (entries textCache))
  /\ CachePartial_count textView
     = Z.of_nat (List.length (CachePartial_entries textView)).
Proof.
  destruct (fixed_length_keys_count stringSizeof neverNullish 2 textCache
              ltac:(discriminate)) as [A [_ B]].
  - exists cappedOptions, textValues, 0, textCalls. repeat split; reflexivity.
  - split; [exact A|]. apply (B [PString "key1"]). reflexivity.
Defined.

Lemma fixed_length_keys_never_raise_witness :
  fst (deleteOne textCache [PString "key1"]) = Normal tt
  /\ fst (deleteMany textCache [[PString "key1"; PString "subkey1"]; [PString "key3"]])
     = Normal tt.
Proof.
  destruct (fixed_length_keys_never_raise stringSizeof neverNullish 2 textCache
              ltac:(discriminate)) as [A [_ [_ [D _]]]].
  - exists cappedOptions, textValues, 0, textCalls. repeat split; reflexivity.
  - split.
    + apply A. cbn. lia.
    + apply D. repeat constructor; cbn; lia.
Defined.

Lemma prune_removes_the_evicted_units_witness :
  MemCache_sizeof (snd (prune crowdedCache 3)) [PString "key1"; PString "subkey2"]
  = Normal None
  /\ MemCache_sizeof (snd (prune crowdedCache 3)) [PString "key1"; PString "subkey1"]
     = MemCache_sizeof crowdedCache [PString "key1"; PString "subkey1"].
Proof.
  destruct (prune_removes_the_evicted_units stringSizeof neverNullish
              ltac:(intros s; unfold stringSizeof; lia) crowdedCache 3 100)
    as [G K].
  - exists (manualOptions None), textValues, 0,
      [(1, OpInsertOne [PString "key2"; PString "subkey2"]
             "0123456789012345678901234567890123456789"%string true);
       (2, OpGet [PString "key1"; PString "subkey1"] true)].
    reflexivity.
  - reflexivity.
  - lia.
  - vm_compute. reflexivity.
  - discriminate.
  - split.
    + apply (G ([PString "key1"; PString "subkey2"], SlotValue "value1.2"%string, 0, 16)).
      vm_compute. left. reflexivity.
    + apply K. intros u I. vm_compute in I.
      destruct I as [E|[E|[]]]; subst u; split; reflexivity.
Defined.

Lemma prune_twice_is_prune_once_witness :
  fst (prune (snd (prune crowdedCache 3)) 4) = Normal []
  /\ root (snd (prune (snd (prune crowdedCache 3)) 4)) = root (snd (prune crowdedCache 3)).
Proof.
  apply (prune_twice_is_prune_once stringSizeof neverNullish
           ltac:(intros s; unfold stringSizeof; lia)).
  - exists (manualOptions None), textValues, 0,
      [(1, OpInsertOne [PString "key2"; PString "subkey2"]
             "0123456789012345678901234567890123456789"%string true);
       (2, OpGet [PString "key1"; PString "subkey1"] true)].
    reflexivity.
  - intros cap E. vm_compute in E. injection E as E. lia.
  - discriminate.
Defined.

Lemma view_methods_against_cache_witness :
  fst (CachePartial_get key1View [PNumber 1] false 5)
  = fst (get nestedCache [PString "key1"; PNumber 1] false 5)
  /\ CachePartial_sizeof key1View [PNumber 1]
     = MemCache_sizeof nestedCache [PString "key1"; PString "key1"; PNumber 1].
Proof.
  destruct (view_methods_against_cache mockSizeof neverNullish nestedCache
              [PString "key1"] key1View [PNumber 1] 0 [] true false 5 eq_refl)
    as [G [S _]].
  split; [exact G|exact S].
Defined.

Lemma replacing_keeps_iteration_order_witness :
  keys (snd (insertOne mockSizeof nestedCache [PString "key1"; PNumber 1] 99 true 5))
  = keys nestedCache.
Proof.
  exact (replacing_keeps_iteration_order mockSizeof nestedCache
           [PString "key1"; PNumber 1] 40 99 0 5 eq_refl eq_refl).
Defined.

Lemma size_is_the_estimate_of_the_values_witness :
  size textCache = batchSize stringSizeof (entries textCache).
Proof.
  apply (size_is_the_estimate_of_the_values stringSizeof neverNullish).
  - intros s. unfold stringSizeof. lia.
  - exists cappedOptions, textValues, 0, textCalls. reflexivity.
Defined.

